(** * Audio-Extraction: clip extraction, WAV encoding, waveform and
      selection logic

    A shallow embedding of [src/services/audioService.ts] (the
    [AudioService] class and the [Waveform] component that the file also
    carries) and of the selection effect and download handler of
    [src/App.tsx], with the properties the specification states about
    them.

    Numbers.  A JavaScript number is a binary64 value.  A finite one is
    modelled by the rational it denotes ([Q]); [NaN] is added where the
    code can produce it (reading outside a typed array gives [undefined],
    which becomes [NaN] once stored or compared).  Arithmetic whose
    binary64 result can differ from the exact one goes through a rounding
    function [fl]: the development is parametric in it, [exact] is the
    idealised arithmetic and [binary64] is round-to-nearest-even on 53
    bits, subnormal numbers included.  A rounding function has no largest
    value: the overflow of a product to an infinity, and what the
    extractor does with it, is the matter of [Extended]; elsewhere values
    stay finite, and the sign of zero is not modelled.
    Operations that are exact on the values at hand (integer counters, the
    remainder operator, [Math.floor], the 16-bit scaling of a sample, which
    is a 32-bit float) are written without rounding. *)

From Stdlib Require Import ZArith QArith Qround Qabs Qpower Qminmax Lia Lqa Ascii String.
From stdpp Require Import base list strings pretty sorting.

Local Open Scope Z_scope.

(** ** Numbers *)

Inductive number : Type :=
  | Num (q : Q)
  | NaN.

(** [ToNumber] of a value read from an array: [undefined] becomes [NaN]. *)
Definition ToNumber (v : option number) : number :=
  match v with
  | Some x => x
  | None => NaN
  end.

(** Truncation toward zero, the integer part used by [ToInt32] and its
    siblings. *)
Definition Qtrunc (x : Q) : Z := Z.quot (Qnum x) (Zpos (Qden x)).

Definition ToUint16 (x : Q) : Z := Qtrunc x mod 2 ^ 16.
Definition ToUint32 (x : Q) : Z := Qtrunc x mod 2 ^ 32.

(** Reduction into the signed range of width [w]. *)
Definition signed (w : Z) (n : Z) : Z :=
  let m := n mod 2 ^ w in
  if m <? 2 ^ (w - 1) then m else m - 2 ^ w.

Definition ToInt16 (x : Q) : Z := signed 16 (Qtrunc x).
Definition ToInt32 (x : Q) : Z := signed 32 (Qtrunc x).

(** [x | 0]: [NaN] becomes 0, a finite value goes through [ToInt32]. *)
Definition bitor0 (x : number) : Z :=
  match x with
  | Num q => ToInt32 q
  | NaN => 0
  end.

(** *** Rounding *)

(** What the proofs need of a rounding function: it is monotone and leaves
    the integers of magnitude at most 2^53 alone. *)
Class Rounding (fl : Q -> Q) : Prop := {
  fl_mono : forall x y : Q, (x <= y)%Q -> (fl x <= fl y)%Q;
  fl_int : forall n : Z, Z.abs n <= 2 ^ 53 -> (fl (inject_Z n) == inject_Z n)%Q
}.

(** Idealised arithmetic: no rounding. *)
Definition exact (x : Q) : Q := x.

(** Round half to even. *)
Definition rne (x : Q) : Z :=
  let f := Qfloor x in
  match Qcompare (x - inject_Z f) (1 # 2) with
  | Lt => f
  | Gt => f + 1
  | Eq => if Z.even f then f else f + 1
  end.

(** [ilog2 a] is the exponent [e] with [2^e <= a < 2^(e+1)], for [a > 0]. *)
Definition ilog2 (a : Q) : Z :=
  let e0 := Z.log2 (Qnum a) - Z.log2 (Zpos (Qden a)) in
  if Qle_bool (2 ^ e0) a then e0 else e0 - 1.

(** Nearest binary64 value of a positive rational: 53 significant bits,
    exponent not below -1022 (subnormal numbers share the spacing
    2^-1074) and without upper bound: a result beyond the largest
    binary64 value, which is an infinity in the code, is told apart by
    [Extended.overflow]. *)
Definition binary64_pos (a : Q) : Q :=
  let e := Z.max (ilog2 a) (-1022) in
  let u := (2 ^ (e - 52))%Q in
  Qred (inject_Z (rne (a / u)) * u).

Definition binary64 (x : Q) : Q :=
  match Qcompare x 0 with
  | Eq => 0%Q
  | Gt => binary64_pos x
  | Lt => Qred (- binary64_pos (- x))
  end.

(** ** Exceptions *)

(** [throw new Error(msg)], the [RangeError] of a [DataView] access
    outside its buffer, and the [NotSupportedError] of [createBuffer] on
    a length that is not a positive integer. *)
Inductive exn : Type :=
  | Error (msg : string)
  | RangeError
  | NotSupportedError.

Inductive result (A : Type) : Type :=
  | Ok (a : A)
  | Throw (e : exn).
Arguments Ok {A} a.
Arguments Throw {A} e.

#[global] Instance result_ret : MRet result := fun A a => Ok a.

#[global] Instance result_bind : MBind result := fun A B k r =>
  match r with
  | Ok a => k a
  | Throw e => Throw e
  end.

(** The error the specification calls [InvalidRangeError]. *)
Definition InvalidRangeError : exn := Error "Invalid time range".

(** ** Audio buffers *)

(** A [Float32Array]: reads outside give [undefined], writes outside are
    ignored. *)
Abbreviation Float32Array := (list number).

Definition getIndex (a : Float32Array) (k : Z) : option number :=
  if k <? 0 then None else a !! Z.to_nat k.

Definition setIndex (a : Float32Array) (j : nat) (v : option number) : Float32Array :=
  <[ j := ToNumber v ]> a.

(** An [AudioBuffer]: its [sampleRate], its [length] in frames
    ([bufferLength]; [length] is the list function here) and one
    [Float32Array] per channel. *)
Record AudioBuffer : Type := {
  sampleRate : Q;
  bufferLength : nat;
  channelData : list Float32Array
}.

Definition numberOfChannels (b : AudioBuffer) : nat := length (channelData b).

(** [getChannelData(i)] for [i] below [numberOfChannels]. *)
Definition getChannelData (b : AudioBuffer) (i : nat) : Float32Array :=
  match channelData b !! i with
  | Some c => c
  | None => []
  end.

(** The duration of the buffer, frames over rate.  The [duration]
    attribute is the binary64 value of this quotient. *)
Definition duration (b : AudioBuffer) : Q :=
  (inject_Z (Z.of_nat (bufferLength b)) / sampleRate b)%Q.


Definition zero : number := Num 0.

(** [audioContext.createBuffer(numberOfChannels, length, sampleRate)]:
    every sample is zero.  The limits of the platform on the three
    arguments are not modelled. *)
Definition createBuffer (numChannels len : nat) (rate : Q) : AudioBuffer :=
  {| sampleRate := rate;
     bufferLength := len;
     channelData := replicate numChannels (replicate len zero) |}.

(** ** The extractor: [extractClip], lines 16 to 42 *)

Section Extract.
Variable fl : Q -> Q.

Definition startSampleOf (buffer : AudioBuffer) (startTime : Q) : Z :=
  Qfloor (fl (startTime * sampleRate buffer)).

Definition endSampleOf (buffer : AudioBuffer) (endTime : Q) : Z :=
  Qfloor (fl (endTime * sampleRate buffer)).

Definition frameCountOf (buffer : AudioBuffer) (startTime endTime : Q) : Z :=
  endSampleOf buffer endTime - startSampleOf buffer startTime.

(** One turn of the inner loop (lines 36 to 41). *)
Definition copyFrame (channelData : Float32Array) (startSample : Z)
    (newChannelData : Float32Array) (j : nat) : Float32Array :=
  if startSample + Z.of_nat j <? Z.of_nat (length channelData)
  then setIndex newChannelData j (getIndex channelData (startSample + Z.of_nat j))
  else newChannelData.

(** The inner loop, [j] from 0 to [frameCount - 1]. *)
Definition copySegment (channelData : Float32Array) (startSample : Z)
    (frameCount : nat) (newChannelData : Float32Array) : Float32Array :=
  foldl (copyFrame channelData startSample) newChannelData (seq 0 frameCount).

(** One turn of the outer loop (lines 32 to 42): the array returned by
    [newBuffer.getChannelData(i)] is the buffer's own storage. *)
Definition copyChannel (buffer : AudioBuffer) (startSample : Z)
    (frameCount : nat) (newBuffer : AudioBuffer) (i : nat) : AudioBuffer :=
  let channelData_i := getChannelData buffer i in
  let newChannelData := getChannelData newBuffer i in
  {| sampleRate := sampleRate newBuffer;
     bufferLength := bufferLength newBuffer;
     channelData :=
       <[ i := copySegment channelData_i startSample frameCount newChannelData ]>
         (channelData newBuffer) |}.

(** Lines 17 to 42: the buffer handed to the encoder, or the exception. *)
Definition extractBuffer (buffer : AudioBuffer) (startTime endTime : Q)
    : result AudioBuffer :=
  let startSample := startSampleOf buffer startTime in
  let frameCount := frameCountOf buffer startTime endTime in
  if frameCount <=? 0 then Throw (Error "Invalid time range")
  else
    let newBuffer :=
      createBuffer (numberOfChannels buffer) (Z.to_nat frameCount) (sampleRate buffer) in
    Ok (foldl (copyChannel buffer startSample (Z.to_nat frameCount)) newBuffer
          (seq 0 (numberOfChannels buffer))).
End Extract.

(** ** The encoder: [bufferToWav], lines 50 to 104 *)

(** *** [ArrayBuffer] and [DataView] *)

(** The [n] bytes of [v], least significant first (two's complement for a
    negative [v]). *)
Definition le_bytes (n : nat) (v : Z) : list Z :=
  (fun k : nat => (v / 256 ^ Z.of_nat k) mod 256) <$> seq 0 n.

(** The number a little-endian byte sequence denotes. *)
Fixpoint le_value (bs : list Z) : Z :=
  match bs with
  | [] => 0
  | b :: bs => b + 256 * le_value bs
  end.

(** A write of [bs] at [byteOffset]: a [RangeError] when it does not fit. *)
Definition setBytes (view : list Z) (byteOffset : nat) (bs : list Z)
    : result (list Z) :=
  if decide (byteOffset + length bs <= length view)%nat
  then Ok (list_inserts byteOffset bs view)
  else Throw RangeError.

(** [view.setUint16(byteOffset, value, true)] and its siblings. *)
Definition DataView_setUint16 (view : list Z) (byteOffset : nat) (value : Q)
    : result (list Z) :=
  setBytes view byteOffset (le_bytes 2 (ToUint16 value)).

Definition DataView_setUint32 (view : list Z) (byteOffset : nat) (value : Q)
    : result (list Z) :=
  setBytes view byteOffset (le_bytes 4 (ToUint32 value)).

Definition DataView_setInt16 (view : list Z) (byteOffset : nat) (value : Q)
    : result (list Z) :=
  setBytes view byteOffset (le_bytes 2 (ToInt16 value)).

(** [view.getInt16(byteOffset, true)], and the unsigned reads, for stating
    what a field holds. *)
Definition getUint (n : nat) (view : list Z) (byteOffset : nat) : Z :=
  le_value (take n (drop byteOffset view)).

Definition getInt16 (view : list Z) (byteOffset : nat) : Z :=
  signed 16 (getUint 2 view byteOffset).

(** *** Sample conversion, lines 84 to 86 *)

Definition lessThan (a b : number) : bool :=
  match a, b with
  | Num x, Num y => negb (Qle_bool y x)
  | _, _ => false
  end.

Definition plus (a b : number) : number :=
  match a, b with
  | Num x, Num y => Num (x + y)
  | _, _ => NaN
  end.

Definition times (a b : number) : number :=
  match a, b with
  | Num x, Num y => Num (x * y)
  | _, _ => NaN
  end.

Definition Math_min (a b : number) : number :=
  match a, b with
  | Num x, Num y => Num (if Qle_bool x y then x else y)
  | _, _ => NaN
  end.

Definition Math_max (a b : number) : number :=
  match a, b with
  | Num x, Num y => Num (if Qle_bool x y then y else x)
  | _, _ => NaN
  end.

(** Line 84. *)
Definition clamp (x : number) : number :=
  Math_max (Num (-1)) (Math_min (Num 1) x).

(** Line 86: [(0.5 + sample < 0 ? sample * 32768 : sample * 32767) | 0].
    The comparison binds looser than the sum. *)
Definition scale16 (sample : number) : Z :=
  bitor0 (if lessThan (plus (Num (1 # 2)) sample) (Num 0)
          then times sample (Num 32768)
          else times sample (Num 32767)).

(** *** The writer *)

(** The locals the closures and the loop share: the view on the buffer,
    the cursor [pos] and [offset]. *)
Record writer : Type := {
  view : list Z;
  pos : nat;
  offset : nat
}.

(** Lines 95 to 98. *)
Definition setUint16 (data : Q) (w : writer) : result writer :=
  v ← DataView_setUint16 (view w) (pos w) data;
  mret {| view := v; pos := pos w + 2; offset := offset w |}.

(** Lines 100 to 103. *)
Definition setUint32 (data : Q) (w : writer) : result writer :=
  v ← DataView_setUint32 (view w) (pos w) data;
  mret {| view := v; pos := pos w + 4; offset := offset w |}.

Fixpoint foldlM {A B : Type} (f : A -> B -> result A) (a : A) (l : list B)
    : result A :=
  match l with
  | [] => Ok a
  | x :: l => a' ← f a x; foldlM f a' l
  end.

(** Lines 83 to 88, for channel [i]: the sample is read at index [pos]. *)
Definition writeSample (channels : list Float32Array) (w : writer) (i : nat)
    : result writer :=
  let sample := clamp (ToNumber (channels !! i ≫= (fun c => c !! pos w))) in
  let sample := scale16 sample in
  v ← DataView_setInt16 (view w) (44 + offset w) (inject_Z sample);
  mret {| view := v; pos := pos w; offset := offset w + 2 |}.

(** Lines 82 to 90: one turn of the [while] loop. *)
Definition writeFrame (numOfChan : nat) (channels : list Float32Array)
    (w : writer) : result writer :=
  w' ← foldlM (writeSample channels) w (seq 0 numOfChan);
  mret {| view := view w'; pos := pos w' + 1; offset := offset w' |}.

(** Lines 81 to 91: [while (pos < abuffer.length)].  A turn adds one to
    [pos] and the bound is fixed, so the loop makes
    [abuffer.length - pos] turns, none when [pos] is already past it. *)
Definition interleave (abuffer : AudioBuffer) (numOfChan : nat)
    (channels : list Float32Array) (w : writer) : result writer :=
  foldlM (fun w _ => writeFrame numOfChan channels w) w
    (seq (pos w) (bufferLength abuffer - pos w)).

Record Blob : Type := {
  blobParts : list Z;
  type : string
}.

(** Lines 61 to 76: the header, written through the cursor [pos]. *)
Definition writeHeader (abuffer : AudioBuffer) (numOfChan length : nat)
    (w : writer) : result writer :=
  w ← setUint32 (inject_Z 0x46464952) w;
  w ← setUint32 (inject_Z (Z.of_nat length - 8)) w;
  w ← setUint32 (inject_Z 0x45564157) w;
  w ← setUint32 (inject_Z 0x20746d66) w;
  w ← setUint32 (inject_Z 16) w;
  w ← setUint16 (inject_Z 1) w;
  w ← setUint16 (inject_Z (Z.of_nat numOfChan)) w;
  w ← setUint32 (sampleRate abuffer) w;
  w ← setUint32 (sampleRate abuffer * 2 * inject_Z (Z.of_nat numOfChan))%Q w;
  w ← setUint16 (inject_Z (Z.of_nat numOfChan * 2)) w;
  w ← setUint16 (inject_Z 16) w;
  w ← setUint32 (inject_Z 0x61746164) w;
  setUint32 (inject_Z (Z.of_nat length - Z.of_nat (pos w) - 4)) w.

(** Lines 50 to 93.  The loop of line 81 starts from the [pos] the header
    left. *)
Definition bufferToWav (abuffer : AudioBuffer) : result Blob :=
  let numOfChan := numberOfChannels abuffer in
  let length := (bufferLength abuffer * numOfChan * 2 + 44)%nat in
  let w := {| view := replicate length 0; pos := 0%nat; offset := 0%nat |} in
  w ← writeHeader abuffer numOfChan length w;
  let channels := getChannelData abuffer <$> seq 0 (numberOfChannels abuffer) in
  w ← interleave abuffer numOfChan channels w;
  mret {| blobParts := view w; type := "audio/wav" |}.

(** Lines 16 to 45, for times whose products with the rate stay within
    the range of binary64. *)
Definition extractClip (fl : Q -> Q) (buffer : AudioBuffer)
    (startTime endTime : Q) : result Blob :=
  newBuffer ← extractBuffer fl buffer startTime endTime;
  bufferToWav newBuffer.

(** ** The extractor on every number: [extractClip], lines 16 to 45

    The same lines for every value the two times can take.  A product or
    a difference whose rounded magnitude exceeds the largest binary64
    value is an infinity; [Math.floor] keeps an infinity; the difference
    of two infinities of one sign is [NaN]; and [NaN <= 0] is false, so
    that the guard of line 22 lets such a count through to
    [createBuffer]. *)

Module Extended.

(** [Number.MAX_VALUE], the largest binary64 value. *)
Definition MAX_VALUE : Q := inject_Z (2 ^ 1024 - 2 ^ 971).

(** A number: finite, an infinity with its sign, or [NaN]. *)
Inductive extended : Type :=
  | Finite (q : Q)
  | Infinity (negative : bool)
  | NotANumber.

Section Arithmetic.
Variable fl : Q -> Q.

(** The binary64 value of an operation whose exact result is [x]: [fl]
    rounds as if the exponent had no upper bound. *)
Definition overflow (x : Q) : extended :=
  let r := fl x in
  if Qle_bool (Qabs r) MAX_VALUE then Finite r
  else Infinity (negb (Qle_bool 0 r)).

(** [a * b] for a finite [b], here the sample rate. *)
Definition multiply (a : extended) (b : Q) : extended :=
  match a with
  | Finite x => overflow (x * b)
  | Infinity negative =>
      match Qcompare b 0 with
      | Gt => Infinity negative
      | Lt => Infinity (negb negative)
      | Eq => NotANumber
      end
  | NotANumber => NotANumber
  end.

Definition Math_floor (a : extended) : extended :=
  match a with
  | Finite x => Finite (inject_Z (Qfloor x))
  | _ => a
  end.

(** [a - b]. *)
Definition subtract (a b : extended) : extended :=
  match a, b with
  | Finite x, Finite y => overflow (x - y)
  | Finite _, Infinity negative => Infinity (negb negative)
  | Infinity negative, Finite _ => Infinity negative
  | Infinity negative, Infinity negative' =>
      if Bool.eqb negative negative' then NotANumber else Infinity negative
  | _, _ => NotANumber
  end.

(** [a <= 0]. *)
Definition nonpositive (a : extended) : bool :=
  match a with
  | Finite x => Qle_bool x 0
  | Infinity negative => negative
  | NotANumber => false
  end.

(** [createBuffer] on a length that can be an infinity or [NaN]: the
    platform converts both to the unsigned integer 0, a length that
    [createBuffer] refuses with a [NotSupportedError].  A finite length,
    a whole number in binary64, is taken as it is; the limits of the
    platform on it are not modelled. *)
Definition createBuffer (numChannels : nat) (length : extended) (rate : Q)
    : result AudioBuffer :=
  match length with
  | Finite n => Ok (createBuffer numChannels (Z.to_nat (Qfloor n)) rate)
  | _ => Throw NotSupportedError
  end.

(** Lines 16 to 45.  The loops run once [createBuffer] has returned, on a
    finite count, which a finite start index precedes; the inner loop
    makes one turn for each [j] below [frameCount]. *)
Definition extractClip (buffer : AudioBuffer) (startTime endTime : extended)
    : result Blob :=
  let sampleRate := sampleRate buffer in
  let startSample := Math_floor (multiply startTime sampleRate) in
  let endSample := Math_floor (multiply endTime sampleRate) in
  let frameCount := subtract endSample startSample in
  if nonpositive frameCount then Throw (Error "Invalid time range")
  else
    newBuffer ← createBuffer (numberOfChannels buffer) frameCount sampleRate;
    match startSample, frameCount with
    | Finite startSample, Finite frameCount =>
        bufferToWav
          (foldl (copyChannel buffer (Qfloor startSample)
                    (Z.to_nat (Qceiling frameCount)))
             newBuffer (seq 0 (numberOfChannels buffer)))
    | _, _ => bufferToWav newBuffer
    end.
End Arithmetic.
End Extended.

(** ** [formatTime], lines 106 to 111, and the download name *)

(** The remainder operator [%]: the sign of the dividend, and exact. *)
Definition remainder (a b : Q) : Q :=
  (a - b * inject_Z (Qtrunc (a / b)))%Q.

(** [s.padStart(n, c)] for a one-character filler. *)
Definition padStart (n : nat) (c : ascii) (s : string) : string :=
  String.app (string_of_list_ascii (replicate (n - String.length s) c)) s.

(** [toString] of an integer of magnitude at most 2^53: its decimal
    digits.  Beyond, JavaScript prints the shortest digits that denote
    the same binary64 value, with an exponent from 10^21 on; the
    properties keep to times below 2^53 seconds. *)
Definition toString (n : Z) : string := pretty n.

Section FormatTime.
Variable fl : Q -> Q.

Definition minsOf (seconds : Q) : Z := Qfloor (fl (seconds / 60)).
Definition secsOf (seconds : Q) : Z := Qfloor (remainder seconds 60).
Definition msOf (seconds : Q) : Z := Qfloor (fl (remainder seconds 1 * 100)).

Definition formatTime (seconds : Q) : string :=
  let mins := minsOf seconds in
  let secs := secsOf seconds in
  let ms := msOf seconds in
  toString mins +:+ ":" +:+ padStart 2 "0" (toString secs)
    +:+ "." +:+ padStart 2 "0" (toString ms).

(** What [handleExtract] (App.tsx, lines 187 to 201) does: nothing
    without a buffer or a selection range, a download of the clip under
    its name, or the alert of the [catch] clause.  The times of a
    selection range are finite. *)
Inductive outcome : Type :=
  | Nothing
  | Download (blob : Blob) (name : string)
  | Alert (msg : string).

Definition handleExtract (audioBuffer : option AudioBuffer)
    (selectionRange : option (Q * Q)) : outcome :=
  match audioBuffer, selectionRange with
  | Some audioBuffer, Some (start, end_) =>
      match Extended.extractClip fl audioBuffer
              (Extended.Finite start) (Extended.Finite end_) with
      | Ok blob =>
          Download blob
            ("clip_" +:+ formatTime start +:+ "-" +:+ formatTime end_ +:+ ".wav")
      | Throw _ => Alert "Error extracting clip."
      end
  | _, _ => Nothing
  end.
End FormatTime.

(** ** The waveform: [Waveform], lines 145 to 173, 179 to 197, 221 to 227 *)

(** Lines 167 to 169: a comparison with [undefined] is false. *)
Definition scanDatum (data : Float32Array) (base : nat)
    (mm : number * number) (j : nat) : number * number :=
  let datum := ToNumber (data !! (base + j)%nat) in
  (if lessThan datum mm.1 then datum else mm.1,
   if lessThan mm.2 datum then datum else mm.2).

(** Lines 164 to 170: the extrema drawn in column [i]. *)
Definition column (data : Float32Array) (step i : nat) : number * number :=
  foldl (scanDatum data (i * step)) (Num 1, Num (-1)) (seq 0 step).

(** Line 148, for a width that is not zero.  The quotient of two array
    sizes never rounds across an integer, so the ceiling is the exact
    one. *)
Definition stepOf (len width : nat) : nat :=
  Z.to_nat (Qceiling (inject_Z (Z.of_nat len) / inject_Z (Z.of_nat width))).

(** The pairs the draw loop goes through, column 0 first: the
    specification's [downsample]. *)
Definition downsample (audioBuffer : AudioBuffer) (width : nat)
    : list (number * number) :=
  let data := getChannelData audioBuffer 0 in
  let step := stepOf (length data) width in
  column data step <$> seq 0 width.

Section Coordinates.
Variable fl : Q -> Q.

(** A quotient; [None] stands for the result of a zero divisor, which
    is not a finite number. *)
Definition quotient (a b : Q) : option Q :=
  if Qeq_bool b 0 then None else Some (fl (a / b)).

(** Lines 179, 180 and 197: [(time / duration) * width]. *)
Definition timeToPixel (duration width time : Q) : option Q :=
  r ← quotient time duration; Some (fl (r * width)).

(** Lines 225 and 226: [percent = x / rect.width], then
    [percent * duration]. *)
Definition pixelToTime (duration width x : Q) : option Q :=
  percent ← quotient x width; Some (fl (percent * duration)).
End Coordinates.

(** ** The selection: App.tsx, lines 40 to 54 *)

Record TranscriptSegment : Type := {
  id : Z;
  text : string;
  start : Q;
  end_ : Q
}.

Record TimeRange : Type := {
  range_start : Q;
  range_end : Q
}.

(** [transcript.find(s => s.id === v)]; nothing is equal to [undefined]. *)
Definition findSegment (transcript : list TranscriptSegment) (v : option Z)
    : option TranscriptSegment :=
  List.find (fun s => bool_decide (Some (id s) = v)) transcript.

(** The effect: the new value of [selectionRange], given the selected
    identifiers in insertion order, the transcript and the value so far. *)
Definition updateSelectionRange (selectedSegmentIds : list Z)
    (transcript : list TranscriptSegment) (selectionRange : option TimeRange)
    : option TimeRange :=
  if decide (length selectedSegmentIds = 0%nat) then None
  else
    let ids := merge_sort Z.le selectedSegmentIds in
    let firstSeg := findSegment transcript (ids !! 0%nat) in
    let lastSeg := findSegment transcript (ids !! (length ids - 1)%nat) in
    match firstSeg, lastSeg with
    | Some firstSeg, Some lastSeg =>
        Some {| range_start := start firstSeg; range_end := end_ lastSeg |}
    | _, _ => selectionRange
    end.

(** *** Clicks on segments: App.tsx, lines 155 to 185 *)

(** A [Set] of identifiers, as the list of its elements in insertion
    order. *)
Definition set_add (x : Z) (s : list Z) : list Z :=
  if decide (x ∈ s) then s else s ++ [x].

Definition set_delete (x : Z) (s : list Z) : list Z :=
  filter (fun y => y <> x) s.

Record MouseEvent : Type := {
  shiftKey : bool;
  metaKey : bool;
  ctrlKey : bool
}.

(** The new value of [selectedSegmentIds] after a click on the segment
    [id]. *)
Definition handleSegmentClick (transcript : list TranscriptSegment)
    (selectedSegmentIds : list Z) (id_ : Z) (e : MouseEvent) : list Z :=
  if shiftKey e then
    match last selectedSegmentIds with
    | None => [id_]
    | Some lastId =>
        let start := Z.min lastId id_ in
        let end_ := Z.max lastId id_ in
        foldl (fun range t =>
                 if (start <=? id t) && (id t <=? end_)
                 then set_add (id t) range else range)
          [] transcript
    end
  else if metaKey e || ctrlKey e then
    if decide (id_ ∈ selectedSegmentIds)
    then set_delete id_ selectedSegmentIds
    else set_add id_ selectedSegmentIds
  else [id_].

(** ** Definitions used to state the properties *)

(** *** Sample conversion *)

(** The clamp to [-1, 1]. *)
Definition clamped (s : Q) : Q := Qmax (-1) (Qmin 1 s).

(** Rounding toward zero. *)
Definition toward_zero (x : Q) : Z :=
  if Qlt_le_dec x 0 then Qceiling x else Qfloor x.

(** The 16-bit value of a sample as the code computes it: the scale is
    32768 below -1/2 and 32767 from -1/2 on, and the product is rounded
    toward zero. *)
Definition truncated16 (s : Q) : Z :=
  let c := clamped s in
  toward_zero (if Qlt_le_dec c (- (1 # 2)) then c * 32768 else c * 32767)%Q.

(** The 16-bit value of a sample in the words of the specification: the
    scale is 32768 below 0 and 32767 from 0 on, and the product is rounded
    toward negative infinity. *)
Definition spec_sample16 (s : Q) : Z :=
  let c := clamped s in
  Qfloor (if Qlt_le_dec c 0 then c * 32768 else c * 32767)%Q.

(** The scales of the specification with the rounding of the code: 32768
    below 0 and 32767 from 0 on, the product rounded toward zero as
    [| 0] does. *)
Definition spec_truncated16 (s : Q) : Z :=
  let c := clamped s in
  toward_zero (if Qlt_le_dec c 0 then c * 32768 else c * 32767)%Q.

(** *** The container *)

(** The 44 bytes of the header, field by field. *)
Definition header (abuffer : AudioBuffer) : list Z :=
  let numOfChan := Z.of_nat (numberOfChannels abuffer) in
  let length :=
    Z.of_nat (bufferLength abuffer * numberOfChannels abuffer * 2 + 44) in
  le_bytes 4 0x46464952
  ++ le_bytes 4 (ToUint32 (inject_Z (length - 8)))
  ++ le_bytes 4 0x45564157
  ++ le_bytes 4 0x20746d66
  ++ le_bytes 4 16
  ++ le_bytes 2 1
  ++ le_bytes 2 (ToUint16 (inject_Z numOfChan))
  ++ le_bytes 4 (ToUint32 (sampleRate abuffer))
  ++ le_bytes 4 (ToUint32 (sampleRate abuffer * 2 * inject_Z numOfChan)%Q)
  ++ le_bytes 2 (ToUint16 (inject_Z (numOfChan * 2)))
  ++ le_bytes 2 16
  ++ le_bytes 4 0x61746164
  ++ le_bytes 4 (ToUint32 (inject_Z (length - 44))).

(** The bytes of the sample of channel [i] at frame [p]. *)
Definition sampleBytes (abuffer : AudioBuffer) (p i : nat) : list Z :=
  le_bytes 2
    (ToInt16 (inject_Z (scale16 (clamp (ToNumber (getChannelData abuffer i !! p)))))).

(** The bytes of frame [p], channel 0 first. *)
Definition frameBytes (abuffer : AudioBuffer) (p : nat) : list Z :=
  flat_map (sampleBytes abuffer p) (seq 0 (numberOfChannels abuffer)).

(** *** The waveform *)

(** The samples of column [i]: [step] of them from index [i * step], as
    far as the data goes. *)
Definition group (data : Float32Array) (step i : nat) : Float32Array :=
  take step (drop (i * step) data).

(** The two comparisons of lines 168 and 169 on a sample. *)
Definition scanValue (mm : number * number) (x : number) : number * number :=
  (if lessThan x mm.1 then x else mm.1, if lessThan mm.2 x then x else mm.2).

(** [lo] is the least of 1 and the numbers of [g]. *)
Definition capped_min (g : Float32Array) (lo : number) : Prop :=
  exists q : Q, lo = Num q /\ (q <= 1)%Q /\ (lo = Num 1 \/ lo ∈ g) /\
    forall x : Q, Num x ∈ g -> (q <= x)%Q.

(** [hi] is the greatest of -1 and the numbers of [g]. *)
Definition capped_max (g : Float32Array) (hi : number) : Prop :=
  exists q : Q, hi = Num q /\ (-1 <= q)%Q /\ (hi = Num (-1) \/ hi ∈ g) /\
    forall x : Q, Num x ∈ g -> (x <= q)%Q.

(** [lo] is a least and [hi] a greatest sample of [g]; two fractions of
    the same value are the same sample. *)
Definition group_min (g : Float32Array) (lo : number) : Prop :=
  exists q : Q, lo = Num q /\
    (exists y : Q, Num y ∈ g /\ (y == q)%Q) /\
    forall x : Q, Num x ∈ g -> (q <= x)%Q.

Definition group_max (g : Float32Array) (hi : number) : Prop :=
  exists q : Q, hi = Num q /\
    (exists y : Q, Num y ∈ g /\ (y == q)%Q) /\
    forall x : Q, Num x ∈ g -> (x <= q)%Q.

(** Every sample of [g] is a number of [-1, 1]. *)
Definition in_range (g : Float32Array) : Prop :=
  Forall (fun v => exists x : Q, v = Num x /\ (-1 <= x <= 1)%Q) g.

(** *** Formatted times *)

Definition digit (d : Z) : ascii := ascii_of_nat (48 + Z.to_nat d).

(** The two decimal digits of a number below 100. *)
Definition two_digits (n : Z) : string :=
  String (digit (n / 10)) (String (digit (n mod 10)) EmptyString).

(** A natural number padded with a zero to two digits. *)
Definition padded2 (n : Z) : string :=
  if n <? 10 then String "0" (toString n) else toString n.

(** The fields of a time in the words of the specification: its whole
    minutes, the whole seconds left in the minute, and the hundredths of
    the time rounded down. *)
Definition minutes (t : Q) : Z := Qfloor t / 60.
Definition seconds (t : Q) : Z := Qfloor t mod 60.
Definition hundredths (t : Q) : Z := Qfloor (t * 100) mod 100.

(** A time as [minutes:seconds.hundredths]: the minutes in decimal, the
    seconds and the hundredths [h] on two digits. *)
Definition rendered (t : Q) (h : Z) : string :=
  pretty (minutes t) +:+ ":" +:+ two_digits (seconds t)
    +:+ "." +:+ two_digits h.

(** The hundredths a binary64 product can give for the time [t]: those of
    [t] rounded down, or one more when the fraction of [t] lies within
    one part in 2^53 below that next hundredth; below 100 in both cases,
    and those of [t] when [t] is a whole number of hundredths. *)
Definition hundredths_of (t : Q) (h : Z) : Prop :=
  hundredths t <= h <= 99 /\
  (inject_Z h
   <= (t - inject_Z (Qfloor t)) * 100 * (1 + (1 # 9007199254740992)))%Q /\
  ((exists z : Z, (t * 100 == inject_Z z)%Q) -> h = hundredths t).

(** *** The selection *)

(** The segments of the transcript whose identifier is selected. *)
Definition selectedSegments (selectedSegmentIds : list Z)
    (transcript : list TranscriptSegment) : list TranscriptSegment :=
  filter (fun s => id s ∈ selectedSegmentIds) transcript.

(** The range in the words of the specification: from the least start
    time to the greatest end time of the selected segments. *)
Definition spec_range (selectedSegmentIds : list Z)
    (transcript : list TranscriptSegment) : option TimeRange :=
  match selectedSegments selectedSegmentIds transcript with
  | [] => None
  | s :: l =>
      Some {| range_start := foldl Qmin (start s) (start <$> l);
              range_end := foldl Qmax (end_ s) (end_ <$> l) |}
  end.

(** ** Buffers and values of the examples *)

Definition mono (rate : Q) (samples : Float32Array) : AudioBuffer :=
  {| sampleRate := rate; bufferLength := length samples; channelData := [samples] |}.

(** One channel, 8000 Hz, ten frames of silence. *)
Definition silence10 : AudioBuffer := mono 8000 (replicate 10 zero).

(** One channel, 44100 Hz, 22050 frames of silence. *)
Definition silence22050 : AudioBuffer :=
  mono 44100 (replicate (Z.to_nat 22050) zero).

(** One channel, 45 frames, all at -1/4. *)
Definition quarter45 : AudioBuffer := mono 8000 (replicate 45 (Num (- (1 # 4)))).

(** 45 frames of the sample -(3/4 + 2^-16), a 32-bit float whose product
    with 32768 is -24576.5. *)
Definition steep45 : AudioBuffer :=
  mono 8000 (replicate 45 (Num (- (49153 # 65536)))).

(** One channel, 45 frames: full scale up at frame 0, silence, full scale
    down at frame 44. *)
Definition edges45 : AudioBuffer :=
  mono 8000 (Num 1 :: replicate 43 zero ++ [Num (-1)]).

(** One channel, 8000 Hz, four frames. *)
Definition four : AudioBuffer :=
  mono 8000 [Num (1 # 2); Num (- (1 # 2)); Num (1 # 4); Num (3 # 4)].

(** Two channels, 8000 Hz, 46 frames, silent but for the last two. *)
Definition stereo46 : AudioBuffer :=
  {| sampleRate := 8000; bufferLength := 46;
     channelData := [replicate 44 zero ++ [Num (1 # 2); Num 1];
                     replicate 44 zero ++ [Num (-1); Num 0]] |}.

(** One channel, 8000 Hz, two seconds of silence. *)
Definition two_seconds : AudioBuffer :=
  mono 8000 (replicate (Z.to_nat 16000) zero).

(** One channel, 44100 Hz, fifteen frames, the last one at full scale. *)
Definition tail15 : AudioBuffer := mono 44100 (replicate 14 zero ++ [Num 1]).

(** One channel whose single sample lies above the nominal range. *)
Definition loud1 : AudioBuffer := mono 8000 [Num (3 # 2)].

(** The binary64 value of the literal [5.3]. *)
Definition five_point_three : Q := 5967269506265907 # 1125899906842624.

Definition transcript3 : list TranscriptSegment :=
  [ {| id := 1; text := "one"; start := 0; end_ := 1 # 2 |};
    {| id := 2; text := "two"; start := 1 # 2; end_ := 2 |};
    {| id := 3; text := "three"; start := 2; end_ := 7 # 2 |} ].

(** A transcript whose times do not follow its identifiers. *)
Definition crossed : list TranscriptSegment :=
  [ {| id := 0; text := "late"; start := 5; end_ := 6 |};
    {| id := 1; text := "early"; start := 0; end_ := 1 |} ].

(** * The code around the extractor and the encoder

    The reader used to state what the header holds, then the rest of the
    waveform component, the transcription service of
    [src/services/geminiService.ts] and the component of [src/App.tsx]
    with its handlers. *)

(** ** A reader of the container *)

(** What a reader of 16-bit PCM takes from the canonical header of 44
    bytes: the channels, the rate, the bits per sample and the number of
    frames, the size of the data over the block alignment.  It refuses a
    text without the four tags or of another format than linear PCM. *)
Record WavFormat : Type := {
  wav_channels : Z;
  wav_sampleRate : Z;
  wav_bitsPerSample : Z;
  wav_frames : Z
}.

Definition readHeader (bytes : list Z) : option WavFormat :=
  if bool_decide (take 4 bytes = [82; 73; 70; 70])
     && bool_decide (take 8 (drop 8 bytes) = [87; 65; 86; 69; 102; 109; 116; 32])
     && bool_decide (getUint 2 bytes 20 = 1)
     && bool_decide (take 4 (drop 36 bytes) = [100; 97; 116; 97])
  then
    Some {| wav_channels := getUint 2 bytes 22;
            wav_sampleRate := getUint 4 bytes 24;
            wav_bitsPerSample := getUint 2 bytes 34;
            wav_frames := getUint 4 bytes 40 / getUint 2 bytes 32 |}
  else None.

(** ** The waveform, continued: strokes, overlay, playhead and clicks *)

Section Draw.
Variable fl : Q -> Q.

(** The binary64 value of an exact result. *)
Definition rounded (x : number) : number :=
  match x with
  | Num q => Num (fl q)
  | NaN => NaN
  end.

(** Line 149: [amp = height / 2]. *)
Definition ampOf (height : Q) : Q := fl (height / 2).

(** Lines 171 and 172: [(1 + min) * amp] and [(1 + max) * amp]. *)
Definition yOf (amp : Q) (v : number) : number :=
  rounded (times (rounded (plus (Num 1) v)) (Num amp)).

(** The strokes of the draw loop (lines 163 to 173), column 0 first: column
    [i] is drawn from [(i, (1 + min) * amp)] to [(i, (1 + max) * amp)]. *)
Definition strokes (audioBuffer : AudioBuffer) (width : nat) (height : Q)
    : list (number * number) :=
  let amp := ampOf height in
  (fun mm : number * number => (yOf amp mm.1, yOf amp mm.2))
    <$> downsample audioBuffer width.

(** Lines 178 to 184: the rectangle of the selection, [startX], [endX] and
    [selWidth]; nothing when there is no selection, and nothing for
    coordinates that are not finite, which the canvas ignores. *)
Definition selectionOverlay (duration width : Q)
    (selectionStart selectionEnd : option Q) : option (Q * Q * Q) :=
  selectionStart ← selectionStart;
  selectionEnd ← selectionEnd;
  startX ← timeToPixel fl duration width selectionStart;
  endX ← timeToPixel fl duration width selectionEnd;
  Some (startX, endX, fl (endX - startX)).

(** Line 197. *)
Definition playheadX (duration width currentTime : Q) : option Q :=
  timeToPixel fl duration width currentTime.

(** Lines 221 to 227: the time handed to [onSeek] for a click at
    [clientX] on a canvas whose rectangle starts at [rect_left] and is
    [rect_width] wide. *)
Definition handleClick (duration clientX rect_left rect_width : Q) : option Q :=
  let x := fl (clientX - rect_left) in
  pixelToTime fl duration rect_width x.
End Draw.

(** ** The transcription service: geminiService.ts *)

(** An element of the parsed response, with the three fields the response
    schema requires. *)
Record RawSegment : Type := {
  raw_text : string;
  raw_start : Q;
  raw_end : Q
}.

(** Lines 66 to 71: the callback of [rawSegments.map]. *)
Definition toSegment (index : nat) (seg : RawSegment) : TranscriptSegment :=
  {| id := Z.of_nat index;
     text := raw_text seg;
     start := raw_start seg;
     end_ := raw_end seg |}.

Section Transcribe.
(** [JSON.parse], with the exception it throws on a text that is not
    JSON. *)
Variable JSON_parse : string -> result (list RawSegment).

(** Lines 59 to 72, from the response on: [response_text] is
    [response.text], absent or a string.  The [catch] clause logs and
    throws the exception again. *)
Definition transcribeAudio (response_text : option string)
    : result (list TranscriptSegment) :=
  match response_text with
  | None | Some EmptyString => Throw (Error "No response from Gemini")
  | Some text =>
      rawSegments ← JSON_parse text;
      mret (imap toSegment rawSegments)
  end.
End Transcribe.

(** [s.split(sep)] for a one-character separator. *)
Fixpoint split (sep : ascii) (s : string) : list string :=
  match s with
  | EmptyString => [EmptyString]
  | String c s =>
      if Ascii.eqb c sep then EmptyString :: split sep s
      else
        match split sep s with
        | piece :: pieces => String c piece :: pieces
        | [] => [String c EmptyString]
        end
  end.

(** Lines 83 to 87, the [onload] callback of [fileToBase64]: the value
    the promise resolves with, [undefined] when the text has no comma. *)
Definition fileToBase64 (result : string) : option string :=
  split "," result !! 1%nat.

(** The [duration] attribute of a buffer: the binary64 value of frames
    over rate. *)
Definition AudioBuffer_duration (fl : Q -> Q) (buffer : AudioBuffer) : Q :=
  fl (duration buffer).

(** ** The component: App.tsx *)

(** The state of [App], its handlers and the events that run them.  A
    handler runs to its end before the next event, on the state the last
    render saw.  The audio context of line 33 exists from the first render
    on, so the tests of lines 93 and 121 on it never fail. *)
Module App.

Inductive AppState : Type :=
  | IDLE
  | UPLOADING
  | TRANSCRIBING
  | READY
  | ERROR.

(** A file chosen by the user. *)
Record File : Type := {
  file_name : string;
  file_type : string
}.

(** The values of [useState] (lines 9 to 21) and of [useRef] (lines 25 to
    27).  A source node and an animation frame are known by a number. *)
Record state : Type := {
  appState : AppState;
  audioFile : option File;
  audioBuffer : option AudioBuffer;
  transcript : list TranscriptSegment;
  isPlaying : bool;
  currentTime : Q;
  duration : Q;
  selectedSegmentIds : list Z;
  selectionRange : option TimeRange;
  sourceNodeRef : option nat;
  startTimeRef : Q;
  rafRef : option nat
}.

(** What the platform holds: the source nodes started and not stopped, the
    animation frames requested and neither run nor cancelled, each with
    the [duration] its callback [loop] closed over, and the numbers of
    nodes created, of frames requested and of readings of the clock so
    far. *)
Record platform : Type := {
  started : list nat;
  requested : list (nat * Q);
  nodes : nat;
  handles : nat;
  readings : nat
}.

Definition world : Type := state * platform.

(** *** Updates of one field *)

Definition setAppState (v : AppState) (s : state) : state :=
  {| appState := v; audioFile := audioFile s; audioBuffer := audioBuffer s;
     transcript := transcript s; isPlaying := isPlaying s;
     currentTime := currentTime s; duration := duration s;
     selectedSegmentIds := selectedSegmentIds s;
     selectionRange := selectionRange s; sourceNodeRef := sourceNodeRef s;
     startTimeRef := startTimeRef s; rafRef := rafRef s |}.

Definition setAudioFile (v : option File) (s : state) : state :=
  {| appState := appState s; audioFile := v; audioBuffer := audioBuffer s;
     transcript := transcript s; isPlaying := isPlaying s;
     currentTime := currentTime s; duration := duration s;
     selectedSegmentIds := selectedSegmentIds s;
     selectionRange := selectionRange s; sourceNodeRef := sourceNodeRef s;
     startTimeRef := startTimeRef s; rafRef := rafRef s |}.

Definition setAudioBuffer (v : option AudioBuffer) (s : state) : state :=
  {| appState := appState s; audioFile := audioFile s; audioBuffer := v;
     transcript := transcript s; isPlaying := isPlaying s;
     currentTime := currentTime s; duration := duration s;
     selectedSegmentIds := selectedSegmentIds s;
     selectionRange := selectionRange s; sourceNodeRef := sourceNodeRef s;
     startTimeRef := startTimeRef s; rafRef := rafRef s |}.

Definition setTranscript (v : list TranscriptSegment) (s : state) : state :=
  {| appState := appState s; audioFile := audioFile s;
     audioBuffer := audioBuffer s; transcript := v; isPlaying := isPlaying s;
     currentTime := currentTime s; duration := duration s;
     selectedSegmentIds := selectedSegmentIds s;
     selectionRange := selectionRange s; sourceNodeRef := sourceNodeRef s;
     startTimeRef := startTimeRef s; rafRef := rafRef s |}.

Definition setIsPlaying (v : bool) (s : state) : state :=
  {| appState := appState s; audioFile := audioFile s;
     audioBuffer := audioBuffer s; transcript := transcript s;
     isPlaying := v; currentTime := currentTime s; duration := duration s;
     selectedSegmentIds := selectedSegmentIds s;
     selectionRange := selectionRange s; sourceNodeRef := sourceNodeRef s;
     startTimeRef := startTimeRef s; rafRef := rafRef s |}.

Definition setCurrentTime (v : Q) (s : state) : state :=
  {| appState := appState s; audioFile := audioFile s;
     audioBuffer := audioBuffer s; transcript := transcript s;
     isPlaying := isPlaying s; currentTime := v; duration := duration s;
     selectedSegmentIds := selectedSegmentIds s;
     selectionRange := selectionRange s; sourceNodeRef := sourceNodeRef s;
     startTimeRef := startTimeRef s; rafRef := rafRef s |}.

Definition setDuration (v : Q) (s : state) : state :=
  {| appState := appState s; audioFile := audioFile s;
     audioBuffer := audioBuffer s; transcript := transcript s;
     isPlaying := isPlaying s; currentTime := currentTime s; duration := v;
     selectedSegmentIds := selectedSegmentIds s;
     selectionRange := selectionRange s; sourceNodeRef := sourceNodeRef s;
     startTimeRef := startTimeRef s; rafRef := rafRef s |}.

Definition setSelectedSegmentIds (v : list Z) (s : state) : state :=
  {| appState := appState s; audioFile := audioFile s;
     audioBuffer := audioBuffer s; transcript := transcript s;
     isPlaying := isPlaying s; currentTime := currentTime s;
     duration := duration s; selectedSegmentIds := v;
     selectionRange := selectionRange s; sourceNodeRef := sourceNodeRef s;
     startTimeRef := startTimeRef s; rafRef := rafRef s |}.

Definition setSelectionRange (v : option TimeRange) (s : state) : state :=
  {| appState := appState s; audioFile := audioFile s;
     audioBuffer := audioBuffer s; transcript := transcript s;
     isPlaying := isPlaying s; currentTime := currentTime s;
     duration := duration s; selectedSegmentIds := selectedSegmentIds s;
     selectionRange := v; sourceNodeRef := sourceNodeRef s;
     startTimeRef := startTimeRef s; rafRef := rafRef s |}.

Definition set_sourceNodeRef (v : option nat) (s : state) : state :=
  {| appState := appState s; audioFile := audioFile s;
     audioBuffer := audioBuffer s; transcript := transcript s;
     isPlaying := isPlaying s; currentTime := currentTime s;
     duration := duration s; selectedSegmentIds := selectedSegmentIds s;
     selectionRange := selectionRange s; sourceNodeRef := v;
     startTimeRef := startTimeRef s; rafRef := rafRef s |}.

Definition set_startTimeRef (v : Q) (s : state) : state :=
  {| appState := appState s; audioFile := audioFile s;
     audioBuffer := audioBuffer s; transcript := transcript s;
     isPlaying := isPlaying s; currentTime := currentTime s;
     duration := duration s; selectedSegmentIds := selectedSegmentIds s;
     selectionRange := selectionRange s; sourceNodeRef := sourceNodeRef s;
     startTimeRef := v; rafRef := rafRef s |}.

Definition set_rafRef (v : option nat) (s : state) : state :=
  {| appState := appState s; audioFile := audioFile s;
     audioBuffer := audioBuffer s; transcript := transcript s;
     isPlaying := isPlaying s; currentTime := currentTime s;
     duration := duration s; selectedSegmentIds := selectedSegmentIds s;
     selectionRange := selectionRange s; sourceNodeRef := sourceNodeRef s;
     startTimeRef := startTimeRef s; rafRef := v |}.

Definition set_started (v : list nat) (p : platform) : platform :=
  {| started := v; requested := requested p; nodes := nodes p;
     handles := handles p; readings := readings p |}.

Definition set_requested (v : list (nat * Q)) (p : platform) : platform :=
  {| started := started p; requested := v; nodes := nodes p;
     handles := handles p; readings := readings p |}.

Definition set_nodes (v : nat) (p : platform) : platform :=
  {| started := started p; requested := requested p; nodes := v;
     handles := handles p; readings := readings p |}.

Definition set_handles (v : nat) (p : platform) : platform :=
  {| started := started p; requested := requested p; nodes := nodes p;
     handles := v; readings := readings p |}.

Definition set_readings (v : nat) (p : platform) : platform :=
  {| started := started p; requested := requested p; nodes := nodes p;
     handles := handles p; readings := v |}.

(** *** The calls to the platform *)

(** [source.stop()] on a node that was started. *)
Definition source_stop (node : nat) (p : platform) : platform :=
  set_started (filter (fun n : nat => n <> node) (started p)) p.

(** [audioContext.createBufferSource()]: a node not seen before. *)
Definition createBufferSource (p : platform) : nat * platform :=
  (nodes p, set_nodes (S (nodes p)) p).

(** [source.start(0, offset)], for an offset that is not negative. *)
Definition source_start (node : nat) (p : platform) : platform :=
  set_started (node :: started p) p.

(** [requestAnimationFrame(loop)]: a handle not seen before, and not 0. *)
Definition requestAnimationFrame (callback : Q) (p : platform) : nat * platform :=
  let handle := S (handles p) in
  (handle, set_handles handle (set_requested ((handle, callback) :: requested p) p)).

(** [cancelAnimationFrame(handle)]; nothing for [null]. *)
Definition cancelAnimationFrame (handle : option nat) (p : platform) : platform :=
  match handle with
  | Some handle =>
      set_requested (filter (fun f : nat * Q => f.1 <> handle) (requested p)) p
  | None => p
  end.

Section Handlers.
Variable fl : Q -> Q.

(** The readings of [audioContext.currentTime], in the order they are
    made. *)
Variable clock : nat -> Q.

Definition read_currentTime (p : platform) : Q * platform :=
  (clock (readings p), set_readings (S (readings p)) p).

(** *** Playback: lines 84 to 153 and 203 to 215 *)

(** Lines 120 to 133: one run of [loop], for the [duration] it closed
    over. *)
Definition loop (duration : Q) (w : world) : world :=
  let '(s, p) := w in
  let '(c, p) := read_currentTime p in
  let now := fl (c - startTimeRef s) in
  if Qle_bool duration now then
    (setCurrentTime duration (setIsPlaying false s),
     cancelAnimationFrame (rafRef s) p)
  else
    let s := setCurrentTime now s in
    let '(handle, p) := requestAnimationFrame duration p in
    (set_rafRef (Some handle) s, p).

(** Lines 92 to 135.  [connect] and [resume] change nothing of what is
    modelled.  [source.start] throws a [RangeError] on a negative offset;
    the exception ends [playAudio] and its caller, none of which has
    anything left to do after the call, and is lost. *)
Definition playAudio (startOffset : Q) (w : world) : world :=
  let '(s, p) := w in
  match audioBuffer s with
  | None => w
  | Some _ =>
      let p :=
        match sourceNodeRef s with
        | Some node => source_stop node p
        | None => p
        end in
      let '(source, p) := createBufferSource p in
      if Qle_bool 0 startOffset then
        let p := source_start source p in
        let '(c, p) := read_currentTime p in
        let s := set_startTimeRef (fl (c - startOffset)) s in
        let s := set_sourceNodeRef (Some source) s in
        let s := setIsPlaying true s in
        loop (duration s) (s, p)
      else (s, p)
  end.

(** Lines 137 to 146. *)
Definition stopAudio (w : world) : world :=
  let '(s, p) := w in
  let '(s, p) :=
    match sourceNodeRef s with
    | Some node => (set_sourceNodeRef None s, source_stop node p)
    | None => (s, p)
    end in
  let p :=
    match rafRef s with
    | Some handle => cancelAnimationFrame (Some handle) p
    | None => p
    end in
  (setIsPlaying false s, p).

(** Lines 84 to 90. *)
Definition togglePlayback (w : world) : world :=
  if isPlaying w.1 then stopAudio w else playAudio (currentTime w.1) w.

(** Lines 148 to 153. *)
Definition handleSeek (time : Q) (w : world) : world :=
  let wasPlaying := isPlaying w.1 in
  let '(s, p) := stopAudio w in
  let w := (setCurrentTime time s, p) in
  if wasPlaying then playAudio time w else w.

(** Lines 203 to 215; the callback of the timer does nothing. *)
Definition handlePlaySelection (w : world) : world :=
  match selectionRange w.1 with
  | None => w
  | Some selectionRange => playAudio (range_start selectionRange) (stopAudio w)
  end.

(** *** Selection: lines 40 to 54 and 155 to 185 *)

(** The effect of lines 40 to 54, run after a render in which
    [selectedSegmentIds] or [transcript] is a new value. *)
Definition selectionEffect (s : state) : state :=
  setSelectionRange
    (updateSelectionRange (selectedSegmentIds s) (transcript s) (selectionRange s)) s.

(** Lines 155 to 185: the new set, and the seek of a plain click. *)
Definition handleSegmentClick (id_ : Z) (e : MouseEvent) (w : world) : world :=
  let '(s, p) := w in
  let ids := handleSegmentClick (transcript s) (selectedSegmentIds s) id_ e in
  let w' := (setSelectedSegmentIds ids s, p) in
  if shiftKey e then w'
  else if metaKey e || ctrlKey e then w'
  else
    match findSegment (transcript s) (Some id_) with
    | Some segment => handleSeek (start segment) w'
    | None => w'
    end.

(** Lines 187 to 201: what the click on Extract Clip produces. *)
Definition handleExtract (s : state) : outcome :=
  handleExtract fl (audioBuffer s)
    ((fun r : TimeRange => (range_start r, range_end r)) <$> selectionRange s).

(** *** Upload: lines 58 to 82 *)

(** Lines 59 to 63, up to the first [await]. *)
Definition handleFileUpload (file : option File) (s : state) : state :=
  match file with
  | None => s
  | Some file => setAppState UPLOADING (setAudioFile (Some file) s)
  end.

(** Lines 67 to 72 and 77 to 81: [decodeAudio] has settled. *)
Definition decoded (r : result AudioBuffer) (s : state) : state :=
  match r with
  | Ok buffer =>
      setAppState TRANSCRIBING
        (setDuration (AudioBuffer_duration fl buffer)
           (setAudioBuffer (Some buffer) s))
  | Throw _ => setAppState ERROR s
  end.

(** Lines 73 to 81: [transcribeAudio] has settled. *)
Definition transcribed (r : result (list TranscriptSegment)) (s : state) : state :=
  match r with
  | Ok segments => setAppState READY (setTranscript segments s)
  | Throw _ => setAppState ERROR s
  end.

(** *** Events *)

(** What can happen to the component: the user acts on a control that is
    on the screen, a promise of the upload settles, or a requested frame
    runs. *)
Inductive event : Type :=
  | FileChosen (file : option File)
  | Decoded (r : result AudioBuffer)
  | Transcribed (r : result (list TranscriptSegment))
  | TryAgain
  | TogglePlayback
  | Seek (time : Q)
  | SegmentClick (id_ : Z) (e : MouseEvent)
  | PlaySelection
  | Extract
  | Frame (handle : nat).

(** The controls the render of lines 334 to 356 shows: the file input
    when idle, Try Again after an error, the editor when ready, with one
    span per segment of the transcript and the two buttons of the
    selection when there is a range. *)
Definition enabled (w : world) (ev : event) : Prop :=
  match ev with
  | FileChosen _ => appState w.1 = IDLE
  | Decoded _ => appState w.1 = UPLOADING
  | Transcribed _ => appState w.1 = TRANSCRIBING
  | TryAgain => appState w.1 = ERROR
  | TogglePlayback | Seek _ => appState w.1 = READY
  | SegmentClick id_ _ =>
      appState w.1 = READY /\
      exists seg : TranscriptSegment, seg ∈ transcript w.1 /\ id seg = id_
  | PlaySelection | Extract =>
      appState w.1 = READY /\ selectionRange w.1 <> None
  | Frame handle => exists duration : Q, (handle, duration) ∈ requested w.2
  end.

(** The handler of an event, followed by the effect of the selection
    when the handler sets one of its dependencies. *)
Definition handle (ev : event) (w : world) : world :=
  match ev with
  | FileChosen file => (handleFileUpload file w.1, w.2)
  | Decoded r => (decoded r w.1, w.2)
  | Transcribed r =>
      match r with
      | Ok _ => (selectionEffect (transcribed r w.1), w.2)
      | Throw _ => (transcribed r w.1, w.2)
      end
  | TryAgain => (setAppState IDLE w.1, w.2)
  | TogglePlayback => togglePlayback w
  | Seek time => handleSeek time w
  | SegmentClick id_ e =>
      let '(s, p) := handleSegmentClick id_ e w in (selectionEffect s, p)
  | PlaySelection => handlePlaySelection w
  | Extract => w
  | Frame handle =>
      match List.find (fun f : nat * Q => f.1 =? handle)%nat (requested w.2) with
      | Some (_, duration) =>
          loop duration
            (w.1, set_requested
                    (filter (fun f : nat * Q => f.1 <> handle) (requested w.2)) w.2)
      | None => w
      end
  end.

(** The state of the first render, after the effects of the mount. *)
Definition initial : world :=
  ({| appState := IDLE; audioFile := None; audioBuffer := None;
      transcript := []; isPlaying := false; currentTime := 0; duration := 0;
      selectedSegmentIds := []; selectionRange := None;
      sourceNodeRef := None; startTimeRef := 0; rafRef := None |},
   {| started := []; requested := []; nodes := 0; handles := 0; readings := 0 |}).

(** The states the component can be in. *)
Inductive reachable : world -> Prop :=
  | reachable_initial : reachable initial
  | reachable_handle (w : world) (ev : event) :
      reachable w -> enabled w ev -> reachable (handle ev w).

(** The handlers of playback leave the document alone: the fields that
    only the upload and the selection set. *)
Definition same_document (s s' : state) : Prop :=
  appState s' = appState s /\ audioBuffer s' = audioBuffer s /\
  transcript s' = transcript s /\ duration s' = duration s /\
  selectedSegmentIds s' = selectedSegmentIds s /\
  selectionRange s' = selectionRange s.

(** The only source that plays is the one the component refers to, and
    the only frame requested is the one it refers to, requested while
    playing by a [loop] of the current [duration]. *)
Definition playback_consistent (w : world) : Prop :=
  NoDup (started w.2) /\
  (forall node : nat, node ∈ started w.2 -> sourceNodeRef w.1 = Some node) /\
  NoDup (requested w.2) /\
  (forall (handle : nat) (d : Q), (handle, d) ∈ requested w.2 ->
     rafRef w.1 = Some handle /\ isPlaying w.1 = true /\ d = duration w.1).

(** What holds of the component between two events.  Nothing is selected
    or played before the editor is shown; the editor has its buffer; the
    selection is a set of identifiers of the transcript and the range is
    the one computed from it; playback is consistent. *)
Definition consistent (w : world) : Prop :=
  (appState w.1 <> READY ->
   selectedSegmentIds w.1 = [] /\ isPlaying w.1 = false /\
   started w.2 = [] /\ requested w.2 = []) /\
  (appState w.1 = TRANSCRIBING \/ appState w.1 = READY ->
   exists buffer : AudioBuffer,
     audioBuffer w.1 = Some buffer /\
     duration w.1 = AudioBuffer_duration fl buffer) /\
  NoDup (selectedSegmentIds w.1) /\
  (forall i : Z, i ∈ selectedSegmentIds w.1 ->
     exists seg : TranscriptSegment, seg ∈ transcript w.1 /\ id seg = i) /\
  selectionRange w.1
  = updateSelectionRange (selectedSegmentIds w.1) (transcript w.1) None /\
  playback_consistent w.
End Handlers.

(** A session: a file is chosen, decoded and transcribed, the second
    segment is clicked and playback is started.  The clock advances by one
    second at each reading. *)
Definition second (k : nat) : Q := inject_Z (Z.of_nat k).

Definition plain : MouseEvent :=
  {| shiftKey := false; metaKey := false; ctrlKey := false |}.

Definition session : list event :=
  [ FileChosen (Some {| file_name := "talk.wav"; file_type := "audio/wav" |});
    Decoded (Ok two_seconds);
    Transcribed (Ok transcript3);
    SegmentClick 2 plain;
    TogglePlayback ].

Definition run (fl : Q -> Q) (clock : nat -> Q) (events : list event) : world :=
  foldl (fun w ev => handle fl clock ev w) initial events.

(** The state the session ends in, playing, and the state after the
    frame it has requested, paused at the end of the recording. *)
Definition playing : world := run binary64 second session.

Definition paused : world := handle binary64 second (Frame 1) playing.
End App.

(** * Properties *)

(** ** Rounding

    [exact] and [binary64] are roundings. *)

#[global] Instance exact_rounding : Rounding exact.
Proof. split; unfold exact; [done | reflexivity]. Qed.


Lemma rne_bounds (x : Q) : Qfloor x <= rne x <= Qfloor x + 1.
Proof.
  unfold rne. destruct (Qcompare _ _); [destruct (Z.even _)|..]; lia.
Qed.

Lemma rne_Z (x : Q) (n : Z) : (x == inject_Z n)%Q -> rne x = n.
Proof.
  intros Hx. unfold rne.
  assert (Hf : Qfloor x = n) by (rewrite (Qfloor_comp _ _ Hx); apply Qfloor_Z).
  rewrite Hf.
  destruct (Qcompare_spec (x - inject_Z n) (1 # 2)) as [H|H|H]; [| done |].
  - rewrite Hx in H. exfalso. revert H. unfold Qeq. cbn. lia.
  - rewrite Hx in H. exfalso. revert H. unfold Qlt. cbn. lia.
Qed.

Lemma rne_mono (x y : Q) : (x <= y)%Q -> rne x <= rne y.
Proof.
  intros Hxy. pose proof (Qfloor_resp_le x y Hxy) as Hf.
  pose proof (rne_bounds x) as Hx. pose proof (rne_bounds y) as Hy.
  destruct (Z.eq_dec (Qfloor x) (Qfloor y)) as [E|E]; [|lia].
  clear Hx Hy Hf. unfold rne. rewrite <- E.
  destruct (Qcompare_spec (x - inject_Z (Qfloor x)) (1 # 2)) as [H1|H1|H1];
    destruct (Qcompare_spec (y - inject_Z (Qfloor x)) (1 # 2)) as [H2|H2|H2];
    try (destruct (Z.even (Qfloor x))); try lia; exfalso; lra.
Qed.

Lemma rne_le_Z (x : Q) (n : Z) : (x <= inject_Z n)%Q -> rne x <= n.
Proof.
  intros H. rewrite <- (rne_Z (inject_Z n) n) by reflexivity. by apply rne_mono.
Qed.

Lemma rne_ge_Z (x : Q) (n : Z) : (inject_Z n <= x)%Q -> n <= rne x.
Proof.
  intros H. rewrite <- (rne_Z (inject_Z n) n) at 1 by reflexivity. by apply rne_mono.
Qed.

Lemma pow2_pos (e : Z) : (0 < 2 ^ e)%Q.
Proof. by apply Qpower_0_lt. Qed.

Lemma pow2_succ (e : Z) : (2 ^ (e + 1) == 2 * 2 ^ e)%Q.
Proof. rewrite Qpower_plus by discriminate. change (2 ^ 1)%Q with 2%Q. ring. Qed.

Lemma pow2_le (n m : Z) : n <= m -> (2 ^ n <= 2 ^ m)%Q.
Proof. intros H. by apply Qpower_le_compat_l. Qed.

Lemma pow2_log2 (n : Z) :
  0 < n ->
  (2 ^ Z.log2 n <= inject_Z n)%Q /\ (inject_Z n < 2 * 2 ^ Z.log2 n)%Q.
Proof.
  intros Hn. destruct (Z.log2_spec n Hn) as [H1 H2].
  pose proof (Z.log2_nonneg n) as H0.
  rewrite <- pow2_succ.
  change 2%Q with (inject_Z 2).
  rewrite <- !Zpower_Qpower by lia.
  split; [by rewrite <- Zle_Qle | rewrite <- Zlt_Qlt; by rewrite <- Z.add_1_r in H2].
Qed.

(** [ilog2] is the binary exponent. *)
Lemma ilog2_spec (a : Q) :
  (0 < a)%Q -> (2 ^ ilog2 a <= a)%Q /\ (a < 2 * 2 ^ ilog2 a)%Q.
Proof.
  intros Ha. destruct a as [n d].
  assert (Hn : 0 < n) by (revert Ha; unfold Qlt; cbn; lia).
  unfold ilog2. cbn [Qnum Qden].
  set (ln := Z.log2 n). set (ld := Z.log2 (Z.pos d)).
  destruct (pow2_log2 n Hn) as [N1 N2]. fold ln in N1, N2.
  destruct (pow2_log2 (Z.pos d)) as [D1 D2]; [done|]. fold ld in D1, D2.
  set (a := (n # d)%Q) in *.
  assert (Had : (a * inject_Z (Z.pos d) == inject_Z n)%Q).
  { unfold a. rewrite (Qmake_Qdiv n d). field. discriminate. }
  pose proof (pow2_pos ln) as Pp. pose proof (pow2_pos ld) as Rp.
  assert (E0 : (2 ^ (ln - ld) * 2 ^ ld == 2 ^ ln)%Q).
  { rewrite <- Qpower_plus by discriminate. by replace (ln - ld + ld) with ln by lia. }
  assert (E1 : (2 * 2 ^ (ln - ld - 1) == 2 ^ (ln - ld))%Q).
  { rewrite <- pow2_succ. by replace (ln - ld - 1 + 1) with (ln - ld) by lia. }
  pose proof (pow2_pos (ln - ld)) as Ep. pose proof (pow2_pos (ln - ld - 1)) as Ep1.
  set (P := (2 ^ ln)%Q) in *. set (R := (2 ^ ld)%Q) in *.
  set (D := inject_Z (Z.pos d)) in *. set (N := inject_Z n) in *.
  set (X := (2 ^ (ln - ld))%Q) in *. set (Y := (2 ^ (ln - ld - 1))%Q) in *.
  assert (Hup : (a < 2 * X)%Q).
  { apply Qnot_le_lt. intros Hc.
    assert (2 * X * R <= a * R)%Q by (apply Qmult_le_compat_r; lra).
    assert (a * R <= a * D)%Q by (apply Qmult_le_l; lra).
    lra. }
  assert (Hlo : (Y < a)%Q).
  { apply Qnot_le_lt. intros Hc.
    assert (a * D <= Y * D)%Q by (apply Qmult_le_compat_r; lra).
    assert (Y * D < Y * (2 * R))%Q by (apply Qmult_lt_l; lra).
    assert (Y * (2 * R) == X * R)%Q by (rewrite <- E1; ring).
    lra. }
  destruct (Qle_bool X a) eqn:Hb.
  - apply Qle_bool_iff in Hb. done.
  - assert (Hlt : (a < X)%Q).
    { apply Qnot_le_lt. intros Hc. apply Qle_bool_iff in Hc. congruence. }
    change (2 ^ (ln - ld - 1))%Q with Y.
    split; [by apply Qlt_le_weak | lra].
Qed.

Lemma ilog2_mono (a b : Q) : (0 < a)%Q -> (a <= b)%Q -> ilog2 a <= ilog2 b.
Proof.
  intros Ha Hab. destruct (ilog2_spec a Ha) as [A1 _].
  destruct (ilog2_spec b) as [_ B2]; [lra|].
  rewrite <- pow2_succ in B2.
  assert (H : (2 ^ ilog2 a < 2 ^ (ilog2 b + 1))%Q) by lra.
  apply Qpower_lt_compat_l_inv in H; [lia | reflexivity].
Qed.

Lemma binary64_pos_eq (a : Q) :
  (binary64_pos a ==
   inject_Z (rne (a / 2 ^ (Z.max (ilog2 a) (-1022) - 52)))
   * 2 ^ (Z.max (ilog2 a) (-1022) - 52))%Q.
Proof. unfold binary64_pos. apply Qred_correct. Qed.

Lemma binary64_pos_nonneg (a : Q) : (0 < a)%Q -> (0 <= binary64_pos a)%Q.
Proof.
  intros Ha. rewrite binary64_pos_eq.
  set (u := (2 ^ (Z.max (ilog2 a) (-1022) - 52))%Q).
  assert (Hu : (0 < u)%Q) by apply pow2_pos.
  apply Qmult_le_0_compat; [|lra].
  change 0%Q with (inject_Z 0). rewrite <- Zle_Qle. apply rne_ge_Z.
  apply Qle_shift_div_l; [done|]. unfold inject_Z. lra.
Qed.

(** A value of exponent [e] rounds into [2^e, 2^(e+1)]. *)
Lemma binary64_pos_upper (a : Q) :
  (0 < a)%Q ->
  (binary64_pos a <= 2 * 2 ^ Z.max (ilog2 a) (-1022))%Q.
Proof.
  intros Ha. rewrite binary64_pos_eq.
  set (e := Z.max (ilog2 a) (-1022)). set (u := (2 ^ (e - 52))%Q).
  assert (Hu : (0 < u)%Q) by apply pow2_pos.
  assert (Eu : (inject_Z (2 ^ 53) * u == 2 * 2 ^ e)%Q).
  { unfold u. rewrite Zpower_Qpower by lia. change (inject_Z 2) with 2%Q.
    rewrite <- Qpower_plus by discriminate. rewrite <- pow2_succ.
    by replace (53 + (e - 52)) with (e + 1) by lia. }
  destruct (ilog2_spec a Ha) as [_ H2].
  assert (Hle : (2 ^ ilog2 a <= 2 ^ e)%Q) by (apply pow2_le; lia).
  rewrite <- Eu. apply Qmult_le_compat_r; [|lra].
  rewrite <- Zle_Qle. apply rne_le_Z.
  apply Qle_shift_div_r; [done|]. lra.
Qed.

Lemma binary64_pos_lower (a : Q) :
  (0 < a)%Q -> -1022 <= ilog2 a -> (2 ^ ilog2 a <= binary64_pos a)%Q.
Proof.
  intros Ha He. rewrite binary64_pos_eq.
  rewrite Z.max_l by lia.
  set (e := ilog2 a). set (u := (2 ^ (e - 52))%Q).
  assert (Hu : (0 < u)%Q) by apply pow2_pos.
  assert (Eu : (inject_Z (2 ^ 52) * u == 2 ^ e)%Q).
  { unfold u. rewrite Zpower_Qpower by lia. change (inject_Z 2) with 2%Q.
    rewrite <- Qpower_plus by discriminate.
    by replace (52 + (e - 52)) with e by lia. }
  destruct (ilog2_spec a Ha) as [H1 _]. fold e in H1.
  rewrite <- Eu. apply Qmult_le_compat_r; [|lra].
  rewrite <- Zle_Qle. apply rne_ge_Z.
  apply Qle_shift_div_l; [done|]. lra.
Qed.

Lemma binary64_pos_mono (a b : Q) :
  (0 < a)%Q -> (a <= b)%Q -> (binary64_pos a <= binary64_pos b)%Q.
Proof.
  intros Ha Hab. assert (Hb : (0 < b)%Q) by lra.
  pose proof (ilog2_mono a b Ha Hab) as Hi.
  destruct (Z.eq_dec (Z.max (ilog2 a) (-1022)) (Z.max (ilog2 b) (-1022))) as [E|E].
  - rewrite !binary64_pos_eq, <- E.
    set (u := (2 ^ (Z.max (ilog2 a) (-1022) - 52))%Q).
    assert (Hu : (0 < u)%Q) by apply pow2_pos.
    apply Qmult_le_compat_r; [|lra].
    rewrite <- Zle_Qle. apply rne_mono.
    apply Qmult_le_compat_r; [done|]. apply Qlt_le_weak, Qinv_lt_0_compat, Hu.
  - apply Qle_trans with (2 ^ ilog2 b)%Q.
    + apply Qle_trans with (2 * 2 ^ Z.max (ilog2 a) (-1022))%Q;
        [by apply binary64_pos_upper|].
      rewrite <- pow2_succ. apply pow2_le. lia.
    + apply binary64_pos_lower; [done | lia].
Qed.

Lemma binary64_pos_int (n : Z) :
  0 < n <= 2 ^ 53 -> (binary64_pos (inject_Z n) == inject_Z n)%Q.
Proof.
  intros [Hn Hmax].
  assert (Ha : (0 < inject_Z n)%Q) by (change 0%Q with (inject_Z 0); by rewrite <- Zlt_Qlt).
  destruct (ilog2_spec (inject_Z n) Ha) as [H1 H2].
  assert (H0 : 0 <= ilog2 (inject_Z n)).
  { change 0 with (ilog2 1). apply ilog2_mono; [reflexivity|].
    change 1%Q with (inject_Z 1). rewrite <- Zle_Qle. lia. }
  assert (H53 : ilog2 (inject_Z n) <= 53).
  { assert (Hq : (inject_Z n <= 2 ^ 53)%Q).
    { change 2%Q with (inject_Z 2). rewrite <- Zpower_Qpower by lia.
      by rewrite <- Zle_Qle. }
    assert (Hp : (2 ^ ilog2 (inject_Z n) <= 2 ^ 53)%Q) by lra.
    apply Qpower_le_compat_l_inv in Hp; [done | reflexivity]. }
  destruct (Z.eq_dec (ilog2 (inject_Z n)) 53) as [E|E].
  - assert (n = 2 ^ 53); [|subst n; vm_compute; reflexivity].
    rewrite E in H1. change 2%Q with (inject_Z 2) in H1.
    rewrite <- Zpower_Qpower in H1 by lia. rewrite <- Zle_Qle in H1. lia.
  - rewrite binary64_pos_eq. rewrite Z.max_l by lia.
    set (e := ilog2 (inject_Z n)) in *.
    assert (Ediv : (inject_Z n / 2 ^ (e - 52) == inject_Z (n * 2 ^ (52 - e)))%Q).
    { rewrite inject_Z_mult, Zpower_Qpower by lia. change (inject_Z 2) with 2%Q.
      replace (e - 52) with (- (52 - e)) by lia. rewrite Qpower_opp.
      field. apply Qpower_not_0. discriminate. }
    rewrite (rne_Z _ _ Ediv).
    rewrite inject_Z_mult, Zpower_Qpower by lia. change (inject_Z 2) with 2%Q.
    rewrite <- Qmult_assoc, <- Qpower_plus by discriminate.
    replace (52 - e + (e - 52)) with 0 by lia. change (2 ^ 0)%Q with 1%Q. ring.
Qed.

Lemma binary64_nonneg (x : Q) : (0 <= x)%Q -> (0 <= binary64 x)%Q.
Proof.
  intros Hx. unfold binary64.
  destruct (Qcompare_spec x 0) as [H|H|H]; [done | lra | by apply binary64_pos_nonneg].
Qed.

Lemma binary64_nonpos (x : Q) : (x <= 0)%Q -> (binary64 x <= 0)%Q.
Proof.
  intros Hx. unfold binary64.
  destruct (Qcompare_spec x 0) as [H|H|H]; [done | | lra].
  rewrite Qred_correct.
  assert (0 <= binary64_pos (- x))%Q by (apply binary64_pos_nonneg; lra). lra.
Qed.

Lemma binary64_mono (x y : Q) : (x <= y)%Q -> (binary64 x <= binary64 y)%Q.
Proof.
  intros Hxy.
  destruct (Qlt_le_dec 0 x) as [Hx|Hx].
  - unfold binary64.
    destruct (Qcompare_spec x 0) as [H|H|H]; [lra | lra |].
    destruct (Qcompare_spec y 0) as [H'|H'|H']; [lra | lra |].
    by apply binary64_pos_mono.
  - destruct (Qlt_le_dec y 0) as [Hy|Hy].
    + unfold binary64.
      destruct (Qcompare_spec x 0) as [H|H|H]; [lra | | lra].
      destruct (Qcompare_spec y 0) as [H'|H'|H']; [lra | | lra].
      rewrite !Qred_correct.
      assert (binary64_pos (- y) <= binary64_pos (- x))%Q
        by (apply binary64_pos_mono; lra).
      lra.
    + apply Qle_trans with 0%Q; [by apply binary64_nonpos | by apply binary64_nonneg].
Qed.

Lemma binary64_int (n : Z) :
  Z.abs n <= 2 ^ 53 -> (binary64 (inject_Z n) == inject_Z n)%Q.
Proof.
  intros Hn. unfold binary64.
  destruct (Qcompare_spec (inject_Z n) 0) as [H|H|H].
  - by rewrite H.
  - rewrite Qred_correct. change (- inject_Z n)%Q with (inject_Z (- n)).
    change 0%Q with (inject_Z 0) in H. rewrite <- Zlt_Qlt in H.
    rewrite binary64_pos_int by lia. rewrite inject_Z_opp. ring.
  - change 0%Q with (inject_Z 0) in H. rewrite <- Zlt_Qlt in H.
    apply binary64_pos_int. lia.
Qed.

#[global] Instance binary64_rounding : Rounding binary64.
Proof. split; [apply binary64_mono | apply binary64_int]. Qed.

(** From the least normal number on, the relative error of [binary64] is
    at most 2^-53. *)
Lemma rne_error (y : Q) : (Qabs (inject_Z (rne y) - y) <= 1 # 2)%Q.
Proof.
  pose proof (Qfloor_le y) as H1. pose proof (Qlt_floor y) as H2.
  rewrite inject_Z_plus in H2. change (inject_Z 1) with 1%Q in H2.
  unfold rne. apply Qabs_Qle_condition.
  destruct (Qcompare_spec (y - inject_Z (Qfloor y)) (1 # 2)) as [H|H|H];
    [destruct (Z.even (Qfloor y))|..];
    rewrite ?inject_Z_plus; change (inject_Z 1) with 1%Q;
    set (f := inject_Z (Qfloor y)) in *; split; lra.
Qed.

Lemma binary64_pos_error (a : Q) :
  (2 ^ (-1022) <= a)%Q ->
  (Qabs (binary64_pos a - a) <= 2 ^ (-53) * a)%Q.
Proof.
  intros Hmin.
  assert (Ha : (0 < a)%Q) by (pose proof (pow2_pos (-1022)); lra).
  destruct (ilog2_spec a Ha) as [H1 H2].
  assert (He : -1022 <= ilog2 a).
  { rewrite <- pow2_succ in H2.
    assert (H : (2 ^ (-1022) < 2 ^ (ilog2 a + 1))%Q) by lra.
    apply Qpower_lt_compat_l_inv in H; [lia | reflexivity]. }
  rewrite binary64_pos_eq, Z.max_l by lia.
  set (e := ilog2 a) in *. set (u := (2 ^ (e - 52))%Q).
  assert (Hu : (0 < u)%Q) by apply pow2_pos.
  assert (Eu : (2 ^ (-53) * 2 ^ e == (1 # 2) * u)%Q).
  { unfold u. rewrite <- Qpower_plus by discriminate.
    replace (-53 + e) with (-1 + (e - 52)) by lia.
    rewrite Qpower_plus by discriminate. reflexivity. }
  pose proof (rne_error (a / u)) as Hr.
  apply Qabs_Qle_condition in Hr. destruct Hr as [Hr1 Hr2].
  assert (Ea : (a / u * u == a)%Q).
  { field. intros E. rewrite E in Hu. by apply Qlt_irrefl in Hu. }
  set (k := inject_Z (rne (a / u))) in *.
  assert (Hk1 : (- (1 # 2) * u <= (k - a / u) * u)%Q)
    by (apply Qmult_le_compat_r; lra).
  assert (Hk2 : ((k - a / u) * u <= (1 # 2) * u)%Q)
    by (apply Qmult_le_compat_r; lra).
  assert (Ek : ((k - a / u) * u == k * u - a)%Q).
  { rewrite <- Ea at 2. ring. }
  assert (Hle : (2 ^ (-53) * 2 ^ e <= 2 ^ (-53) * a)%Q).
  { apply Qmult_le_l; [apply pow2_pos | done]. }
  apply Qabs_Qle_condition. split; lra.
Qed.

Lemma binary64_error (x : Q) :
  (2 ^ (-1022) <= Qabs x)%Q ->
  (Qabs (binary64 x - x) <= 2 ^ (-53) * Qabs x)%Q.
Proof.
  intros Hx. pose proof (pow2_pos (-1022)) as Hp. unfold binary64.
  destruct (Qcompare_spec x 0) as [H|H|H].
  - rewrite H in Hx. exfalso. revert Hx. change (Qabs 0) with 0%Q. lra.
  - rewrite Qred_correct.
    assert (E : (Qabs x == - x)%Q) by (apply Qabs_neg; lra).
    rewrite E in Hx. rewrite E.
    pose proof (binary64_pos_error (- x) Hx) as Hb.
    apply Qabs_Qle_condition in Hb. apply Qabs_Qle_condition. lra.
  - assert (E : (Qabs x == x)%Q) by (apply Qabs_pos; lra).
    rewrite E in Hx. rewrite E. by apply binary64_pos_error.
Qed.

(** *** The error of binary64, subnormal values included *)

Lemma binary64_pos_small_error (a : Q) :
  (0 < a)%Q -> (a < 2 ^ (-1022))%Q ->
  (Qabs (binary64_pos a - a) <= 2 ^ (-1075))%Q.
Proof.
  intros Ha Hsmall.
  destruct (ilog2_spec a Ha) as [H1 _].
  assert (He : ilog2 a < -1022).
  { assert (H : (2 ^ ilog2 a < 2 ^ (-1022))%Q) by lra.
    apply Qpower_lt_compat_l_inv in H; [lia | reflexivity]. }
  rewrite binary64_pos_eq, Z.max_r by lia.
  change (-1022 - 52) with (-1074).
  set (u := (2 ^ (-1074))%Q).
  assert (Hu : (0 < u)%Q) by apply pow2_pos.
  assert (Eu : (2 ^ (-1075) == (1 # 2) * u)%Q).
  { unfold u. change (-1074) with (-1075 + 1). rewrite pow2_succ. field. }
  pose proof (rne_error (a / u)) as Hr.
  apply Qabs_Qle_condition in Hr. destruct Hr as [Hr1 Hr2].
  assert (Ea : (a / u * u == a)%Q).
  { field. intros E. rewrite E in Hu. by apply Qlt_irrefl in Hu. }
  set (k := inject_Z (rne (a / u))) in *.
  assert (Hk1 : (- (1 # 2) * u <= (k - a / u) * u)%Q)
    by (apply Qmult_le_compat_r; lra).
  assert (Hk2 : ((k - a / u) * u <= (1 # 2) * u)%Q)
    by (apply Qmult_le_compat_r; lra).
  assert (Ek : ((k - a / u) * u == k * u - a)%Q).
  { rewrite <- Ea at 2. ring. }
  rewrite Eu. apply Qabs_Qle_condition. split; lra.
Qed.

(** The standard model with underflow: a relative error of 2^-53 or an
    absolute error of 2^-1075. *)
Lemma binary64_error_all (x : Q) :
  (Qabs (binary64 x - x) <= 2 ^ (-53) * Qabs x + 2 ^ (-1075))%Q.
Proof.
  pose proof (pow2_pos (-1075)) as Heta. pose proof (pow2_pos (-53)) as Heps.
  pose proof (Qabs_nonneg x) as Hax.
  destruct (Qlt_le_dec (Qabs x) (2 ^ (-1022))) as [Hs|Hn].
  - assert (Hm : (0 <= 2 ^ (-53) * Qabs x)%Q) by (apply Qmult_le_0_compat; lra).
    apply Qle_trans with (2 ^ (-1075))%Q; [|lra].
    unfold binary64. destruct (Qcompare_spec x 0) as [H|H|H].
    + rewrite H. change (Qabs (0 - 0)) with 0%Q. lra.
    + rewrite Qred_correct.
      assert (E : (Qabs x == - x)%Q) by (apply Qabs_neg; lra).
      rewrite E in Hs.
      pose proof (binary64_pos_small_error (- x) ltac:(lra) Hs) as Hb.
      apply Qabs_Qle_condition in Hb. apply Qabs_Qle_condition. lra.
    + assert (E : (Qabs x == x)%Q) by (apply Qabs_pos; lra).
      rewrite E in Hs. by apply binary64_pos_small_error.
  - pose proof (binary64_error x Hn). lra.
Qed.

(** Every binary64 value is a whole number of units of 2^-1074. *)
Lemma binary64_pos_grid (a : Q) :
  exists k : Z, (binary64_pos a == inject_Z k * 2 ^ (-1074))%Q.
Proof.
  pose proof (binary64_pos_eq a) as E.
  set (e := Z.max (ilog2 a) (-1022)) in *.
  assert (He : -1022 <= e) by (unfold e; lia).
  exists (rne (a / 2 ^ (e - 52)) * 2 ^ (e + 1022)).
  rewrite E, inject_Z_mult, Zpower_Qpower by lia. change (inject_Z 2) with 2%Q.
  rewrite <- Qmult_assoc, <- Qpower_plus by discriminate.
  by replace (e + 1022 + -1074) with (e - 52) by lia.
Qed.

Lemma binary64_grid (x : Q) :
  exists k : Z, (binary64 x == inject_Z k * 2 ^ (-1074))%Q.
Proof.
  unfold binary64. destruct (Qcompare x 0).
  - exists 0. ring.
  - destruct (binary64_pos_grid (- x)) as [k Hk].
    exists (- k). rewrite Qred_correct, Hk, inject_Z_opp. ring.
  - apply binary64_pos_grid.
Qed.

(** Two binary64 values less than 2^-1074 apart are equal. *)
Lemma binary64_close (x y : Q) :
  (Qabs (binary64 x - binary64 y) < 2 ^ (-1074))%Q ->
  (binary64 x == binary64 y)%Q.
Proof.
  intros H. destruct (binary64_grid x) as [k Hk]. destruct (binary64_grid y) as [j Hj].
  rewrite Hk, Hj in *. set (g := (2 ^ (-1074))%Q) in *.
  assert (Hg : (0 < g)%Q) by apply pow2_pos.
  assert (E : (inject_Z k * g - inject_Z j * g == inject_Z (k - j) * g)%Q).
  { unfold Z.sub. rewrite inject_Z_plus, inject_Z_opp. ring. }
  rewrite E in H.
  assert (Hkj : k = j).
  { destruct (Z.eq_dec k j) as [|Hne]; [done|]. exfalso.
    assert (Habs : (1 <= Qabs (inject_Z (k - j)))%Q).
    { unfold inject_Z, Qabs, Qle. cbn [Qnum Qden]. lia. }
    rewrite Qabs_Qmult, (Qabs_pos g) in H by lra.
    assert (g <= Qabs (inject_Z (k - j)) * g)%Q.
    { rewrite <- (Qmult_1_l g) at 1. apply Qmult_le_compat_r; lra. }
    lra. }
  by rewrite Hkj.
Qed.


(** ** The extractor *)

Section ExtractFacts.
Context (fl : Q -> Q).

Lemma copyFrame_length (cd : Float32Array) (s : Z) (new : Float32Array) (j : nat) :
  length (copyFrame cd s new j) = length new.
Proof.
  unfold copyFrame, setIndex. case_match; [apply length_insert | done].
Qed.

Lemma copySegment_length (cd : Float32Array) (s : Z) (n : nat) (new : Float32Array) :
  length (copySegment cd s n new) = length new.
Proof.
  unfold copySegment. generalize (seq 0 n) as l. intros l.
  revert new. induction l as [|j l IH]; intros new; simpl; [done|].
  rewrite IH. apply copyFrame_length.
Qed.

(** What the inner loop leaves at index [j]: the source frame
    [s + j] where the guard of line 38 lets it through, the old content
    elsewhere. *)
Lemma copySegment_lookup (cd : Float32Array) (s : Z) (n : nat)
    (new : Float32Array) (j : nat) :
  (j < length new)%nat ->
  copySegment cd s n new !! j =
    if decide ((j < n)%nat /\ s + Z.of_nat j < Z.of_nat (length cd))
    then Some (ToNumber (getIndex cd (s + Z.of_nat j)))
    else new !! j.
Proof.
  intros Hj. unfold copySegment. induction n as [|n IH].
  - cbn [seq foldl]. case_decide; [lia | done].
  - rewrite seq_S, foldl_app. cbn [foldl Nat.add].
    unfold copyFrame at 1.
    destruct (Z.ltb_spec (s + Z.of_nat n) (Z.of_nat (length cd))) as [Hlt|Hge].
    + unfold setIndex. destruct (decide (j = n)) as [->|Hne].
      * rewrite list_lookup_insert_eq.
        -- rewrite decide_True by lia. done.
        -- fold (copySegment cd s n new). rewrite copySegment_length. lia.
      * rewrite list_lookup_insert_ne by done. rewrite IH.
        repeat case_decide; try done; lia.
    + rewrite IH. repeat case_decide; try done; lia.
Qed.

Lemma copyChannel_fold (buffer : AudioBuffer) (s : Z) (n k : nat)
    (nb : AudioBuffer) :
  let r := foldl (copyChannel buffer s n) nb (seq 0 k) in
  sampleRate r = sampleRate nb /\
  bufferLength r = bufferLength nb /\
  length (channelData r) = length (channelData nb) /\
  forall i : nat,
    channelData r !! i =
      if decide (i < k)%nat
      then copySegment (getChannelData buffer i) s n <$> channelData nb !! i
      else channelData nb !! i.
Proof.
  induction k as [|k IH]; cbn zeta.
  - cbn [seq foldl]. repeat split; try done.
  - rewrite seq_S, foldl_app. cbn [foldl Nat.add].
    destruct IH as (Hr & Hl & Hlen & Hlook).
    unfold copyChannel at 1 3 5 7. simpl.
    repeat split; try done.
    + rewrite length_insert. done.
    + intros i. destruct (decide (i = k)) as [->|Hne].
      * rewrite decide_True by lia.
        destruct (channelData nb !! k) as [c|] eqn:Hc.
        -- rewrite list_lookup_insert_eq.
           ++ unfold getChannelData at 2. rewrite Hlook.
              rewrite decide_False by lia. rewrite Hc. done.
           ++ rewrite Hlen. by eapply lookup_lt_Some.
        -- simpl. apply lookup_ge_None. rewrite length_insert, Hlen.
           by apply lookup_ge_None.
      * rewrite list_lookup_insert_ne by done. rewrite Hlook.
        repeat case_decide; try done; lia.
Qed.

(** The result of a successful extraction, channel by channel. *)
Lemma extractBuffer_Ok (buffer : AudioBuffer) (startTime endTime : Q) :
  0 < frameCountOf fl buffer startTime endTime ->
  exists newBuffer : AudioBuffer,
    extractBuffer fl buffer startTime endTime = Ok newBuffer /\
    sampleRate newBuffer = sampleRate buffer /\
    bufferLength newBuffer = Z.to_nat (frameCountOf fl buffer startTime endTime) /\
    length (channelData newBuffer) = length (channelData buffer) /\
    forall i : nat, (i < numberOfChannels buffer)%nat ->
      channelData newBuffer !! i =
        Some (copySegment (getChannelData buffer i)
                (startSampleOf fl buffer startTime)
                (Z.to_nat (frameCountOf fl buffer startTime endTime))
                (replicate (Z.to_nat (frameCountOf fl buffer startTime endTime)) zero)).
Proof.
  intros Hpos. unfold extractBuffer.
  destruct (Z.leb_spec (frameCountOf fl buffer startTime endTime) 0) as [?|_]; [lia|].
  eexists. split; [reflexivity|].
  match goal with |- context [foldl ?f ?nb (seq 0 ?k)] =>
    destruct (copyChannel_fold buffer (startSampleOf fl buffer startTime)
                (Z.to_nat (frameCountOf fl buffer startTime endTime)) k nb)
      as (Hr & Hl & Hlen & Hlook)
  end.
  repeat split; try done.
  - rewrite Hlen. simpl. by rewrite length_replicate.
  - intros i Hi. rewrite Hlook. rewrite decide_True by done.
    simpl. rewrite lookup_replicate_2 by done. done.
Qed.
End ExtractFacts.

Section ExtractTheorems.
Context (fl : Q -> Q).

Lemma getIndex_inside (cd : Float32Array) (k : Z) :
  0 <= k < Z.of_nat (length cd) ->
  Some (ToNumber (getIndex cd k)) = cd !! Z.to_nat k.
Proof.
  intros [H0 Hk]. unfold getIndex.
  destruct (Z.ltb_spec k 0) as [?|_]; [lia|].
  destruct (cd !! Z.to_nat k) as [x|] eqn:Hx; [done|].
  apply lookup_ge_None in Hx. lia.
Qed.

End ExtractTheorems.







(** ** The encoder *)

Lemma bind_Ok {A B : Type} (a : A) (k : A -> result B) : Ok a ≫= k = k a.
Proof. reflexivity. Qed.

Lemma length_le_bytes (n : nat) (v : Z) : length (le_bytes n v) = n.
Proof. unfold le_bytes. by rewrite length_fmap, length_seq. Qed.

Lemma setBytes_Ok (view : list Z) (p : nat) (bs : list Z) :
  (p + length bs <= length view)%nat ->
  setBytes view p bs = Ok (list_inserts p bs view).
Proof. intros H. unfold setBytes. by rewrite decide_True. Qed.

(** A write over as many zeros right after what has been written. *)
Lemma setBytes_zeros (written bs rest : list Z) (p : nat) :
  p = length written ->
  setBytes (written ++ replicate (length bs) 0 ++ rest) p bs
  = Ok ((written ++ bs) ++ rest).
Proof.
  intros ->. rewrite setBytes_Ok.
  - f_equal. rewrite <- (Nat.add_0_r (length written)).
    rewrite list_inserts_app_r, list_inserts_0_r.
    + by rewrite app_assoc.
    + by rewrite length_replicate.
  - rewrite !length_app, length_replicate. lia.
Qed.

Lemma setUint32_zeros (data : Q) (written rest : list Z) (p off : nat) :
  p = length written ->
  setUint32 data {| view := written ++ 0 :: 0 :: 0 :: 0 :: rest; pos := p; offset := off |}
  = Ok {| view := (written ++ le_bytes 4 (ToUint32 data)) ++ rest;
          pos := p + 4; offset := off |}.
Proof.
  intros Hp. unfold setUint32, DataView_setUint32. cbn [view pos offset].
  change (0 :: 0 :: 0 :: 0 :: rest)
    with (replicate (length (le_bytes 4 (ToUint32 data))) 0 ++ rest).
  by rewrite setBytes_zeros.
Qed.

Lemma setUint16_zeros (data : Q) (written rest : list Z) (p off : nat) :
  p = length written ->
  setUint16 data {| view := written ++ 0 :: 0 :: rest; pos := p; offset := off |}
  = Ok {| view := (written ++ le_bytes 2 (ToUint16 data)) ++ rest;
          pos := p + 2; offset := off |}.
Proof.
  intros Hp. unfold setUint16, DataView_setUint16. cbn [view pos offset].
  change (0 :: 0 :: rest)
    with (replicate (length (le_bytes 2 (ToUint16 data))) 0 ++ rest).
  by rewrite setBytes_zeros.
Qed.

Lemma length_header (abuffer : AudioBuffer) : length (header abuffer) = 44%nat.
Proof. reflexivity. Qed.

(** The header stage on a fresh buffer: the 44 bytes of [header], the
    cursor at 44. *)
Lemma writeHeader_spec (abuffer : AudioBuffer) (rest : list Z) :
  let numOfChan := numberOfChannels abuffer in
  let length := (bufferLength abuffer * numOfChan * 2 + 44)%nat in
  writeHeader abuffer numOfChan length
    {| view := replicate 44 0 ++ rest; pos := 0%nat; offset := 0%nat |}
  = Ok {| view := header abuffer ++ rest; pos := 44%nat; offset := 0%nat |}.
Proof.
  intros numOfChan length. unfold writeHeader.
  cbn [replicate app].
  lazymatch goal with
  | |- context [ {| view := ?v; pos := 0%nat; offset := _ |} ] =>
      change v with ([] ++ v)
  end.
  repeat (first [ rewrite setUint32_zeros by reflexivity
                | rewrite setUint16_zeros by reflexivity ];
          try rewrite bind_Ok).
  cbn [pos]. do 2 f_equal.
  replace (Z.of_nat length - Z.of_nat (0 + 4 + 4 + 4 + 4 + 4 + 2 + 2 + 4 + 4 + 2 + 2 + 4) - 4)
    with (Z.of_nat length - 44) by lia.
  rewrite <- !app_assoc. reflexivity.
Qed.

Section Interleave.
Context (abuffer : AudioBuffer).

Let channels : list Float32Array :=
  getChannelData abuffer <$> seq 0 (numberOfChannels abuffer).

Lemma channels_lookup (i p : nat) :
  (i < numberOfChannels abuffer)%nat ->
  channels !! i ≫= (fun c => c !! p) = getChannelData abuffer i !! p.
Proof.
  intros Hi. unfold channels.
  rewrite list_lookup_fmap, lookup_seq_lt by done. reflexivity.
Qed.

(** One sample: two bytes over the zeros at [44 + offset]. *)
Lemma writeSample_zeros (hd done rest : list Z) (p i : nat) :
  length hd = 44%nat ->
  (i < numberOfChannels abuffer)%nat ->
  writeSample channels
    {| view := hd ++ done ++ 0 :: 0 :: rest; pos := p; offset := length done |} i
  = Ok {| view := hd ++ (done ++ sampleBytes abuffer p i) ++ rest;
          pos := p; offset := length done + 2 |}.
Proof.
  intros Hhd Hi. unfold writeSample, DataView_setInt16. cbn [view pos offset].
  rewrite channels_lookup by done. fold (sampleBytes abuffer p i).
  rewrite (app_assoc hd done).
  change (0 :: 0 :: rest)
    with (replicate (length (sampleBytes abuffer p i)) 0 ++ rest).
  rewrite setBytes_zeros by (rewrite length_app; lia).
  rewrite bind_Ok. unfold mret, result_ret.
  by rewrite <- !app_assoc.
Qed.

(** The channels [a, a + k) of frame [p]. *)
Lemma writeSamples_zeros (k a : nat) (hd done rest : list Z) (p : nat) :
  length hd = 44%nat ->
  (a + k <= numberOfChannels abuffer)%nat ->
  foldlM (writeSample channels)
    {| view := hd ++ done ++ replicate (2 * k) 0 ++ rest;
       pos := p; offset := length done |} (seq a k)
  = Ok {| view := hd ++ (done ++ flat_map (sampleBytes abuffer p) (seq a k)) ++ rest;
          pos := p; offset := length done + 2 * k |}.
Proof.
  intros Hhd. revert a done. induction k as [|k IH]; intros a done Ha.
  - cbn [seq foldlM flat_map replicate Nat.mul Nat.add app].
    by rewrite app_nil_r, Nat.add_0_r.
  - replace (2 * S k)%nat with (S (S (2 * k))) by lia.
    cbn [seq foldlM flat_map replicate app].
    rewrite writeSample_zeros by (done || lia). rewrite bind_Ok.
    replace (length done + 2)%nat
      with (length (done ++ sampleBytes abuffer p a)).
    2:{ rewrite length_app. unfold sampleBytes. by rewrite length_le_bytes. }
    rewrite IH by lia.
    rewrite <- !app_assoc. do 2 f_equal.
    rewrite length_app. unfold sampleBytes. rewrite length_le_bytes. lia.
Qed.

Lemma length_frameBytes (p : nat) :
  length (frameBytes abuffer p) = (2 * numberOfChannels abuffer)%nat.
Proof.
  unfold frameBytes.
  rewrite (flat_map_constant_length (c := 2%nat)).
  - rewrite length_seq. lia.
  - intros i _. unfold sampleBytes. apply length_le_bytes.
Qed.

(** One turn of the loop: the frame at [pos], then [pos + 1]. *)
Lemma writeFrame_zeros (hd done rest : list Z) (p : nat) :
  length hd = 44%nat ->
  writeFrame (numberOfChannels abuffer) channels
    {| view := hd ++ done ++ replicate (2 * numberOfChannels abuffer) 0 ++ rest;
       pos := p; offset := length done |}
  = Ok {| view := hd ++ (done ++ frameBytes abuffer p) ++ rest;
          pos := p + 1; offset := length (done ++ frameBytes abuffer p) |}.
Proof.
  intros Hhd. unfold writeFrame.
  rewrite writeSamples_zeros by (done || lia). rewrite bind_Ok.
  cbn [view pos offset]. unfold mret, result_ret.
  rewrite length_app, length_frameBytes. reflexivity.
Qed.

(** [m] turns from frame [p]. *)
Lemma writeFrames_zeros (m : nat) (hd done rest : list Z) (p : nat) (l : list nat) :
  length hd = 44%nat ->
  length l = m ->
  foldlM (fun w _ => writeFrame (numberOfChannels abuffer) channels w)
    {| view := hd ++ done ++ replicate (m * (2 * numberOfChannels abuffer)) 0 ++ rest;
       pos := p; offset := length done |} l
  = Ok {| view := hd ++ (done ++ flat_map (frameBytes abuffer) (seq p m)) ++ rest;
          pos := p + m;
          offset := length (done ++ flat_map (frameBytes abuffer) (seq p m)) |}.
Proof.
  intros Hhd. revert p done l. induction m as [|m IH]; intros p done l Hl.
  - destruct l; [|done].
    cbn [seq foldlM flat_map replicate Nat.mul app].
    by rewrite !app_nil_r, Nat.add_0_r.
  - destruct l as [|x l]; [done|]. injection Hl as Hl.
    cbn [Nat.mul seq foldlM flat_map]. rewrite replicate_add, <- app_assoc.
    rewrite writeFrame_zeros by done. rewrite bind_Ok.
    rewrite IH by done.
    rewrite <- !app_assoc.
    replace (p + 1)%nat with (S p) by lia.
    replace (S p + m)%nat with (p + S m)%nat by lia. reflexivity.
Qed.

(** What the encoder returns: the header, the frames from frame 44 on,
    and zeros for the rest of the data chunk. *)
Lemma bufferToWav_spec :
  bufferToWav abuffer =
    Ok {| blobParts :=
            header abuffer
            ++ flat_map (frameBytes abuffer) (seq 44 (bufferLength abuffer - 44))
            ++ replicate
                 (Nat.min 44 (bufferLength abuffer) * (2 * numberOfChannels abuffer)) 0;
          type := "audio/wav" |}.
Proof.
  unfold bufferToWav. cbn zeta.
  assert (Hz : forall n : nat,
             replicate (n + 44) 0 = replicate 44 0 ++ replicate n 0).
  { intros n. by rewrite Nat.add_comm, replicate_add. }
  rewrite Hz. clear Hz.
  pose proof (writeHeader_spec abuffer
                (replicate (bufferLength abuffer * numberOfChannels abuffer * 2) 0))
    as Hh.
  cbn zeta in Hh. rewrite Hh. rewrite bind_Ok. fold channels.
  unfold interleave. cbn [pos].
  replace (bufferLength abuffer * numberOfChannels abuffer * 2)%nat
    with ((bufferLength abuffer - 44) * (2 * numberOfChannels abuffer)
          + Nat.min 44 (bufferLength abuffer) * (2 * numberOfChannels abuffer))%nat
    by lia.
  rewrite replicate_add.
  pose proof (writeFrames_zeros (bufferLength abuffer - 44) (header abuffer) []
                (replicate
                   (Nat.min 44 (bufferLength abuffer) * (2 * numberOfChannels abuffer)) 0)
                44 (seq 44 (bufferLength abuffer - 44))
                (length_header abuffer) (length_seq _ _)) as Hf.
  cbn [app length] in Hf. rewrite Hf. rewrite bind_Ok. reflexivity.
Qed.
End Interleave.

(** The encoder has no failure path, and the size of its result. *)
Lemma bufferToWav_length (abuffer : AudioBuffer) :
  exists blob : Blob,
    bufferToWav abuffer = Ok blob /\
    length (blobParts blob)
    = (44 + bufferLength abuffer * numberOfChannels abuffer * 2)%nat /\
    take 44 (blobParts blob) = header abuffer.
Proof.
  eexists. split; [apply bufferToWav_spec|]. cbn [blobParts]. split.
  - rewrite !length_app, length_header, length_replicate.
    rewrite (flat_map_constant_length (c := (2 * numberOfChannels abuffer)%nat)).
    + rewrite length_seq. lia.
    + intros p _. apply length_frameBytes.
  - apply take_app_length'. exact (length_header abuffer).
Qed.




Lemma frameCountOf_nonpos (fl : Q -> Q) `{!Rounding fl} (buffer : AudioBuffer)
    (startTime endTime : Q) :
  (0 <= sampleRate buffer)%Q -> (endTime <= startTime)%Q ->
  frameCountOf fl buffer startTime endTime <= 0.
Proof.
  intros Hr Hle. unfold frameCountOf.
  assert (endSampleOf fl buffer endTime <= startSampleOf fl buffer startTime); [|lia].
  apply Qfloor_resp_le, fl_mono. by apply Qmult_le_compat_r.
Qed.

(** *** With the infinities *)

Section ExtendedFacts.
Context (fl : Q -> Q) `{!Rounding fl}.

Lemma fl_of_zero : (fl 0 == 0)%Q.
Proof. apply (fl_int 0). vm_compute. discriminate. Qed.

Lemma fl_nonpos (x : Q) : (x <= 0)%Q -> (fl x <= 0)%Q.
Proof. intros H. rewrite <- fl_of_zero. by apply fl_mono. Qed.

Lemma fl_pos_int (n : Z) : 0 < n -> (1 <= fl (inject_Z n))%Q.
Proof.
  intros H.
  assert (E : (fl (inject_Z 1) == inject_Z 1)%Q)
    by (apply (fl_int 1); vm_compute; discriminate).
  change 1%Q with (inject_Z 1). rewrite <- E.
  apply fl_mono. rewrite <- Zle_Qle. lia.
Qed.

Lemma MAX_VALUE_pos : (0 < Extended.MAX_VALUE)%Q.
Proof. reflexivity. Qed.

(** The sign of a difference of integers survives the rounding and the
    overflow. *)
Lemma nonpositive_difference (a b : Z) :
  Extended.nonpositive (Extended.overflow fl (inject_Z a - inject_Z b))
  = true <-> a - b <= 0.
Proof.
  assert (E : (inject_Z a - inject_Z b == inject_Z (a - b))%Q).
  { unfold Z.sub. rewrite inject_Z_plus, inject_Z_opp. reflexivity. }
  assert (Efl : (fl (inject_Z a - inject_Z b) == fl (inject_Z (a - b)))%Q).
  { apply Qle_antisym; apply fl_mono; rewrite E; apply Qle_refl. }
  pose proof MAX_VALUE_pos as HM.
  unfold Extended.overflow. cbn zeta.
  set (d := fl (inject_Z a - inject_Z b)) in *.
  destruct (Z.le_gt_cases (a - b) 0) as [Hle|Hgt].
  - assert (Hd : (d <= 0)%Q).
    { rewrite Efl. apply fl_nonpos. change 0%Q with (inject_Z 0).
      by rewrite <- Zle_Qle. }
    split; [done|]. intros _.
    destruct (Qle_bool (Qabs d) Extended.MAX_VALUE) eqn:Hin; cbn.
    + by apply Qle_bool_iff.
    + apply negb_true_iff. apply not_true_is_false. intros H0.
      apply Qle_bool_iff in H0.
      assert (E0 : (d == 0)%Q) by (by apply Qle_antisym).
      apply not_true_iff_false in Hin. apply Hin, Qle_bool_iff.
      rewrite E0. cbn. by apply Qlt_le_weak.
  - assert (Hd : (1 <= d)%Q) by (rewrite Efl; by apply fl_pos_int).
    split; [|lia]. intros H. exfalso.
    destruct (Qle_bool (Qabs d) Extended.MAX_VALUE); cbn in H.
    + apply Qle_bool_iff in H. lra.
    + apply negb_true_iff, not_true_iff_false in H. apply H, Qle_bool_iff. lra.
Qed.
End ExtendedFacts.

(** The three ends of [extractClip]: the range error when the count is at
    most 0, the refusal of [createBuffer] when it is an infinity or
    [NaN], a blob otherwise. *)
Lemma Extended_extractClip_cases (fl : Q -> Q) (buffer : AudioBuffer)
    (startTime endTime : Extended.extended) :
  let frameCount :=
    Extended.subtract fl
      (Extended.Math_floor (Extended.multiply fl endTime (sampleRate buffer)))
      (Extended.Math_floor (Extended.multiply fl startTime (sampleRate buffer))) in
  (Extended.nonpositive frameCount = true /\
   Extended.extractClip fl buffer startTime endTime = Throw InvalidRangeError) \/
  (Extended.nonpositive frameCount = false /\
   (forall n : Q, frameCount <> Extended.Finite n) /\
   Extended.extractClip fl buffer startTime endTime = Throw NotSupportedError) \/
  (Extended.nonpositive frameCount = false /\
   (exists n : Q, frameCount = Extended.Finite n) /\
   exists blob : Blob, Extended.extractClip fl buffer startTime endTime = Ok blob).
Proof.
  intros frameCount. unfold Extended.extractClip. cbn zeta.
  fold frameCount.
  destruct (Extended.nonpositive frameCount) eqn:Hnp; [left; done | right].
  destruct frameCount as [n|negative|] eqn:Hc.
  - right. split; [done|]. split; [by exists n|].
    unfold Extended.createBuffer. rewrite bind_Ok.
    destruct (Extended.Math_floor
                (Extended.multiply fl startTime (sampleRate buffer)));
      match goal with
      | |- exists blob, bufferToWav ?b = Ok blob =>
          destruct (bufferToWav_length b) as (blob & Hb & _); by exists blob
      end.
  - left. split; [done|]. split; [discriminate | reflexivity].
  - left. split; [done|]. split; [discriminate | reflexivity].
Qed.

(** A count that is finite comes from two finite indices: the loops of
    lines 32 to 42 never run on an infinite start index. *)
Lemma finite_count_finite_start (fl : Q -> Q) (endSample startSample : Extended.extended)
    (n : Q) :
  Extended.subtract fl endSample startSample = Extended.Finite n ->
  exists s : Q, startSample = Extended.Finite s.
Proof.
  destruct endSample as [x|negative|], startSample as [y|negative'|];
    cbn [Extended.subtract]; try discriminate.
  - intros _. by exists y.
  - destruct (Bool.eqb negative negative'); discriminate.
Qed.

(** Infinite times end the same way: with a positive rate both indices
    are infinite, the count is [NaN], and [createBuffer] refuses it. *)
Lemma extract_infinite_times (fl : Q -> Q) (buffer : AudioBuffer) :
  (0 < sampleRate buffer)%Q ->
  Extended.extractClip fl buffer
    (Extended.Infinity false) (Extended.Infinity false)
  = Throw NotSupportedError.
Proof.
  intros Hr. unfold Extended.extractClip. cbn zeta. cbn [Extended.multiply].
  apply Qgt_alt in Hr. rewrite Hr. reflexivity.
Qed.

(** Within the range of binary64 and of the exact integers, the two
    extractors agree. *)
Lemma Extended_extractClip_finite (fl : Q -> Q) `{!Rounding fl}
    (buffer : AudioBuffer) (startTime endTime : Q) :
  (Qabs (fl (startTime * sampleRate buffer)) <= Extended.MAX_VALUE)%Q ->
  (Qabs (fl (endTime * sampleRate buffer)) <= Extended.MAX_VALUE)%Q ->
  Z.abs (frameCountOf fl buffer startTime endTime) <= 2 ^ 53 ->
  Extended.extractClip fl buffer
    (Extended.Finite startTime) (Extended.Finite endTime)
  = extractClip fl buffer startTime endTime.
Proof.
  intros Hs He Hn. unfold Extended.extractClip, extractClip, extractBuffer.
  cbn zeta. unfold Extended.multiply, Extended.overflow. cbn zeta.
  apply Qle_bool_iff in Hs, He. rewrite Hs, He. cbn [Extended.Math_floor].
  fold (startSampleOf fl buffer startTime) (endSampleOf fl buffer endTime).
  set (a := endSampleOf fl buffer endTime) in *.
  set (b := startSampleOf fl buffer startTime) in *.
  change (frameCountOf fl buffer startTime endTime) with (a - b) in *.
  assert (E : (inject_Z a - inject_Z b == inject_Z (a - b))%Q).
  { unfold Z.sub. rewrite inject_Z_plus, inject_Z_opp. reflexivity. }
  assert (Efl : (fl (inject_Z a - inject_Z b) == inject_Z (a - b))%Q).
  { rewrite <- (fl_int (a - b)) by done.
    apply Qle_antisym; apply fl_mono; rewrite E; apply Qle_refl. }
  pose proof (nonpositive_difference fl a b) as Hnp.
  unfold Extended.subtract.
  destruct (Z.leb_spec (a - b) 0) as [Hle|Hgt].
  - apply Hnp in Hle. by rewrite Hle.
  - destruct (Extended.nonpositive
                (Extended.overflow fl (inject_Z a - inject_Z b))) eqn:Hf.
    { destruct Hnp as [Hnp _]. specialize (Hnp eq_refl). lia. }
    unfold Extended.overflow. cbn zeta.
    assert (Hin : Qle_bool (Qabs (fl (inject_Z a - inject_Z b)%Q))
                    Extended.MAX_VALUE = true).
    { apply Qle_bool_iff. rewrite Efl. rewrite Qabs_pos.
      - unfold Extended.MAX_VALUE. rewrite <- Zle_Qle.
        apply Z.le_trans with (2 ^ 53); [lia | vm_compute; discriminate].
      - change 0%Q with (inject_Z 0). rewrite <- Zle_Qle. lia. }
    rewrite Hin. unfold Extended.createBuffer. rewrite !bind_Ok.
    rewrite Qfloor_Z.
    rewrite (Qfloor_comp _ _ Efl), (Qceiling_comp _ _ Efl), Qfloor_Z, Qceiling_Z.
    reflexivity.
Qed.

(** C3, amended.  [extractClip] throws the range error exactly when the
    frame count is at most 0 as line 22 compares it, and then
    [handleExtract] only raises its alert: no blob, no download.  With
    products that stay within binary64 the count is at most 0 exactly when
    [floor(endTime * sampleRate) - floor(startTime * sampleRate)] is.
    With [endTime <= startTime], a rate that is not negative and one of
    the two products within binary64, the range error is thrown. *)
Theorem extract_invalid_range (fl : Q -> Q) `{!Rounding fl}
    (buffer : AudioBuffer) (startTime endTime : Q) :
  let frameCount :=
    Extended.subtract fl
      (Extended.Math_floor
         (Extended.multiply fl (Extended.Finite endTime) (sampleRate buffer)))
      (Extended.Math_floor
         (Extended.multiply fl (Extended.Finite startTime) (sampleRate buffer))) in
  (Extended.extractClip fl buffer
     (Extended.Finite startTime) (Extended.Finite endTime)
   = Throw InvalidRangeError
   <-> Extended.nonpositive frameCount = true) /\
  ((Qabs (fl (startTime * sampleRate buffer)) <= Extended.MAX_VALUE)%Q ->
   (Qabs (fl (endTime * sampleRate buffer)) <= Extended.MAX_VALUE)%Q ->
   (Extended.nonpositive frameCount = true
    <-> Qfloor (fl (endTime * sampleRate buffer)%Q)
        - Qfloor (fl (startTime * sampleRate buffer)%Q) <= 0)) /\
  (forall e : exn,
     Extended.extractClip fl buffer
       (Extended.Finite startTime) (Extended.Finite endTime) = Throw e ->
     handleExtract fl (Some buffer) (Some (startTime, endTime))
     = Alert "Error extracting clip.") /\
  ((0 <= sampleRate buffer)%Q -> (endTime <= startTime)%Q ->
   (Qabs (fl (startTime * sampleRate buffer)) <= Extended.MAX_VALUE)%Q \/
   (Qabs (fl (endTime * sampleRate buffer)) <= Extended.MAX_VALUE)%Q ->
   Extended.extractClip fl buffer
     (Extended.Finite startTime) (Extended.Finite endTime)
   = Throw InvalidRangeError).
Proof.
  intros frameCount.
  pose proof (Extended_extractClip_cases fl buffer
                (Extended.Finite startTime) (Extended.Finite endTime)) as Hc.
  cbn zeta in Hc. fold frameCount in Hc.
  assert (H1 : Extended.extractClip fl buffer
                 (Extended.Finite startTime) (Extended.Finite endTime)
               = Throw InvalidRangeError
               <-> Extended.nonpositive frameCount = true).
  { split.
    - intros Ht. destruct Hc as [[H _]|[(_ & _ & Hx)|(_ & _ & blob & Hx)]];
        [done | rewrite Hx in Ht; discriminate | rewrite Hx in Ht; discriminate].
    - intros H. destruct Hc as [[_ Ht]|[(Hf & _)|(Hf & _)]];
        [done | congruence | congruence]. }
  split; [exact H1|]. split; [|split].
  - intros Hs He. subst frameCount.
    unfold Extended.multiply, Extended.overflow. cbn zeta.
    apply Qle_bool_iff in Hs, He. rewrite Hs, He. cbn [Extended.Math_floor].
    unfold Extended.subtract. apply (nonpositive_difference fl).
  - intros e Ht. unfold handleExtract. by rewrite Ht.
  - intros Hr Hle Hfin. apply H1. subst frameCount.
    assert (Hp : (fl (endTime * sampleRate buffer)
                  <= fl (startTime * sampleRate buffer))%Q).
    { apply fl_mono. by apply Qmult_le_compat_r. }
    pose proof MAX_VALUE_pos as HM.
    unfold Extended.multiply, Extended.overflow. cbn zeta.
    set (ps := fl (startTime * sampleRate buffer)%Q) in *.
    set (pe := fl (endTime * sampleRate buffer)%Q) in *.
    destruct (Qle_bool (Qabs ps) Extended.MAX_VALUE) eqn:Hs;
      destruct (Qle_bool (Qabs pe) Extended.MAX_VALUE) eqn:He;
      cbn [Extended.Math_floor Extended.subtract Extended.nonpositive].
    + apply (nonpositive_difference fl).
      assert (Qfloor pe <= Qfloor ps) by (by apply Qfloor_resp_le). lia.
    + apply negb_true_iff, not_true_is_false. intros H0.
      apply Qle_bool_iff in H0, Hs. apply not_true_iff_false in He.
      apply He, Qle_bool_iff. apply Qabs_Qle_condition.
      apply Qabs_Qle_condition in Hs. lra.
    + rewrite negb_involutive. apply Qle_bool_iff.
      apply Qle_bool_iff in He. apply Qabs_Qle_condition in He.
      apply not_true_iff_false in Hs.
      destruct (Qlt_le_dec ps 0) as [Hneg|Hpos]; [|done]. exfalso.
      apply Hs, Qle_bool_iff, Qabs_Qle_condition. lra.
    + exfalso. destruct Hfin as [H|H]; apply Qle_bool_iff in H; congruence.
Qed.

Lemma extract_invalid_range_witness :
  Extended.extractClip binary64 four
    (Extended.Finite (1 # 1024)) (Extended.Finite (1 # 2048))
  = Throw InvalidRangeError.
Proof.
  apply (extract_invalid_range binary64 four (1 # 1024) (1 # 2048)).
  - vm_compute. discriminate.
  - vm_compute. discriminate.
  - left. vm_compute. discriminate.
Defined.

(** C3 as stated fails: 2^1015 seconds is a binary64 value whose product
    with 8000 Hz is beyond the largest one.  With that time as start and
    as end, [endTime <= startTime] and the difference of the two floors is
    0, yet both indices are infinite, their difference is [NaN], the guard
    of line 22 lets it through, and the exception is the one of
    [createBuffer]. *)
Lemma extract_invalid_range_counterexample :
  (binary64 (inject_Z (2 ^ 1015)) == inject_Z (2 ^ 1015))%Q /\
  (inject_Z (2 ^ 1015) <= inject_Z (2 ^ 1015))%Q /\
  Qfloor (inject_Z (2 ^ 1015) * sampleRate four)
  - Qfloor (inject_Z (2 ^ 1015) * sampleRate four) <= 0 /\
  Extended.multiply binary64 (Extended.Finite (inject_Z (2 ^ 1015)))
    (sampleRate four) = Extended.Infinity false /\
  Extended.extractClip binary64 four
    (Extended.Finite (inject_Z (2 ^ 1015))) (Extended.Finite (inject_Z (2 ^ 1015)))
  = Throw NotSupportedError /\
  Extended.extractClip binary64 four
    (Extended.Finite (inject_Z (2 ^ 1015))) (Extended.Finite (inject_Z (2 ^ 1015)))
  <> Throw InvalidRangeError.
Proof.
  split; [vm_compute; reflexivity|]. split; [apply Qle_refl|].
  split; [lia|]. split; [vm_compute; reflexivity|].
  split; [vm_compute; reflexivity | vm_compute; discriminate].
Qed.






(** The [duration] attribute is the binary64 value of frames over rate,
    which can lie below it: 15 frames at 44100 Hz give a start index of
    14 at that time, and the last frame of the source is copied. *)
Lemma extract_at_rounded_duration :
  (binary64 (duration tail15) < duration tail15)%Q /\
  startSampleOf binary64 tail15 (binary64 (duration tail15)) = 14 /\
  exists newBuffer : AudioBuffer,
    extractBuffer binary64 tail15 (binary64 (duration tail15))
      (binary64 (duration tail15 + (1 # 1024))) = Ok newBuffer /\
    getChannelData newBuffer 0 !! 0%nat = Some (Num 1).
Proof.
  split; [reflexivity|]. split; [vm_compute; reflexivity|].
  eexists. split; vm_compute; reflexivity.
Qed.

(** ** Sample conversion *)

Lemma Qtrunc_toward_zero (x : Q) : Qtrunc x = toward_zero x.
Proof.
  unfold Qtrunc, toward_zero. destruct x as [n d].
  destruct (Qlt_le_dec (n # d) 0) as [Hlt|Hge]; cbn [Qnum Qden].
  - unfold Qlt in Hlt. cbn in Hlt.
    unfold Qceiling, Qfloor, Qopp. cbn [Qnum Qden].
    rewrite <- (Z.opp_involutive n) at 1.
    rewrite Z.quot_opp_l by lia. f_equal.
    apply Z.quot_div_nonneg; lia.
  - unfold Qle in Hge. cbn in Hge.
    unfold Qfloor. apply Z.quot_div_nonneg; lia.
Qed.

Lemma toward_zero_comp (x y : Q) : (x == y)%Q -> toward_zero x = toward_zero y.
Proof.
  intros H. unfold toward_zero.
  destruct (Qlt_le_dec x 0) as [Hx|Hx], (Qlt_le_dec y 0) as [Hy|Hy].
  - by rewrite H.
  - rewrite H in Hx. by apply Qlt_not_le in Hx.
  - rewrite H in Hx. by apply Qlt_not_le in Hy.
  - by rewrite H.
Qed.

Lemma toward_zero_bounds (x : Q) (a b : Z) :
  (inject_Z a <= x <= inject_Z b)%Q -> a <= toward_zero x <= b.
Proof.
  intros [Ha Hb]. unfold toward_zero.
  destruct (Qlt_le_dec x 0) as [_|_].
  - rewrite <- (Qceiling_Z a), <- (Qceiling_Z b).
    split; by apply Qceiling_resp_le.
  - rewrite <- (Qfloor_Z a), <- (Qfloor_Z b).
    split; by apply Qfloor_resp_le.
Qed.

Lemma signed16_small (z : Z) : -32768 <= z <= 32767 -> signed 16 z = z.
Proof.
  intros Hz. unfold signed. change (2 ^ 16) with 65536. change (2 ^ (16 - 1)) with 32768.
  destruct (Z.ltb_spec (z mod 65536) 32768) as [H|H];
    Z.div_mod_to_equations; lia.
Qed.

Lemma signed32_small (z : Z) : -32768 <= z <= 32767 -> signed 32 z = z.
Proof.
  intros Hz. unfold signed. change (2 ^ 32) with 4294967296.
  change (2 ^ (32 - 1)) with 2147483648.
  destruct (Z.ltb_spec (z mod 4294967296) 2147483648) as [H|H];
    Z.div_mod_to_equations; lia.
Qed.

Lemma Qtrunc_inject_Z (z : Z) : Qtrunc (inject_Z z) = z.
Proof. unfold Qtrunc. cbn. apply Z.quot_1_r. Qed.

Lemma clamped_range (s : Q) : (-1 <= clamped s <= 1)%Q.
Proof.
  unfold clamped. split.
  - apply Q.le_max_l.
  - apply Q.max_lub; [done | apply Q.le_min_l].
Qed.

(** Line 84 on a number. *)
Lemma clamp_Num (s : Q) : exists c : Q, clamp (Num s) = Num c /\ (c == clamped s)%Q.
Proof.
  unfold clamp, Math_max, Math_min, clamped. eexists. split; [reflexivity|].
  destruct (Qle_bool 1 s) eqn:H1.
  - apply Qle_bool_iff in H1. rewrite (Q.min_l 1 s) by done.
    destruct (Qle_bool (-1) 1) eqn:H2; [|done].
    by rewrite Q.max_r.
  - assert (Hs : (s <= 1)%Q).
    { apply Qnot_lt_le. intros Hlt. apply Qlt_le_weak, Qle_bool_iff in Hlt. congruence. }
    rewrite (Q.min_r 1 s) by done.
    destruct (Qle_bool (-1) s) eqn:H2.
    + apply Qle_bool_iff in H2. by rewrite Q.max_r.
    + assert (Hs' : (s <= -1)%Q).
      { apply Qnot_lt_le. intros Hlt. apply Qlt_le_weak, Qle_bool_iff in Hlt. congruence. }
      by rewrite Q.max_l.
Qed.

(** Line 86 on a number of [-1, 1]. *)
Lemma scale16_Num (c : Q) :
  (-1 <= c <= 1)%Q ->
  scale16 (Num c) =
    toward_zero (if Qlt_le_dec c (- (1 # 2)) then c * 32768 else c * 32767)%Q /\
  -32768 <= scale16 (Num c) <= 32767.
Proof.
  intros [Hlo Hhi]. unfold scale16, lessThan, plus, times.
  destruct (Qlt_le_dec c (- (1 # 2))) as [Hc|Hc].
  - destruct (Qle_bool 0 ((1 # 2) + c)) eqn:Hb.
    { apply Qle_bool_iff in Hb. lra. }
    cbn [negb bitor0]. unfold ToInt32. rewrite Qtrunc_toward_zero.
    assert (Hr : -32768 <= toward_zero (c * 32768) <= 32767).
    { apply toward_zero_bounds. unfold inject_Z. split; [|apply Qlt_le_weak]; lra. }
    rewrite signed32_small by done. done.
  - destruct (Qle_bool 0 ((1 # 2) + c)) eqn:Hb.
    2:{ assert (0 <= (1 # 2) + c)%Q as Hb' by lra.
        apply Qle_bool_iff in Hb'. congruence. }
    cbn [negb bitor0]. unfold ToInt32. rewrite Qtrunc_toward_zero.
    assert (Hr : -32768 <= toward_zero (c * 32767) <= 32767).
    { apply toward_zero_bounds. unfold inject_Z. split; lra. }
    rewrite signed32_small by done. done.
Qed.

Lemma scale16_clamp (s : Q) :
  scale16 (clamp (Num s)) = truncated16 s /\ -32768 <= truncated16 s <= 32767.
Proof.
  destruct (clamp_Num s) as (c & -> & Hc).
  pose proof (clamped_range s) as Hr.
  destruct (scale16_Num c) as [He Hb]; [by rewrite Hc|].
  assert (Heq : scale16 (Num c) = truncated16 s); [|by rewrite <- Heq].
  rewrite He. unfold truncated16. cbn zeta.
  destruct (Qlt_le_dec c (- (1 # 2))) as [H1|H1],
           (Qlt_le_dec (clamped s) (- (1 # 2))) as [H2|H2].
  - apply toward_zero_comp. by rewrite Hc.
  - rewrite Hc in H1. by apply Qlt_not_le in H1.
  - rewrite Hc in H1. by apply Qlt_not_le in H2.
  - apply toward_zero_comp. by rewrite Hc.
Qed.

(** From 0 on the two roundings agree, and the conversion is the one of
    the specification. *)
Lemma truncated16_nonneg (s : Q) : (0 <= s)%Q -> truncated16 s = spec_sample16 s.
Proof.
  intros Hs. unfold truncated16, spec_sample16. cbn zeta.
  assert (Hc : (0 <= clamped s)%Q).
  { unfold clamped. apply Q.max_le_iff. right. apply Q.min_glb; [done | done]. }
  destruct (Qlt_le_dec (clamped s) (- (1 # 2))) as [H1|_]; [lra|].
  destruct (Qlt_le_dec (clamped s) 0) as [H2|_]; [lra|].
  unfold toward_zero.
  destruct (Qlt_le_dec (clamped s * 32767) 0) as [H3|_]; [lra | done].
Qed.

(** *** Bytes *)

Lemma le_value_le_bytes2 (z : Z) : le_value (le_bytes 2 z) = z mod 65536.
Proof.
  unfold le_bytes. cbn. rewrite Z.div_1_r.
  change (256 ^ Z.of_nat 1) with 256.
  change 65536 with (256 * 256). rewrite Z.rem_mul_r by lia. lia.
Qed.

Lemma take_drop_inserts (view bs : list Z) (p : nat) :
  (p + length bs <= length view)%nat ->
  take (length bs) (drop p (list_inserts p bs view)) = bs.
Proof.
  intros H. apply list_eq. intros j.
  destruct (decide (j < length bs)%nat) as [Hj|Hj].
  - rewrite lookup_take_lt, lookup_drop by done.
    rewrite list_lookup_inserts by lia. f_equal. lia.
  - rewrite lookup_take_ge by lia. symmetry. apply lookup_ge_None. lia.
Qed.

(** A 16-bit write read back. *)
Lemma getInt16_setInt16 (view : list Z) (p : nat) (z : Z) :
  (p + 2 <= length view)%nat -> -32768 <= z <= 32767 ->
  exists view' : list Z,
    DataView_setInt16 view p (inject_Z z) = Ok view' /\
    length view' = length view /\
    getInt16 view' p = z.
Proof.
  intros Hp Hz. unfold DataView_setInt16.
  rewrite setBytes_Ok by (by rewrite length_le_bytes).
  eexists. split; [reflexivity|]. split; [apply length_inserts|].
  unfold getInt16, getUint, ToInt16. rewrite Qtrunc_inject_Z.
  rewrite (signed16_small z) by done.
  pose proof (take_drop_inserts view (le_bytes 2 z) p) as Ht.
  rewrite length_le_bytes in Ht. rewrite Ht by done.
  rewrite le_value_le_bytes2.
  unfold signed. change (2 ^ 16) with 65536. change (2 ^ (16 - 1)) with 32768.
  destruct (Z.ltb_spec ((z mod 65536) mod 65536) 32768) as [H|H];
    Z.div_mod_to_equations; lia.
Qed.

(** Where the scale of the code is the scale of the specification: below
    -1/2 and from 0 on. *)
Lemma truncated16_spec (s : Q) :
  (s < - (1 # 2) \/ 0 <= s)%Q -> truncated16 s = spec_truncated16 s.
Proof.
  intros Hs. unfold truncated16, spec_truncated16. cbn zeta.
  pose proof (clamped_range s) as Hc.
  assert (Hlo : (s < - (1 # 2) -> clamped s < - (1 # 2))%Q).
  { intros H. unfold clamped. apply Q.max_lub_lt; [reflexivity|].
    eapply Qle_lt_trans; [apply Q.le_min_r | done]. }
  assert (Hhi : (0 <= s -> 0 <= clamped s)%Q).
  { intros H. unfold clamped. apply Q.max_le_iff. right.
    apply Q.min_glb; [done | done]. }
  destruct (Qlt_le_dec (clamped s) (- (1 # 2))) as [H1|H1];
    destruct (Qlt_le_dec (clamped s) 0) as [H2|H2]; try reflexivity.
  - lra.
  - destruct Hs as [Hs|Hs]; [apply Hlo in Hs | apply Hhi in Hs]; lra.
Qed.

(** C1, amended.  Every sample the encoder writes goes through
    [writeSample]: the number read is clamped to [-1, 1], scaled and
    rounded toward zero, not down, and stored as the 16-bit value at
    [44 + offset].  For a sample below -1/2 or from 0 on, the scale is the
    one of the specification, 32768 below 0 and 32767 from 0 on; from 0 on
    rounding toward zero is rounding down, and the value is the one the
    specification gives. *)
Theorem sample_conversion (channels : list Float32Array) (w : writer)
    (i : nat) (s : Q) :
  channels !! i ≫= (fun c => c !! pos w) = Some (Num s) ->
  (44 + offset w + 2 <= length (view w))%nat ->
  (s < - (1 # 2) \/ 0 <= s)%Q ->
  exists w' : writer,
    writeSample channels w i = Ok w' /\
    getInt16 (view w') (44 + offset w) = spec_truncated16 s /\
    offset w' = (offset w + 2)%nat /\
    ((0 <= s)%Q -> spec_truncated16 s = spec_sample16 s).
Proof.
  intros Hs Hfit Hout. unfold writeSample. rewrite Hs. cbn [ToNumber].
  destruct (scale16_clamp s) as [-> Hb].
  destruct (getInt16_setInt16 (view w) (44 + offset w) (truncated16 s))
    as (v & -> & _ & Hv); [done | done |].
  rewrite bind_Ok. eexists. split; [reflexivity|]. cbn [view offset].
  rewrite <- (truncated16_spec s Hout).
  repeat split; [done | apply truncated16_nonneg].
Qed.

Lemma sample_conversion_witness :
  exists w' : writer,
    writeSample [[Num (- (49153 # 65536))]]
      {| view := replicate 46 0; pos := 0%nat; offset := 0%nat |} 0%nat = Ok w' /\
    getInt16 (view w') 44 = -24576.
Proof.
  destruct (sample_conversion [[Num (- (49153 # 65536))]]
              {| view := replicate 46 0; pos := 0%nat; offset := 0%nat |}
              0%nat (- (49153 # 65536)))
    as (w' & Hw & Hv & _).
  - reflexivity.
  - cbn. lia.
  - left. reflexivity.
  - exists w'. split; [exact Hw | exact Hv].
Defined.

(** C1 as stated fails: the encoder stores -24576 for the sample
    -(3/4 + 2^-16), rounding -24576.5 toward zero, where rounding down
    gives -24577. *)
Lemma sample_conversion_counterexample :
  exists blob : Blob,
    bufferToWav steep45 = Ok blob /\
    getInt16 (blobParts blob) 44 = -24576 /\
    spec_sample16 (- (49153 # 65536)) = -24577.
Proof.
  eexists. split; [vm_compute; reflexivity|].
  repeat split; vm_compute; reflexivity.
Qed.

(** Between -1/2 and 0 the test of line 86, on [0.5 + sample], picks the
    scale 32767: a sample of -1/4 is stored as -8191, and both roundings
    of -1/4 * 32768 give -8192. *)
Lemma scale16_quarter :
  exists blob : Blob,
    bufferToWav quarter45 = Ok blob /\
    getInt16 (blobParts blob) 44 = -8191 /\
    spec_sample16 (- (1 # 4)) = -8192 /\
    spec_truncated16 (- (1 # 4)) = -8192.
Proof.
  eexists. split; [vm_compute; reflexivity|].
  repeat split; vm_compute; reflexivity.
Qed.

(** C5 fails on the code: the loop of line 81 reads the frames from the
    [pos] the header left, 44.  On 45 frames, full scale up at frame 0 and
    down at frame 44, the first sample of the result is -32768, the one of
    frame 44, and the 44 others are zero; frame 0 is lost. *)
Theorem encoder_skips_frames :
  exists blob : Blob,
    bufferToWav edges45 = Ok blob /\
    length (blobParts blob) = 134%nat /\
    getInt16 (blobParts blob) 44 = -32768 /\
    drop 46 (blobParts blob) = replicate 88 0 /\
    scale16 (clamp (Num 1)) = 32767.
Proof.
  eexists. split; [vm_compute; reflexivity|].
  repeat split; vm_compute; reflexivity.
Qed.

(** The same on two channels: the frames 44 and 45 of the source, each
    with its two channels side by side, then zeros. *)
Lemma bufferToWav_stereo46 :
  exists blob : Blob,
    bufferToWav stereo46 = Ok blob /\
    getInt16 (blobParts blob) 44 = 16383 /\
    getInt16 (blobParts blob) 46 = -32768 /\
    getInt16 (blobParts blob) 48 = 32767 /\
    getInt16 (blobParts blob) 50 = 0 /\
    drop 52 (blobParts blob) = replicate 176 0.
Proof.
  eexists. split; [vm_compute; reflexivity|].
  repeat split; vm_compute; reflexivity.
Qed.

(** What holds of the container: the size, the header, and the two
    examples of the specification. *)
Lemma bufferToWav_silence10 :
  exists blob : Blob,
    bufferToWav silence10 = Ok blob /\
    length (blobParts blob) = 64%nat /\
    take 4 (blobParts blob) = [82; 73; 70; 70] /\
    getUint 2 (blobParts blob) 22 = 1 /\
    getUint 4 (blobParts blob) 24 = 8000 /\
    drop 44 (blobParts blob) = replicate 20 0.
Proof.
  eexists. split; [vm_compute; reflexivity|].
  repeat split; vm_compute; reflexivity.
Qed.

Lemma bufferToWav_silence22050 :
  exists blob : Blob,
    bufferToWav silence22050 = Ok blob /\
    Z.of_nat (length (blobParts blob)) = 44144.
Proof.
  destruct (bufferToWav_length silence22050) as (blob & Hb & Hl & _).
  exists blob. split; [done|]. rewrite Hl.
  unfold silence22050, mono, numberOfChannels. cbn [bufferLength channelData length].
  rewrite length_replicate. lia.
Qed.

(** *** The header, field by field *)

Lemma le_value_le_bytes4 (z : Z) : le_value (le_bytes 4 z) = z mod 2 ^ 32.
Proof.
  unfold le_bytes. cbn [seq fmap list_fmap le_value].
  change (256 ^ Z.of_nat 0) with 1. change (256 ^ Z.of_nat 1) with 256.
  change (256 ^ Z.of_nat 2) with 65536. change (256 ^ Z.of_nat 3) with 16777216.
  change (2 ^ 32) with 4294967296.
  Z.div_mod_to_equations. lia.
Qed.

Lemma ToUint32_small (z : Z) : 0 <= z < 2 ^ 32 -> ToUint32 (inject_Z z) mod 2 ^ 32 = z.
Proof.
  intros Hz. unfold ToUint32. rewrite Qtrunc_inject_Z.
  rewrite Z.mod_mod by lia. by apply Z.mod_small.
Qed.

Lemma ToUint16_small (z : Z) : 0 <= z < 2 ^ 16 -> ToUint16 (inject_Z z) mod 65536 = z.
Proof.
  intros Hz. unfold ToUint16. rewrite Qtrunc_inject_Z.
  change (2 ^ 16) with 65536 in *. rewrite Z.mod_mod by lia. by apply Z.mod_small.
Qed.

(** What the header of a buffer of [n] channels and integer rate [rate]
    holds, read back as little-endian numbers, when each value fits its
    field. *)
Lemma header_fields (abuffer : AudioBuffer) (rate : Z) :
  let n := Z.of_nat (numberOfChannels abuffer) in
  let size := 44 + Z.of_nat (bufferLength abuffer) * n * 2 in
  sampleRate abuffer = inject_Z rate ->
  0 <= rate < 2 ^ 32 -> rate * 2 * n < 2 ^ 32 -> n * 2 < 2 ^ 16 -> size < 2 ^ 32 ->
  exists blob : Blob,
    bufferToWav abuffer = Ok blob /\
    Z.of_nat (length (blobParts blob)) = size /\
    take 4 (blobParts blob) = [82; 73; 70; 70] /\
    getUint 4 (blobParts blob) 4 = size - 8 /\
    take 8 (drop 8 (blobParts blob)) = [87; 65; 86; 69; 102; 109; 116; 32] /\
    getUint 4 (blobParts blob) 16 = 16 /\
    getUint 2 (blobParts blob) 20 = 1 /\
    getUint 2 (blobParts blob) 22 = n /\
    getUint 4 (blobParts blob) 24 = rate /\
    getUint 4 (blobParts blob) 28 = rate * 2 * n /\
    getUint 2 (blobParts blob) 32 = n * 2 /\
    getUint 2 (blobParts blob) 34 = 16 /\
    take 4 (drop 36 (blobParts blob)) = [100; 97; 116; 97] /\
    getUint 4 (blobParts blob) 40 = size - 44.
Proof.
  intros n size Hrate H0 Hbr Hba Hlen.
  destruct (bufferToWav_length abuffer) as (blob & Hb & Hl & Hh).
  exists blob. split; [done|]. split; [rewrite Hl; unfold size, n; lia|].
  assert (Ht : forall k m : nat, (k + m <= 44)%nat ->
            take m (drop k (blobParts blob)) = take m (drop k (header abuffer))).
  { intros k m Hk. rewrite <- Hh.
    rewrite !take_drop_commute, take_take. do 2 f_equal. lia. }
  assert (Hg : forall k m : nat, (k + m <= 44)%nat ->
            getUint m (blobParts blob) k = getUint m (header abuffer) k).
  { intros k m Hk. unfold getUint. by rewrite Ht. }
  assert (Esize : Z.of_nat (bufferLength abuffer * numberOfChannels abuffer * 2 + 44)
                  = size) by (unfold size, n; lia).
  repeat split.
  - rewrite <- (drop_0 (blobParts blob)), Ht by lia. reflexivity.
  - rewrite Hg by lia.
    change (getUint 4 (header abuffer) 4)
      with (le_value (le_bytes 4 (ToUint32 (inject_Z
              (Z.of_nat (bufferLength abuffer * numberOfChannels abuffer * 2 + 44) - 8))))).
    rewrite le_value_le_bytes4, Esize. apply ToUint32_small. lia.
  - rewrite Ht by lia. reflexivity.
  - rewrite Hg by lia. reflexivity.
  - rewrite Hg by lia. reflexivity.
  - rewrite Hg by lia.
    change (getUint 2 (header abuffer) 22)
      with (le_value (le_bytes 2 (ToUint16 (inject_Z n)))).
    rewrite le_value_le_bytes2. apply ToUint16_small. lia.
  - rewrite Hg by lia.
    change (getUint 4 (header abuffer) 24)
      with (le_value (le_bytes 4 (ToUint32 (sampleRate abuffer)))).
    rewrite le_value_le_bytes4, Hrate. apply ToUint32_small. lia.
  - rewrite Hg by lia.
    change (getUint 4 (header abuffer) 28)
      with (le_value (le_bytes 4 (ToUint32 (sampleRate abuffer * 2 * inject_Z n)%Q))).
    rewrite le_value_le_bytes4, Hrate.
    assert (E : ToUint32 (inject_Z rate * 2 * inject_Z n)%Q
                = ToUint32 (inject_Z (rate * 2 * n))).
    { unfold ToUint32, Qtrunc. cbn [Qnum Qden Qmult inject_Z Pos.mul].
      by rewrite !Z.quot_1_r. }
    rewrite E. apply ToUint32_small. nia.
  - rewrite Hg by lia.
    change (getUint 2 (header abuffer) 32)
      with (le_value (le_bytes 2 (ToUint16 (inject_Z (n * 2))))).
    rewrite le_value_le_bytes2. apply ToUint16_small. lia.
  - rewrite Hg by lia. reflexivity.
  - rewrite Ht by lia. reflexivity.
  - rewrite Hg by lia.
    change (getUint 4 (header abuffer) 40)
      with (le_value (le_bytes 4 (ToUint32 (inject_Z
              (Z.of_nat (bufferLength abuffer * numberOfChannels abuffer * 2 + 44) - 44))))).
    rewrite le_value_le_bytes4, Esize. apply ToUint32_small. lia.
Qed.

(** *** Where each sample of the source lands *)

Lemma int16_bytes_value (z : Z) :
  -32768 <= z <= 32767 ->
  signed 16 (le_value (le_bytes 2 (ToInt16 (inject_Z z)))) = z.
Proof.
  intros Hz. unfold ToInt16. rewrite Qtrunc_inject_Z, (signed16_small z) by done.
  rewrite le_value_le_bytes2.
  unfold signed. change (2 ^ 16) with 65536. change (2 ^ (16 - 1)) with 32768.
  destruct (Z.ltb_spec ((z mod 65536) mod 65536) 32768) as [H|H];
    Z.div_mod_to_equations; lia.
Qed.

Lemma drop_flat_map_seq {A : Type} (f : nat -> list A) (c k a m : nat) :
  (forall x : nat, length (f x) = c) -> (k <= m)%nat ->
  drop (k * c) (flat_map f (seq a m)) = flat_map f (seq (a + k) (m - k)).
Proof.
  intros Hc. revert a m. induction k as [|k IH]; intros a m Hk.
  - cbn [Nat.mul drop]. by rewrite Nat.add_0_r, Nat.sub_0_r.
  - destruct m as [|m]; [lia|]. cbn [seq flat_map Nat.mul].
    rewrite <- drop_drop, drop_app_length' by (symmetry; apply Hc).
    rewrite IH by lia. do 2 f_equal; lia.
Qed.

(** The sample of channel [i] at frame [p], for [p] from 44 on, is the
    16-bit value at byte [44 + 2 * ((p - 44) * numberOfChannels + i)]. *)
Lemma bufferToWav_sample (abuffer : AudioBuffer) (p i : nat) (s : Q) :
  (44 <= p < bufferLength abuffer)%nat ->
  (i < numberOfChannels abuffer)%nat ->
  getChannelData abuffer i !! p = Some (Num s) ->
  exists blob : Blob,
    bufferToWav abuffer = Ok blob /\
    getInt16 (blobParts blob) (44 + 2 * ((p - 44) * numberOfChannels abuffer + i))
    = truncated16 s.
Proof.
  intros Hp Hi Hs. eexists. split; [apply bufferToWav_spec|]. cbn [blobParts].
  set (ch := numberOfChannels abuffer) in *.
  set (m := (bufferLength abuffer - 44)%nat).
  set (zeros := replicate (Nat.min 44 (bufferLength abuffer) * (2 * ch)) 0).
  unfold getInt16, getUint.
  rewrite <- drop_drop, drop_app_length' by (symmetry; apply length_header).
  replace (2 * ((p - 44) * ch + i))%nat with ((p - 44) * (2 * ch) + 2 * i)%nat by lia.
  rewrite <- drop_drop.
  assert (Hlen : forall x : nat, length (frameBytes abuffer x) = (2 * ch)%nat)
    by apply length_frameBytes.
  rewrite drop_app_le.
  2:{ rewrite (flat_map_constant_length (c := (2 * ch)%nat)) by (intros; apply Hlen).
      rewrite length_seq. unfold m. nia. }
  rewrite (drop_flat_map_seq _ (2 * ch)) by (done || (unfold m; lia)).
  replace (m - (p - 44))%nat with (S (m - (p - 44) - 1)) by (unfold m; lia).
  replace (44 + (p - 44))%nat with p by lia.
  cbn [seq flat_map]. rewrite <- !app_assoc.
  rewrite drop_app_le by (rewrite Hlen; lia).
  unfold frameBytes at 1. fold ch.
  replace (2 * i)%nat with (i * 2)%nat by lia.
  rewrite (drop_flat_map_seq _ 2)
    by ((intros; unfold sampleBytes; apply length_le_bytes) || lia).
  replace (ch - i)%nat with (S (ch - i - 1)) by lia.
  cbn [seq flat_map Nat.add]. rewrite <- !app_assoc.
  rewrite take_app_length' by (symmetry; unfold sampleBytes; apply length_le_bytes).
  unfold sampleBytes. rewrite Hs. cbn [ToNumber].
  destruct (scale16_clamp s) as [-> Hb].
  by apply int16_bytes_value.
Qed.

(** ** The waveform *)

Lemma scanDatum_scanValue (data : Float32Array) (base : nat)
    (mm : number * number) (j : nat) :
  scanDatum data base mm j = scanValue mm (ToNumber (data !! (base + j)%nat)).
Proof. reflexivity. Qed.

Lemma scanValue_NaN (mm : number * number) : scanValue mm NaN = mm.
Proof. destruct mm as [[a|] [b|]]; reflexivity. Qed.

(** The inner loop only sees the samples of the group: the reads past the
    end of the data change nothing. *)
Lemma scan_seq_take (data : Float32Array) (base k a : nat) (mm : number * number) :
  foldl (scanDatum data base) mm (seq a k)
  = foldl scanValue mm (take k (drop (base + a) data)).
Proof.
  revert a mm. induction k as [|k IH]; intros a mm; [done|].
  cbn [seq foldl]. rewrite IH, scanDatum_scanValue.
  destruct (data !! (base + a)%nat) as [x|] eqn:Hx.
  - rewrite (drop_S _ _ _ Hx). cbn [take foldl ToNumber].
    by replace (base + S a)%nat with (S (base + a)) by lia.
  - apply lookup_ge_None in Hx.
    rewrite !drop_ge by lia. cbn [ToNumber]. rewrite scanValue_NaN.
    by destruct k.
Qed.

Lemma column_group (data : Float32Array) (step i : nat) :
  column data step i = foldl scanValue (Num 1, Num (-1)) (group data step i).
Proof.
  unfold column, group. rewrite scan_seq_take. by rewrite Nat.add_0_r.
Qed.

Lemma lessThan_Num (x y : Q) : lessThan (Num x) (Num y) = true <-> (x < y)%Q.
Proof.
  unfold lessThan. destruct (Qle_bool y x) eqn:H; cbn [negb].
  - apply Qle_bool_iff in H. split; [done | intros H'; by apply Qlt_not_le in H'].
  - split; [intros _ | done]. apply Qnot_le_lt. intros H'.
    apply Qle_bool_iff in H'. congruence.
Qed.

Lemma lessThan_false (x y : Q) : lessThan (Num x) (Num y) = false <-> (y <= x)%Q.
Proof.
  unfold lessThan. destruct (Qle_bool y x) eqn:H; cbn [negb].
  - apply Qle_bool_iff in H. done.
  - split; [done|]. intros H'. apply Qle_bool_iff in H'. congruence.
Qed.

(** The scan from [(a, b)]: the least of [a] and the numbers of [g], the
    greatest of [b] and the numbers of [g]. *)
Lemma scan_extrema (g : Float32Array) (a b : Q) :
  exists lo hi : Q,
    foldl scanValue (Num a, Num b) g = (Num lo, Num hi) /\
    (lo <= a)%Q /\ (Num lo = Num a \/ Num lo ∈ g) /\
    (forall x : Q, Num x ∈ g -> (lo <= x)%Q) /\
    (b <= hi)%Q /\ (Num hi = Num b \/ Num hi ∈ g) /\
    (forall x : Q, Num x ∈ g -> (x <= hi)%Q).
Proof.
  revert a b. induction g as [|v g IH]; intros a b.
  - exists a, b. cbn [foldl]. repeat split; try (by left); try apply Qle_refl.
    + intros x Hx. by apply elem_of_nil in Hx.
    + intros x Hx. by apply elem_of_nil in Hx.
  - cbn [foldl]. destruct v as [v|].
    2:{ rewrite scanValue_NaN. destruct (IH a b) as (lo & hi & He & H1 & H2 & H3 & H4 & H5 & H6).
        exists lo, hi. repeat split; try done.
        - destruct H2 as [?|?]; [by left | right; by apply elem_of_cons; right].
        - intros x Hx. apply elem_of_cons in Hx as [?|?]; [done | by apply H3].
        - destruct H5 as [?|?]; [by left | right; by apply elem_of_cons; right].
        - intros x Hx. apply elem_of_cons in Hx as [?|?]; [done | by apply H6]. }
    unfold scanValue at 2. cbn [fst snd].
    destruct (lessThan (Num v) (Num a)) eqn:Hva, (lessThan (Num b) (Num v)) eqn:Hbv.
    all: try apply lessThan_Num in Hva; try apply lessThan_false in Hva.
    all: try apply lessThan_Num in Hbv; try apply lessThan_false in Hbv.
    all: match goal with |- context [foldl scanValue (Num ?a', Num ?b') _] =>
           destruct (IH a' b') as (lo & hi & He & H1 & H2 & H3 & H4 & H5 & H6) end.
    all: exists lo, hi; split; [done|].
    all: repeat split.
    all: try (intros x Hx; apply elem_of_cons in Hx as [Hx|Hx];
              [injection Hx as -> | by auto]).
    all: try lra.
    all: try (destruct H2 as [H2|H2];
              [ first [ by left | right; rewrite H2; by apply elem_of_cons; left ]
              | right; by apply elem_of_cons; right ]).
    all: try (destruct H5 as [H5|H5];
              [ first [ by left | right; rewrite H5; by apply elem_of_cons; left ]
              | right; by apply elem_of_cons; right ]).
Qed.

(** Line 148 in integers: the quotient rounded up. *)
Lemma stepOf_ceiling (len width : nat) :
  (0 < width)%nat ->
  Z.of_nat (stepOf len width) = (Z.of_nat len + Z.of_nat width - 1) / Z.of_nat width.
Proof.
  intros Hw. unfold stepOf, Qceiling.
  assert (He : Qfloor (- (inject_Z (Z.of_nat len) / inject_Z (Z.of_nat width)))
               = (- Z.of_nat len) / Z.of_nat width).
  { rewrite Zdiv_Qdiv. apply Qfloor_comp.
    rewrite inject_Z_opp. field.
    intros H0. unfold Qeq in H0. cbn in H0. lia. }
  rewrite He.
  assert (0 <= - (- Z.of_nat len / Z.of_nat width)).
  { Z.div_mod_to_equations. nia. }
  rewrite Z2Nat.id by done.
  Z.div_mod_to_equations. nia.
Qed.

Lemma groups_take (data : Float32Array) (step k : nat) :
  concat (group data step <$> seq 0 k) = take (k * step) data.
Proof.
  induction k as [|k IH]; [done|].
  rewrite seq_S, fmap_app, concat_app, IH. cbn [fmap list_fmap concat Nat.add].
  rewrite app_nil_r. unfold group. rewrite take_take_drop. f_equal. lia.
Qed.

(** The columns partition the data: side by side, the [width] groups are
    the channel. *)
Lemma groups_partition (data : Float32Array) (width : nat) :
  (0 < width)%nat ->
  concat (group data (stepOf (length data) width) <$> seq 0 width) = data.
Proof.
  intros Hw. rewrite groups_take. apply take_ge.
  pose proof (stepOf_ceiling (length data) width Hw) as Hs.
  assert (Z.of_nat (length data) <= Z.of_nat width * Z.of_nat (stepOf (length data) width)).
  { rewrite Hs. Z.div_mod_to_equations. nia. }
  nia.
Qed.

Lemma in_range_elem (g : Float32Array) (x : Q) :
  in_range g -> Num x ∈ g -> (-1 <= x <= 1)%Q.
Proof.
  intros Hr Hx. unfold in_range in Hr.
  destruct (proj1 (Forall_forall _ _) Hr _ Hx) as (y & Hy & Hb).
  by injection Hy as ->.
Qed.

(** C6, amended.  For every buffer and width, [downsample] returns
    [width] pairs, computed over the first channel cut into contiguous
    groups of [ceil(frameCount / width)] samples.  The pair of a group is
    the least of 1.0 and its samples and the greatest of -1.0 and its
    samples: (1.0, -1.0) for an empty group, the minimum and the maximum
    of the group when its samples lie in [-1, 1], and (0, 0) when they are
    all zero. *)
Theorem downsample_columns (audioBuffer : AudioBuffer) (width : nat) :
  let data := getChannelData audioBuffer 0 in
  let step := stepOf (length data) width in
  length (downsample audioBuffer width) = width /\
  ((0 < width)%nat ->
   Z.of_nat step = (Z.of_nat (length data) + Z.of_nat width - 1) / Z.of_nat width /\
   concat (group data step <$> seq 0 width) = data) /\
  forall i : nat, (i < width)%nat ->
    exists lo hi : number,
      downsample audioBuffer width !! i = Some (lo, hi) /\
      capped_min (group data step i) lo /\
      capped_max (group data step i) hi /\
      (group data step i = [] -> lo = Num 1 /\ hi = Num (-1)) /\
      (group data step i <> [] -> in_range (group data step i) ->
       group_min (group data step i) lo /\ group_max (group data step i) hi) /\
      (group data step i <> [] -> Forall (fun v => v = zero) (group data step i) ->
       lo = zero /\ hi = zero).
Proof.
  intros data step. split; [|split].
  - unfold downsample. by rewrite length_fmap, length_seq.
  - intros Hw. split; [by apply stepOf_ceiling | by apply groups_partition].
  - intros i Hi. unfold downsample. fold data. fold step.
    rewrite list_lookup_fmap, lookup_seq_lt by done. cbn [fmap option_fmap option_map Nat.add].
    rewrite column_group.
    destruct (scan_extrema (group data step i) 1 (-1))
      as (lo & hi & -> & H1 & H2 & H3 & H4 & H5 & H6).
    exists (Num lo), (Num hi). split; [done|].
    assert (Hhead : forall (g : Float32Array), g <> [] -> in_range g ->
              exists x : Q, Num x ∈ g /\ (-1 <= x <= 1)%Q).
    { intros [|v g] Hg Hr; [done|].
      destruct (proj1 (Forall_cons _ _ _) Hr) as [(x & -> & Hx) _].
      exists x. split; [apply elem_of_cons; by left | done]. }
    split; [|split; [|split; [|split]]].
    + exists lo. by repeat split.
    + exists hi. by repeat split.
    + intros Hg. rewrite Hg in H2, H5. split.
      * destruct H2 as [H2|H2]; [done | by apply elem_of_nil in H2].
      * destruct H5 as [H5|H5]; [done | by apply elem_of_nil in H5].
    + intros Hg Hr. destruct (Hhead _ Hg Hr) as (x & Hxin & Hx). split.
      * exists lo. split; [done|]. split; [|done].
        destruct H2 as [H2|H2]; [|by exists lo].
        injection H2 as ->. exists x. split; [done|].
        pose proof (H3 x Hxin). apply Qle_antisym; lra.
      * exists hi. split; [done|]. split; [|done].
        destruct H5 as [H5|H5]; [|by exists hi].
        injection H5 as ->. exists x. split; [done|].
        pose proof (H6 x Hxin). apply Qle_antisym; lra.
    + intros Hg Hz.
      assert (Hin : Num 0 ∈ group data step i).
      { destruct (group data step i) as [|v g]; [done|].
        apply Forall_cons in Hz as [-> _]. apply elem_of_cons. by left. }
      split.
      * destruct H2 as [H2|H2].
        -- injection H2 as ->. pose proof (H3 0%Q Hin). lra.
        -- by apply (proj1 (Forall_forall _ _) Hz) in H2.
      * destruct H5 as [H5|H5].
        -- injection H5 as ->. pose proof (H6 0%Q Hin). lra.
        -- by apply (proj1 (Forall_forall _ _) Hz) in H5.
Qed.

Lemma downsample_columns_witness :
  downsample four 3 !! 1%nat = Some (Num (1 # 4), Num (3 # 4)).
Proof.
  destruct (downsample_columns four 3) as (_ & _ & H).
  destruct (H 1%nat) as (lo & hi & Hl & _); [lia|].
  rewrite Hl. vm_compute in Hl. injection Hl as <- <-. reflexivity.
Defined.

(** C6 as stated fails: a sample above the nominal range is not the
    minimum drawn for its group.  One column over the single sample 3/2
    gives the pair (1, 3/2). *)
Lemma downsample_columns_counterexample :
  downsample loud1 1 = [(Num 1, Num (3 # 2))] /\
  group (getChannelData loud1 0) (stepOf 1 1) 0 = [Num (3 # 2)] /\
  ~ group_min [Num (3 # 2)] (Num 1).
Proof.
  split; [reflexivity|]. split; [reflexivity|].
  intros (q & Hq & (y & Hy & Hyq) & _). injection Hq as <-.
  apply list_elem_of_singleton in Hy. injection Hy as ->.
  vm_compute in Hyq. discriminate.
Qed.

(** ** Pixels and times *)

(** A value of [0, from] scaled to [to] and back, as the two maps do it in
    binary64: four roundings, each with its relative error and its
    underflow. *)
Lemma scale_round_trip (from to v : Q) :
  (0 < from)%Q -> (2 ^ (-1000) <= to)%Q -> (0 <= v <= from)%Q ->
  (Qabs (binary64 (binary64 (binary64 (binary64 (v / from) * to) / to) * from) - v)
   <= (1 # 562949953421312) * from + 2 ^ (-1075))%Q.
Proof.
  intros HF HT Hv.
  pose proof (pow2_pos (-1000)) as Hmin.
  assert (HT0 : (0 < to)%Q) by lra.
  assert (E75 : (2 ^ (-1075) == (1 # 37778931862957161709568) * 2 ^ (-1000))%Q).
  { change (-1075) with (-75 + -1000). rewrite Qpower_plus by discriminate.
    reflexivity. }
  assert (E53 : (2 ^ (-53) == 1 # 9007199254740992)%Q) by reflexivity.
  assert (Herr : forall x : Q, (0 <= x)%Q ->
            (0 <= binary64 x)%Q /\
            (- ((1 # 9007199254740992) * x + 2 ^ (-1075)) <= binary64 x - x
             <= (1 # 9007199254740992) * x + 2 ^ (-1075))%Q).
  { intros x Hx. split; [by apply binary64_nonneg|].
    pose proof (binary64_error_all x) as H.
    rewrite (Qabs_pos x), E53 in H by done.
    by apply Qabs_Qle_condition in H. }
  set (eta := (2 ^ (-1075))%Q) in *.
  assert (Heta0 : (0 < eta)%Q) by apply pow2_pos.
  assert (Hk : (eta <= (1 # 37778931862957161709568) * to)%Q).
  { rewrite E75. apply Qmult_le_l; [reflexivity | done]. }
  assert (Heta1 : (eta <= 1 # 37778931862957161709568)%Q).
  { assert (H : (2 ^ (-1000) <= 1)%Q) by (apply (pow2_le (-1000) 0); lia).
    rewrite E75. lra. }
  assert (HF0 : ~ (from == 0)%Q) by (intros E; rewrite E in HF; by apply Qlt_irrefl in HF).
  assert (HT1 : ~ (to == 0)%Q) by (intros E; rewrite E in HT0; by apply Qlt_irrefl in HT0).
  (* the quotient *)
  assert (Hx1 : (0 <= v / from <= 1)%Q).
  { split; [apply Qle_shift_div_l | apply Qle_shift_div_r]; lra. }
  assert (Ev : (v / from * from == v)%Q) by (by field).
  set (x1 := (v / from)%Q) in *.
  destruct (Herr x1) as [Ha0 Ha]; [lra|].
  set (a := binary64 x1) in *.
  (* the product *)
  assert (HX2 : (0 <= a * to <= 2 * to)%Q).
  { split; [apply Qmult_le_0_compat; lra | apply Qmult_le_compat_r; lra]. }
  set (X2 := (a * to)%Q) in *.
  destruct (Herr X2) as [Hp0 Hp]; [lra|].
  set (p := binary64 X2) in *.
  (* back: the quotient *)
  assert (E3 : ((p / to - a) * to == p - X2)%Q) by (unfold X2; by field).
  assert (HX3 : (- ((2 # 9007199254740992) + (1 # 37778931862957161709568))
                 <= p / to - a
                 <= (2 # 9007199254740992) + (1 # 37778931862957161709568))%Q).
  { split; apply (Qmult_le_r _ _ to HT0); rewrite E3; lra. }
  assert (HX30 : (0 <= p / to)%Q) by (apply Qle_shift_div_l; lra).
  set (X3 := (p / to)%Q) in *.
  destruct (Herr X3) as [Hb0 Hb]; [lra|].
  set (b := binary64 X3) in *.
  (* back: the product *)
  assert (Hbx : (- ((6 # 9007199254740992) + (3 # 37778931862957161709568))
                 <= b - x1
                 <= (6 # 9007199254740992) + (3 # 37778931862957161709568))%Q)
    by lra.
  assert (E4 : ((b - x1) * from == b * from - v)%Q) by (rewrite <- Ev; ring).
  assert (HX4 : (- ((6 # 9007199254740992) + (3 # 37778931862957161709568)) * from
                 <= b * from - v
                 <= ((6 # 9007199254740992) + (3 # 37778931862957161709568)) * from)%Q).
  { rewrite <- E4. split; apply Qmult_le_compat_r; lra. }
  assert (HX40 : (0 <= b * from <= 2 * from)%Q).
  { split; [apply Qmult_le_0_compat; lra | apply Qmult_le_compat_r; lra]. }
  set (X4 := (b * from)%Q) in *.
  destruct (Herr X4) as [_ Ht]; [lra|].
  apply Qabs_Qle_condition. split; lra.
Qed.


Lemma quotient_Some (fl : Q -> Q) (a b : Q) :
  (0 < b)%Q -> quotient fl a b = Some (fl (a / b)%Q).
Proof.
  intros Hb. unfold quotient. destruct (Qeq_bool b 0) eqn:H; [|done].
  apply Qeq_bool_iff in H. rewrite H in Hb. by apply Qlt_irrefl in Hb.
Qed.

(** C7.  The two maps are the linear ones, [(time / duration) * width]
    and [(x / width) * duration], and each undoes the other exactly.  In
    binary64, for a positive duration, a width from 1 to 2^32 and every
    binary64 time of [0, duration], going to a pixel and back gives the
    time again within one pixel of time, [duration / width].  Likewise a
    pixel of [0, width] comes back within one pixel, unless the duration
    is so small, below 2^-1000, that times underflow. *)
Theorem pixel_time_round_trip (duration width t : Q) :
  (binary64 t == t)%Q ->
  (0 < duration)%Q -> (1 <= width)%Q -> (width <= 2 ^ 32)%Q ->
  (0 <= t <= duration)%Q ->
  timeToPixel exact duration width t = Some (t / duration * width)%Q /\
  (forall x : Q, pixelToTime exact duration width x = Some (x / width * duration)%Q) /\
  (exists t' : Q,
     timeToPixel exact duration width t ≫= pixelToTime exact duration width
     = Some t' /\ (t' == t)%Q) /\
  (forall x : Q, exists x' : Q,
     pixelToTime exact duration width x ≫= timeToPixel exact duration width
     = Some x' /\ (x' == x)%Q) /\
  (exists p t' : Q,
     timeToPixel binary64 duration width t = Some p /\
     pixelToTime binary64 duration width p = Some t' /\
     (Qabs (t' - t) <= duration / width)%Q) /\
  ((2 ^ (-1000) <= duration)%Q ->
   forall x : Q, (0 <= x <= width)%Q ->
     exists t1 x' : Q,
       pixelToTime binary64 duration width x = Some t1 /\
       timeToPixel binary64 duration width t1 = Some x' /\
       (Qabs (x' - x) <= 1)%Q).
Proof.
  intros Hdt Hd Hw1 Hw32 Ht.
  assert (E32 : (2 ^ 32 == 4294967296)%Q) by reflexivity.
  rewrite E32 in Hw32.
  assert (Hw : (0 < width)%Q) by lra.
  assert (Hd0 : ~ (duration == 0)%Q)
    by (intros E; rewrite E in Hd; by apply Qlt_irrefl in Hd).
  assert (Hw0 : ~ (width == 0)%Q)
    by (intros E; rewrite E in Hw; by apply Qlt_irrefl in Hw).
  pose proof (pow2_pos (-1075)) as Heta.
  split; [|split; [|split; [|split; [|split]]]].
  - unfold timeToPixel. by rewrite quotient_Some.
  - intros x. unfold pixelToTime. by rewrite quotient_Some.
  - unfold timeToPixel, pixelToTime. rewrite quotient_Some by done.
    cbn [mbind option_bind]. rewrite quotient_Some by done.
    eexists. split; [reflexivity|]. unfold exact. by field.
  - intros x. unfold timeToPixel, pixelToTime. rewrite quotient_Some by done.
    cbn [mbind option_bind]. rewrite quotient_Some by done.
    eexists. split; [reflexivity|]. unfold exact. by field.
  - unfold timeToPixel, pixelToTime. rewrite quotient_Some by done.
    cbn [mbind option_bind]. eexists _, _. split; [reflexivity|].
    rewrite quotient_Some by done. cbn [mbind option_bind]. split; [reflexivity|].
    assert (Hmin : (2 ^ (-1000) <= width)%Q).
    { apply Qle_trans with 1%Q; [apply (pow2_le (-1000) 0); lia | done]. }
    pose proof (scale_round_trip duration width t Hd Hmin Ht) as Hb.
    set (t' := binary64 (binary64 (binary64 (binary64 (t / duration) * width) / width)
                         * duration)) in *.
    assert (E49 : (2 ^ (-1075) == (1 # 562949953421312) * 2 ^ (-1026))%Q).
    { change (-1075) with (-49 + -1026). rewrite Qpower_plus by discriminate.
      reflexivity. }
    assert (Eg : (2 ^ (-1074) == 2 * 2 ^ (-1075))%Q).
    { change (-1074) with (-1075 + 1). apply pow2_succ. }
    assert (Hpix : (0 <= duration / width)%Q) by (apply Qle_shift_div_l; lra).
    destruct (Qlt_le_dec duration (2 ^ (-1026))) as [Hsmall|Hbig].
    + assert (Eq : (t' == t)%Q).
      { rewrite <- Hdt. apply binary64_close. rewrite Hdt, Eg.
        eapply Qle_lt_trans; [exact Hb|]. lra. }
      rewrite Eq. setoid_replace (t - t)%Q with 0%Q using relation Qeq by ring.
      exact Hpix.
    + eapply Qle_trans; [exact Hb|].
      apply Qle_trans with ((1 # 4294967296) * duration)%Q; [lra|].
      apply Qle_shift_div_l; [done|].
      setoid_replace ((1 # 4294967296) * duration * width)%Q
        with (duration * ((1 # 4294967296) * width))%Q using relation Qeq by ring.
      rewrite <- (Qmult_1_r duration) at 2. apply Qmult_le_l; [done | lra].
  - intros Hmin x Hx. unfold timeToPixel, pixelToTime.
    rewrite quotient_Some by done.
    cbn [mbind option_bind]. eexists _, _. split; [reflexivity|].
    rewrite quotient_Some by done. cbn [mbind option_bind]. split; [reflexivity|].
    pose proof (scale_round_trip width duration x Hw Hmin Hx) as Hb.
    eapply Qle_trans; [exact Hb|].
    assert (H : (2 ^ (-1075) <= 1 # 2)%Q) by (apply (pow2_le (-1075) (-1)); lia).
    lra.
Qed.

Lemma pixel_time_round_trip_witness :
  (exists p t' : Q,
     timeToPixel binary64 2 800 (binary64 (13 # 10)) = Some p /\
     pixelToTime binary64 2 800 p = Some t' /\
     (Qabs (t' - binary64 (13 # 10)) <= 2 / 800)%Q) /\
  (exists t1 x' : Q,
     pixelToTime binary64 2 800 (1041 # 2) = Some t1 /\
     timeToPixel binary64 2 800 t1 = Some x' /\
     (Qabs (x' - (1041 # 2)) <= 1)%Q).
Proof.
  destruct (pixel_time_round_trip 2 800 (binary64 (13 # 10)))
    as (_ & _ & _ & _ & Htime & Hpixel).
  - vm_compute. reflexivity.
  - reflexivity.
  - discriminate.
  - discriminate.
  - split; vm_compute; discriminate.
  - split; [exact Htime|]. apply Hpixel.
    + apply (pow2_le (-1000) 1). lia.
    + split; discriminate.
Defined.

(** On binary64 values no step of the round trip leaves the range of its
    inputs: the quotients stay in [0, 1], the pixel in [0, width] and the
    time in [0, duration], so that nothing overflows. *)
Lemma round_trip_in_range (duration width t : Q) :
  (binary64 duration == duration)%Q -> (binary64 width == width)%Q ->
  (0 < duration)%Q -> (0 < width)%Q -> (0 <= t <= duration)%Q ->
  exists p t' : Q,
    timeToPixel binary64 duration width t = Some p /\
    pixelToTime binary64 duration width p = Some t' /\
    (0 <= binary64 (t / duration) <= 1)%Q /\ (0 <= p <= width)%Q /\
    (0 <= binary64 (p / width) <= 1)%Q /\ (0 <= t' <= duration)%Q.
Proof.
  intros Hdd Hdw Hd Hw Ht.
  unfold timeToPixel, pixelToTime. rewrite quotient_Some by done.
  cbn [mbind option_bind]. eexists _, _. split; [reflexivity|].
  rewrite quotient_Some by done. cbn [mbind option_bind]. split; [reflexivity|].
  assert (E1 : (binary64 1 == 1)%Q) by reflexivity.
  assert (Hx1 : (0 <= t / duration <= 1)%Q).
  { split; [apply Qle_shift_div_l | apply Qle_shift_div_r]; lra. }
  assert (Ha : (0 <= binary64 (t / duration) <= 1)%Q).
  { split; [apply binary64_nonneg; lra|]. rewrite <- E1. apply binary64_mono. lra. }
  set (a := binary64 (t / duration)) in *.
  assert (Hx2 : (0 <= a * width <= width)%Q).
  { split; [apply Qmult_le_0_compat; lra|].
    rewrite <- (Qmult_1_l width) at 2. apply Qmult_le_compat_r; lra. }
  assert (Hp : (0 <= binary64 (a * width) <= width)%Q).
  { split; [apply binary64_nonneg; lra|]. rewrite <- Hdw at 2.
    apply binary64_mono. lra. }
  set (p := binary64 (a * width)) in *.
  assert (Hx3 : (0 <= p / width <= 1)%Q).
  { split; [apply Qle_shift_div_l | apply Qle_shift_div_r]; lra. }
  assert (Hb : (0 <= binary64 (p / width) <= 1)%Q).
  { split; [apply binary64_nonneg; lra|]. rewrite <- E1. apply binary64_mono. lra. }
  set (b := binary64 (p / width)) in *.
  assert (Hx4 : (0 <= b * duration <= duration)%Q).
  { split; [apply Qmult_le_0_compat; lra|].
    rewrite <- (Qmult_1_l duration) at 2. apply Qmult_le_compat_r; lra. }
  repeat split; try lra.
  - apply binary64_nonneg. lra.
  - rewrite <- Hdd at 2. apply binary64_mono. lra.
Qed.

(** An example on binary64 values: 1.3 seconds of 2 at a width of 800. *)
Lemma pixel_time_binary64 :
  timeToPixel binary64 2 800 (binary64 (13 # 10)) = Some 520%Q /\
  pixelToTime binary64 2 800 520 = Some (binary64 (13 # 10)).
Proof. split; vm_compute; reflexivity. Qed.

(** ** The selection *)

Lemma findSegment_Some (transcript : list TranscriptSegment) (v : Z) :
  (exists s : TranscriptSegment, s ∈ transcript /\ id s = v) ->
  exists s : TranscriptSegment,
    findSegment transcript (Some v) = Some s /\ s ∈ transcript /\ id s = v.
Proof.
  intros (s & Hs & Hv). unfold findSegment.
  destruct (List.find _ transcript) as [s'|] eqn:Hf.
  - apply find_some in Hf as [Hin Hb]. apply bool_decide_eq_true in Hb.
    exists s'. split; [done|]. split; [by apply list_elem_of_In | congruence].
  - exfalso. apply list_elem_of_In in Hs.
    pose proof (find_none _ _ Hf s Hs) as Hb. cbn beta in Hb.
    apply bool_decide_eq_false in Hb. congruence.
Qed.

(** The selection only ever holds identifiers of the transcript: a click
    is on a rendered segment, and each of the three branches keeps the
    set within the transcript. *)
Lemma handleSegmentClick_ids (transcript : list TranscriptSegment)
    (selectedSegmentIds : list Z) (id_ : Z) (e : MouseEvent) :
  (exists s : TranscriptSegment, s ∈ transcript /\ id s = id_) ->
  (forall i : Z, i ∈ selectedSegmentIds ->
     exists s : TranscriptSegment, s ∈ transcript /\ id s = i) ->
  forall i : Z, i ∈ handleSegmentClick transcript selectedSegmentIds id_ e ->
    exists s : TranscriptSegment, s ∈ transcript /\ id s = i.
Proof.
  intros Hid Hsel i. unfold handleSegmentClick.
  destruct (shiftKey e).
  - destruct (last selectedSegmentIds) as [lastId|].
    + generalize (Z.min lastId id_) (Z.max lastId id_). intros lo hi.
      assert (Hgen : forall (l : list TranscriptSegment) (acc : list Z),
                (forall s, s ∈ l -> s ∈ transcript) ->
                (forall j, j ∈ acc -> exists s, s ∈ transcript /\ id s = j) ->
                i ∈ foldl (fun range t =>
                             if (lo <=? id t) && (id t <=? hi)
                             then set_add (id t) range else range) acc l ->
                exists s, s ∈ transcript /\ id s = i).
      { induction l as [|t l IH]; intros acc Hl Hacc Hi; cbn [foldl] in Hi.
        - by apply Hacc.
        - apply IH in Hi; [done | |].
          + intros s Hs. apply Hl. by apply list_elem_of_further.
          + intros j Hj. destruct ((lo <=? id t) && (id t <=? hi)); [|by apply Hacc].
            unfold set_add in Hj. destruct (decide (id t ∈ acc)); [by apply Hacc|].
            apply elem_of_app in Hj as [Hj|Hj]; [by apply Hacc|].
            apply list_elem_of_singleton in Hj as ->.
            exists t. split; [|done]. apply Hl, list_elem_of_here. }
      apply Hgen; [done|]. intros j Hj. by apply elem_of_nil in Hj.
    + intros Hi. apply list_elem_of_singleton in Hi as ->. done.
  - destruct (metaKey e || ctrlKey e).
    + destruct (decide (id_ ∈ selectedSegmentIds)).
      * unfold set_delete. intros Hi. apply list_elem_of_filter in Hi as [_ Hi].
        by apply Hsel.
      * unfold set_add. rewrite decide_False by done. intros Hi.
        apply elem_of_app in Hi as [Hi|Hi]; [by apply Hsel|].
        apply list_elem_of_singleton in Hi as ->. done.
    + intros Hi. apply list_elem_of_singleton in Hi as ->. done.
Qed.

Lemma sorted_first (l : list Z) (a : Z) :
  StronglySorted Z.le l -> l !! 0%nat = Some a -> forall x : Z, x ∈ l -> a <= x.
Proof.
  intros Hs Ha x Hx. destruct l as [|y l]; [done|]. injection Ha as ->.
  apply StronglySorted_inv in Hs as [_ Hall].
  apply elem_of_cons in Hx as [->|Hx]; [lia|].
  by apply (proj1 (Forall_forall _ _) Hall).
Qed.

Lemma sorted_last (l : list Z) (b : Z) :
  StronglySorted Z.le l -> l !! (length l - 1)%nat = Some b ->
  forall x : Z, x ∈ l -> x <= b.
Proof.
  induction l as [|y l IH]; intros Hs Hb x Hx; [done|].
  apply StronglySorted_inv in Hs as [Hs Hall].
  destruct l as [|z l].
  - injection Hb as <-. apply list_elem_of_singleton in Hx. lia.
  - cbn [length] in Hb. replace (S (S (length l)) - 1)%nat with (S (length (z :: l) - 1)) in Hb
      by (cbn [length]; lia).
    cbn [lookup list_lookup] in Hb.
    assert (Hbin : b ∈ z :: l) by (by eapply list_elem_of_lookup_2).
    apply elem_of_cons in Hx as [->|Hx].
    + by apply (proj1 (Forall_forall _ _) Hall).
    + by apply IH.
Qed.

(** What [foldl Qmin] and [foldl Qmax] find: an element of the list that
    bounds the others. *)
Lemma foldl_Qmin_spec (l : list Q) (x : Q) :
  foldl Qmin x l ∈ x :: l /\ forall y : Q, y ∈ x :: l -> (foldl Qmin x l <= y)%Q.
Proof.
  revert x. induction l as [|z l IH]; intros x; cbn [foldl].
  - split; [apply list_elem_of_here|].
    intros y Hy. apply list_elem_of_singleton in Hy as ->. apply Qle_refl.
  - destruct (IH (Qmin x z)) as [Hin Hle].
    assert (Hxz : Qmin x z = x \/ Qmin x z = z).
    { unfold Qmin, GenericMinMax.gmin. destruct (x ?= z)%Q; auto. }
    split.
    + apply elem_of_cons in Hin as [->|Hin].
      * destruct Hxz as [->| ->];
          [apply list_elem_of_here | apply list_elem_of_further, list_elem_of_here].
      * by do 2 apply list_elem_of_further.
    + intros y Hy.
      assert (Hm : (foldl Qmin (Qmin x z) l <= Qmin x z)%Q)
        by apply Hle, list_elem_of_here.
      apply elem_of_cons in Hy as [->|Hy].
      { eapply Qle_trans; [exact Hm | apply Q.le_min_l]. }
      apply elem_of_cons in Hy as [->|Hy].
      { eapply Qle_trans; [exact Hm | apply Q.le_min_r]. }
      by apply Hle, list_elem_of_further.
Qed.

Lemma foldl_Qmax_spec (l : list Q) (x : Q) :
  foldl Qmax x l ∈ x :: l /\ forall y : Q, y ∈ x :: l -> (y <= foldl Qmax x l)%Q.
Proof.
  revert x. induction l as [|z l IH]; intros x; cbn [foldl].
  - split; [apply list_elem_of_here|].
    intros y Hy. apply list_elem_of_singleton in Hy as ->. apply Qle_refl.
  - destruct (IH (Qmax x z)) as [Hin Hle].
    assert (Hxz : Qmax x z = x \/ Qmax x z = z).
    { unfold Qmax, GenericMinMax.gmax. destruct (x ?= z)%Q; auto. }
    split.
    + apply elem_of_cons in Hin as [->|Hin].
      * destruct Hxz as [->| ->];
          [apply list_elem_of_here | apply list_elem_of_further, list_elem_of_here].
      * by do 2 apply list_elem_of_further.
    + intros y Hy.
      assert (Hm : (Qmax x z <= foldl Qmax (Qmax x z) l)%Q)
        by apply Hle, list_elem_of_here.
      apply elem_of_cons in Hy as [->|Hy].
      { eapply Qle_trans; [apply Q.le_max_l | exact Hm]. }
      apply elem_of_cons in Hy as [->|Hy].
      { eapply Qle_trans; [apply Q.le_max_r | exact Hm]. }
      by apply Hle, list_elem_of_further.
Qed.

(** C8, amended.  The range is recomputed from the selection alone: none
    for an empty selection; otherwise, the selected identifiers being
    those of transcript segments, it runs from the start of the first
    segment of least identifier to the end of the first segment of
    greatest identifier, whatever the range was before.  On a transcript
    whose times grow with the identifiers this is the least start and the
    greatest end of the selected segments. *)
Theorem selection_range (selectedSegmentIds : list Z)
    (transcript : list TranscriptSegment) (selectionRange : option TimeRange) :
  (selectedSegmentIds = [] ->
   updateSelectionRange selectedSegmentIds transcript selectionRange = None) /\
  (selectedSegmentIds <> [] ->
   (forall i : Z, i ∈ selectedSegmentIds ->
      exists s : TranscriptSegment, s ∈ transcript /\ id s = i) ->
   exists firstSeg lastSeg : TranscriptSegment,
     findSegment transcript (Some (id firstSeg)) = Some firstSeg /\
     findSegment transcript (Some (id lastSeg)) = Some lastSeg /\
     id firstSeg ∈ selectedSegmentIds /\ id lastSeg ∈ selectedSegmentIds /\
     (forall i : Z, i ∈ selectedSegmentIds -> id firstSeg <= i <= id lastSeg) /\
     updateSelectionRange selectedSegmentIds transcript selectionRange
     = Some {| range_start := start firstSeg; range_end := end_ lastSeg |} /\
     ((forall s s' : TranscriptSegment,
         s ∈ transcript -> s' ∈ transcript -> id s <= id s' ->
         (start s <= start s')%Q /\ (end_ s <= end_ s')%Q) ->
      exists r : TimeRange,
        spec_range selectedSegmentIds transcript = Some r /\
        (range_start r == start firstSeg)%Q /\ (range_end r == end_ lastSeg)%Q)).
Proof.
  split.
  - intros ->. reflexivity.
  - intros Hne Hids. unfold updateSelectionRange.
    destruct (decide (length selectedSegmentIds = 0%nat)) as [H0|_].
    { destruct selectedSegmentIds; [done | discriminate]. }
    set (ids := merge_sort Z.le selectedSegmentIds).
    assert (Hperm : ids ≡ₚ selectedSegmentIds) by apply merge_sort_Permutation.
    assert (Hsorted : StronglySorted Z.le ids).
    { apply StronglySorted_merge_sort; apply _. }
    assert (Hlen : (0 < length ids)%nat).
    { rewrite Hperm. destruct selectedSegmentIds; [done | cbn; lia]. }
    destruct (lookup_lt_is_Some_2 ids 0%nat Hlen) as [a Ha].
    destruct (lookup_lt_is_Some_2 ids (length ids - 1)%nat) as [b Hb]; [lia|].
    assert (Hain : a ∈ selectedSegmentIds).
    { rewrite <- Hperm. by eapply list_elem_of_lookup_2. }
    assert (Hbin : b ∈ selectedSegmentIds).
    { rewrite <- Hperm. by eapply list_elem_of_lookup_2. }
    destruct (findSegment_Some transcript a (Hids a Hain)) as (f & Hf & Hfin & Hfid).
    destruct (findSegment_Some transcript b (Hids b Hbin)) as (l & Hl & Hlin & Hlid).
    rewrite Ha, Hb, Hf, Hl. exists f, l.
    rewrite Hfid, Hlid.
    assert (Hlo : forall i : Z, i ∈ selectedSegmentIds -> a <= i).
    { intros i Hi. apply (sorted_first ids a Hsorted Ha). by rewrite Hperm. }
    assert (Hhi : forall i : Z, i ∈ selectedSegmentIds -> i <= b).
    { intros i Hi. apply (sorted_last ids b Hsorted Hb). by rewrite Hperm. }
    split; [done|]. split; [done|]. split; [done|]. split; [done|].
    split; [intros i Hi; split; [by apply Hlo | by apply Hhi]|].
    split; [done|].
    intros Hmono. unfold spec_range.
    assert (Hfsel : f ∈ selectedSegments selectedSegmentIds transcript).
    { apply list_elem_of_filter. by rewrite Hfid. }
    assert (Hlsel : l ∈ selectedSegments selectedSegmentIds transcript).
    { apply list_elem_of_filter. by rewrite Hlid. }
    destruct (selectedSegments selectedSegmentIds transcript) as [|s0 sel] eqn:Hsel.
    { by apply elem_of_nil in Hfsel. }
    eexists. split; [reflexivity|]. cbn [range_start range_end].
    assert (Hall : forall s : TranscriptSegment, s ∈ s0 :: sel ->
              s ∈ transcript /\ a <= id s <= b).
    { intros s Hs. rewrite <- Hsel in Hs. apply list_elem_of_filter in Hs as [Hi Hs].
      split; [done|]. split; [by apply Hlo | by apply Hhi]. }
    split.
    + destruct (foldl_Qmin_spec (start <$> sel) (start s0)) as [Hin Hle].
      apply Qle_antisym.
      * apply Hle. change (start s0 :: (start <$> sel)) with (start <$> s0 :: sel).
        by apply list_elem_of_fmap_2.
      * change (start s0 :: (start <$> sel)) with (start <$> s0 :: sel) in Hin.
        apply list_elem_of_fmap in Hin as (s & -> & Hs).
        destruct (Hall s Hs) as [Hst Hid]. apply (Hmono f s); [done | done | lia].
    + destruct (foldl_Qmax_spec (end_ <$> sel) (end_ s0)) as [Hin Hle].
      apply Qle_antisym.
      * change (end_ s0 :: (end_ <$> sel)) with (end_ <$> s0 :: sel) in Hin.
        apply list_elem_of_fmap in Hin as (s & -> & Hs).
        destruct (Hall s Hs) as [Hst Hid]. apply (Hmono s l); [done | done | lia].
      * apply Hle. change (end_ s0 :: (end_ <$> sel)) with (end_ <$> s0 :: sel).
        by apply list_elem_of_fmap_2.
Qed.

Lemma selection_range_witness :
  updateSelectionRange [3; 1] transcript3 None
  = Some {| range_start := 0; range_end := 7 # 2 |}.
Proof.
  destruct (selection_range [3; 1] transcript3 None) as [_ H].
  destruct H as (f & l & _ & _ & _ & _ & _ & He & _).
  - discriminate.
  - intros i Hi. apply elem_of_cons in Hi as [->|Hi].
    + exists {| id := 3; text := "three"; start := 2; end_ := 7 # 2 |}.
      split; [|reflexivity]. do 2 apply list_elem_of_further. apply list_elem_of_here.
    + apply list_elem_of_singleton in Hi as ->.
      exists {| id := 1; text := "one"; start := 0; end_ := 1 # 2 |}.
      split; [|reflexivity]. apply list_elem_of_here.
  - rewrite He. cbv in He. injection He as H1 H2.
    change (start f) with (let (_, _, s, _) := f in s).
    change (end_ l) with (let (_, _, _, e) := l in e).
    by rewrite <- H1, <- H2.
Defined.

(** C8 as stated fails: when the segment of least identifier is the later
    one, the range starts at 5 and ends at 1, where the least start is 0
    and the greatest end is 6. *)
Lemma selection_range_counterexample :
  updateSelectionRange [0; 1] crossed None
  = Some {| range_start := 5; range_end := 1 |} /\
  spec_range [0; 1] crossed = Some {| range_start := 0; range_end := 6 |}.
Proof. split; vm_compute; reflexivity. Qed.

(** ** Formatted times and the download name *)

Lemma Qtrunc_nonneg (x : Q) : (0 <= x)%Q -> Qtrunc x = Qfloor x.
Proof.
  intros Hx. rewrite Qtrunc_toward_zero. unfold toward_zero.
  destruct (Qlt_le_dec x 0) as [H|_]; [|done]. by apply Qlt_not_le in H.
Qed.

(** The remainder of a time that is not negative lies in [0, b). *)
Lemma remainder_range (a b : Q) :
  (0 <= a)%Q -> (0 < b)%Q -> (0 <= remainder a b < b)%Q.
Proof.
  intros Ha Hb. unfold remainder.
  assert (Hq : (0 <= a / b)%Q) by (apply Qle_shift_div_l; [done | lra]).
  rewrite Qtrunc_nonneg by done.
  pose proof (Qfloor_le (a / b)) as H1. pose proof (Qlt_floor (a / b)) as H2.
  rewrite inject_Z_plus in H2.
  assert (E : (a == b * (a / b))%Q).
  { field. intros E. rewrite E in Hb. by apply Qlt_irrefl in Hb. }
  set (n := inject_Z (Qfloor (a / b))) in *.
  split.
  - assert (b * n <= b * (a / b))%Q by (apply Qmult_le_l; done). lra.
  - assert (b * (a / b) < b * (n + inject_Z 1))%Q by (apply Qmult_lt_l; done).
    unfold inject_Z at 1 in H. lra.
Qed.

Lemma floor_range (x : Q) (a b : Z) :
  (inject_Z a <= x)%Q -> (x < inject_Z b)%Q -> a <= Qfloor x < b.
Proof.
  intros Ha Hb. split.
  - rewrite <- (Qfloor_Z a). by apply Qfloor_resp_le.
  - pose proof (Qfloor_le x) as H.
    assert (Hlt : (inject_Z (Qfloor x) < inject_Z b)%Q) by lra.
    by rewrite <- Zlt_Qlt in Hlt.
Qed.

Lemma secsOf_range (seconds : Q) : (0 <= seconds)%Q -> 0 <= secsOf seconds < 60.
Proof.
  intros Hs. unfold secsOf.
  destruct (remainder_range seconds 60 Hs) as [H1 H2]; [done|].
  by apply floor_range.
Qed.

Section Rounded.
Context (fl : Q -> Q) `{!Rounding fl}.

Lemma fl_between (x : Q) (a b : Z) :
  Z.abs a <= 2 ^ 53 -> Z.abs b <= 2 ^ 53 ->
  (inject_Z a <= x <= inject_Z b)%Q -> (inject_Z a <= fl x <= inject_Z b)%Q.
Proof.
  intros Ha Hb [H1 H2].
  rewrite <- (fl_int a), <- (fl_int b) by done.
  split; by apply fl_mono.
Qed.

Lemma msOf_range (seconds : Q) : (0 <= seconds)%Q -> 0 <= msOf fl seconds <= 100.
Proof.
  intros Hs. unfold msOf.
  destruct (remainder_range seconds 1 Hs) as [H1 H2]; [done|].
  destruct (fl_between (remainder seconds 1 * 100) 0 100) as [H3 H4].
  - vm_compute. discriminate.
  - vm_compute. discriminate.
  - unfold inject_Z. lra.
  - split.
    + rewrite <- (Qfloor_Z 0). by apply Qfloor_resp_le.
    + rewrite <- (Qfloor_Z 100). by apply Qfloor_resp_le.
Qed.

Lemma minsOf_nonneg (seconds : Q) : (0 <= seconds)%Q -> 0 <= minsOf fl seconds.
Proof.
  intros Hs. unfold minsOf. rewrite <- (Qfloor_Z 0). apply Qfloor_resp_le.
  rewrite <- (fl_int 0) by (vm_compute; discriminate).
  apply fl_mono. apply Qle_shift_div_l; [done | unfold inject_Z; lra].
Qed.
End Rounded.

(** Padding on the numbers the fields can hold. *)
Lemma padStart_small :
  forall n : Z, 0 <= n <= 100 ->
    padStart 2 "0" (toString n) = padded2 n /\
    (n < 100 -> padded2 n = two_digits n).
Proof.
  assert (Hall : forallb (fun k : nat =>
            String.eqb (padStart 2 "0" (toString (Z.of_nat k))) (padded2 (Z.of_nat k))
            && (negb (k <? 100)%nat
                || String.eqb (padded2 (Z.of_nat k)) (two_digits (Z.of_nat k))))
          (seq 0 101) = true) by (vm_compute; reflexivity).
  intros n Hn.
  assert (Hin : In (Z.to_nat n) (seq 0 101)) by (apply in_seq; lia).
  pose proof (proj1 (forallb_forall _ _) Hall _ Hin) as H. cbn beta in H.
  rewrite Z2Nat.id in H by lia.
  apply andb_prop in H as [H1 H2]. apply String.eqb_eq in H1.
  split; [done|]. intros Hlt.
  apply orb_prop in H2 as [H2|H2].
  - apply negb_true_iff, Nat.ltb_ge in H2. lia.
  - by apply String.eqb_eq.
Qed.

(** *** The fields of a formatted time *)

Lemma Qfloor_eq (x : Q) (n : Z) :
  (inject_Z n <= x)%Q -> (x < inject_Z (n + 1))%Q -> Qfloor x = n.
Proof.
  intros H1 H2. pose proof (floor_range x n (n + 1) H1 H2). lia.
Qed.

Lemma Qfloor_spec (x : Q) :
  (inject_Z (Qfloor x) <= x)%Q /\ (x < inject_Z (Qfloor x) + 1)%Q.
Proof.
  split; [apply Qfloor_le|]. pose proof (Qlt_floor x) as H.
  by rewrite inject_Z_plus in H.
Qed.

Lemma Qfloor_div60 (t : Q) : Qfloor (t / 60) = Qfloor t / 60.
Proof.
  destruct (Qfloor_spec t) as [H1 H2].
  pose proof (Z.div_mod (Qfloor t) 60 ltac:(lia)) as Hdm.
  pose proof (Z.mod_pos_bound (Qfloor t) 60 ltac:(lia)) as Hm.
  set (q := Qfloor t / 60) in *. set (r := Qfloor t mod 60) in *.
  apply Qfloor_eq.
  - apply Qle_shift_div_l; [reflexivity|].
    apply Qle_trans with (inject_Z (Qfloor t)); [|done].
    change 60%Q with (inject_Z 60). rewrite <- inject_Z_mult, <- Zle_Qle. lia.
  - apply Qlt_shift_div_r; [reflexivity|].
    apply Qlt_le_trans with (inject_Z (Qfloor t) + 1)%Q; [done|].
    change 60%Q with (inject_Z 60). change 1%Q with (inject_Z 1).
    rewrite <- inject_Z_plus, <- inject_Z_mult, <- Zle_Qle. lia.
Qed.

Lemma secsOf_seconds (t : Q) : (0 <= t)%Q -> secsOf t = seconds t.
Proof.
  intros Ht. unfold secsOf, seconds, remainder.
  assert (Hq : (0 <= t / 60)%Q) by (apply Qle_shift_div_l; [done | lra]).
  rewrite Qtrunc_nonneg by done. rewrite Qfloor_div60.
  destruct (Qfloor_spec t) as [H1 H2].
  pose proof (Z.div_mod (Qfloor t) 60 ltac:(lia)) as Hdm.
  set (q := Qfloor t / 60) in *. 
  apply Qfloor_eq.
  - assert (E : (inject_Z (Qfloor t mod 60) == inject_Z (Qfloor t) - 60 * inject_Z q)%Q).
    { change 60%Q with (inject_Z 60). rewrite <- inject_Z_mult.
      unfold Qminus. rewrite <- inject_Z_opp, <- inject_Z_plus.
      apply inject_Z_injective. lia. }
    rewrite E. lra.
  - assert (E : (inject_Z (Qfloor t mod 60 + 1) == inject_Z (Qfloor t) + 1 - 60 * inject_Z q)%Q).
    { change 60%Q with (inject_Z 60). change 1%Q with (inject_Z 1).
      rewrite <- inject_Z_mult.
      unfold Qminus. rewrite <- inject_Z_opp, <- !inject_Z_plus.
      apply inject_Z_injective. lia. }
    rewrite E. lra.
Qed.

(** *** Values of binary64 *)

(** A positive binary64 value is a whole number of units of its
    exponent. *)
Lemma double_grid (t : Q) :
  (0 < t)%Q -> (binary64 t == t)%Q ->
  exists k : Z,
    (t == inject_Z k * 2 ^ (Z.max (ilog2 t) (-1022) - 52))%Q.
Proof.
  intros Ht Hd. unfold binary64 in Hd.
  destruct (Qcompare_spec t 0) as [H|H|H]; [lra | lra |].
  rewrite binary64_pos_eq in Hd. eexists. symmetry. exact Hd.
Qed.

(** Below an integer, a binary64 value stays one part in 2^53 away from
    it. *)
Lemma double_below_int (t : Q) (N : Z) :
  (binary64 t == t)%Q -> (0 <= t)%Q -> (t < 2 ^ 53)%Q -> (t < inject_Z N)%Q ->
  (t <= inject_Z N * (1 - (1 # 9007199254740992)))%Q.
Proof.
  intros Hd H0 H53 HN.
  assert (HN1 : 1 <= N).
  { assert (H : (inject_Z 0 < inject_Z N)%Q) by (unfold inject_Z at 1; lra).
    rewrite <- Zlt_Qlt in H. lia. }
  assert (HNq : (1 <= inject_Z N)%Q).
  { change 1%Q with (inject_Z 1). by rewrite <- Zle_Qle. }
  destruct (Qlt_le_dec t (1 # 2)) as [Hsmall|Hbig]; [lra|].
  assert (Ht : (0 < t)%Q) by lra.
  destruct (ilog2_spec t Ht) as [E1 E2].
  set (e := ilog2 t) in *.
  assert (He1 : -1 <= e).
  { change (-1) with (ilog2 (1 # 2)). apply ilog2_mono; [reflexivity | done]. }
  assert (He2 : e <= 52).
  { assert (H : (2 ^ e < 2 ^ 53)%Q) by lra.
    apply Qpower_lt_compat_l_inv in H; [lia | reflexivity]. }
  destruct (double_grid t Ht Hd) as [k Hk]. fold e in Hk.
  rewrite Z.max_l in Hk by lia.
  set (P := 2 ^ (52 - e)).
  assert (HP : (inject_Z P == 2 ^ (52 - e))%Q).
  { unfold P. rewrite Zpower_Qpower by lia. reflexivity. }
  assert (HPpos : 0 < P) by (unfold P; apply Z.pow_pos_nonneg; lia).
  assert (Hu : (2 ^ (e - 52) * inject_Z P == 1)%Q).
  { rewrite HP, <- Qpower_plus by discriminate.
    replace (e - 52 + (52 - e)) with 0 by lia. reflexivity. }
  assert (Hte : (2 ^ e * inject_Z P == inject_Z (2 ^ 52))%Q).
  { rewrite HP, <- Qpower_plus by discriminate.
    replace (e + (52 - e)) with 52 by lia. reflexivity. }
  assert (HtP : (t * inject_Z P == inject_Z k)%Q).
  { rewrite Hk. rewrite <- Qmult_assoc, Hu. ring. }
  assert (HPq : (0 < inject_Z P)%Q).
  { change 0%Q with (inject_Z 0). by rewrite <- Zlt_Qlt. }
  assert (Hk1 : k < 2 ^ 53).
  { assert (H : (t * inject_Z P < 2 * 2 ^ e * inject_Z P)%Q)
      by (apply Qmult_lt_compat_r; done).
    rewrite HtP, <- Qmult_assoc, Hte in H.
    change 2%Q with (inject_Z 2) in H. rewrite <- inject_Z_mult in H.
    rewrite <- Zlt_Qlt in H. lia. }
  assert (Hk2 : k < N * P).
  { assert (H : (t * inject_Z P < inject_Z N * inject_Z P)%Q)
      by (apply Qmult_lt_compat_r; done).
    rewrite HtP, <- inject_Z_mult in H. by rewrite <- Zlt_Qlt in H. }
  assert (Hint : 2 ^ 53 * k <= N * P * (2 ^ 53 - 1)).
  { destruct (Z.le_gt_cases (N * P) (2 ^ 53)) as [Hc|Hc]; [nia|].
    assert (0 <= (2 ^ 53 - 1) * (N * P - 2 ^ 53)) by nia. nia. }
  apply Qmult_le_r with (inject_Z P); [done|].
  rewrite HtP.
  assert (Hq : (inject_Z (2 ^ 53) * inject_Z k
                <= inject_Z N * inject_Z P * (inject_Z (2 ^ 53) - 1))%Q).
  { change 1%Q with (inject_Z 1). unfold Qminus.
    rewrite <- inject_Z_opp, <- inject_Z_plus, <- !inject_Z_mult, <- Zle_Qle.
    lia. }
  change (inject_Z (2 ^ 53)) with (9007199254740992 # 1)%Q in Hq.
  set (kq := inject_Z k) in *. set (Nq := inject_Z N) in *. set (Pq := inject_Z P) in *.
  assert (Hdiv : (kq <= Nq * Pq * ((9007199254740992 # 1) - 1) * (1 # 9007199254740992))%Q).
  { apply Qmult_le_l with (9007199254740992 # 1)%Q; [reflexivity|].
    eapply Qle_trans; [exact Hq|]. apply Qle_lteq. right. field. }
  eapply Qle_trans; [exact Hdiv|]. apply Qle_lteq. right. field.
Qed.

(** From 1/2 on, rounding to nearest adds at most one part in 2^53. *)
Lemma binary64_above (x : Q) :
  (1 # 2 <= x)%Q -> (binary64 x <= x * (1 + (1 # 9007199254740992)))%Q.
Proof.
  intros Hx.
  assert (Ea : (Qabs x == x)%Q) by (apply Qabs_pos; lra).
  pose proof (binary64_error x) as He. rewrite Ea in He.
  assert (Hmin : (2 ^ (-1022) <= x)%Q).
  { apply Qle_trans with (2 ^ (-1))%Q; [apply pow2_le; lia | exact Hx]. }
  specialize (He Hmin). apply Qabs_Qle_condition in He as [_ He].
  assert (E53 : (2 ^ (-53) == 1 # 9007199254740992)%Q) by reflexivity.
  rewrite E53 in He. lra.
Qed.

(** Below an integer [m], the rounded value of a number at most
    [m (1 - 2^-53)] stays below [m]. *)
Lemma binary64_below_int (x : Q) (m : Z) :
  1 <= m -> (0 <= x)%Q ->
  (x <= inject_Z m * (1 - (1 # 9007199254740992)))%Q ->
  (binary64 x < inject_Z m)%Q.
Proof.
  intros Hm H0 Hx.
  assert (Hmq : (1 <= inject_Z m)%Q).
  { change 1%Q with (inject_Z 1). by rewrite <- Zle_Qle. }
  destruct (Qlt_le_dec x (1 # 2)) as [Hs|Hb].
  - apply Qle_lt_trans with (binary64 (1 # 2)).
    + apply binary64_mono. lra.
    + assert (E : (binary64 (1 # 2) == 1 # 2)%Q) by reflexivity.
      rewrite E. lra.
  - eapply Qle_lt_trans; [by apply binary64_above|].
    set (M := inject_Z m) in *.
    apply Qle_lt_trans
      with (M * (1 - (1 # 9007199254740992)) * (1 + (1 # 9007199254740992)))%Q.
    + apply Qmult_le_compat_r; [done | discriminate].
    + assert (E : (M * (1 - (1 # 9007199254740992)) * (1 + (1 # 9007199254740992))
                   == M - M * ((1 # 9007199254740992) * (1 # 9007199254740992)))%Q)
        by ring.
      rewrite E.
      assert (0 < M * ((1 # 9007199254740992) * (1 # 9007199254740992)))%Q.
      { apply Qmult_lt_0_compat; [lra | reflexivity]. }
      lra.
Qed.

Lemma minsOf_minutes (t : Q) :
  (binary64 t == t)%Q -> (0 <= t)%Q -> (t < 2 ^ 53)%Q ->
  minsOf binary64 t = minutes t.
Proof.
  intros Hd H0 H53. unfold minsOf, minutes. rewrite <- Qfloor_div60.
  assert (Hq : (0 <= t / 60)%Q) by (apply Qle_shift_div_l; [done | lra]).
  destruct (Qfloor_spec (t / 60)) as [H1 H2].
  set (n := Qfloor (t / 60)) in *.
  assert (Hn0 : 0 <= n).
  { unfold n. rewrite <- (Qfloor_Z 0). by apply Qfloor_resp_le. }
  assert (Hn53 : n < 2 ^ 53).
  { assert (H : (inject_Z n < inject_Z (2 ^ 53))%Q).
    { eapply Qle_lt_trans; [exact H1|].
      apply Qlt_shift_div_r; [reflexivity|].
      change (inject_Z (2 ^ 53)) with (2 ^ 53)%Q.
      assert (0 < 2 ^ 53)%Q by reflexivity. lra. }
    by rewrite <- Zlt_Qlt in H. }
  apply Qfloor_eq.
  - rewrite <- (binary64_int n) by lia. by apply binary64_mono.
  - apply binary64_below_int; [lia | done |].
    apply Qle_shift_div_r; [reflexivity|].
    assert (Ht : (t < inject_Z (60 * (n + 1)))%Q).
    { rewrite inject_Z_mult, inject_Z_plus.
      change (inject_Z 60) with 60%Q. change (inject_Z 1) with 1%Q.
      assert (Et : (t == t / 60 * 60)%Q) by (field; discriminate).
      rewrite Et. lra. }
    pose proof (double_below_int t (60 * (n + 1)) Hd H0 H53 Ht) as Hb.
    rewrite inject_Z_mult in Hb. change (inject_Z 60) with 60%Q in Hb.
    lra.
Qed.

Lemma remainder_one (t : Q) :
  (0 <= t)%Q -> (remainder t 1 == t - inject_Z (Qfloor t))%Q.
Proof.
  intros Ht. unfold remainder.
  assert (E : (t / 1 == t)%Q) by (field).
  rewrite Qtrunc_nonneg by (rewrite E; done).
  rewrite (Qfloor_comp _ _ E). ring.
Qed.

Lemma binary64_eq (x y : Q) : (x == y)%Q -> (binary64 x == binary64 y)%Q.
Proof.
  intros E. apply Qle_antisym; apply binary64_mono; rewrite E; apply Qle_refl.
Qed.

Lemma msOf_hundredths (t : Q) :
  (binary64 t == t)%Q -> (0 <= t)%Q -> (t < 2 ^ 53)%Q ->
  hundredths_of t (msOf binary64 t).
Proof.
  intros Hd H0 H53. unfold msOf, hundredths_of.
  pose proof (remainder_one t H0) as Ef.
  destruct (Qfloor_spec t) as [T1 T2].
  set (f := remainder t 1) in *. set (n := Qfloor t) in *.
  assert (Hf0 : (0 <= f)%Q) by lra.
  assert (Hf1 : (f <= 1 - (1 # 9007199254740992))%Q).
  { assert (Ht : (t < inject_Z (n + 1))%Q).
    { rewrite inject_Z_plus. change (inject_Z 1) with 1%Q. done. }
    pose proof (double_below_int t (n + 1) Hd H0 H53 Ht) as Hb.
    rewrite inject_Z_plus in Hb. change (inject_Z 1) with 1%Q in Hb.
    assert (Hn : (0 <= inject_Z n)%Q).
    { change 0%Q with (inject_Z 0). rewrite <- Zle_Qle. unfold n.
      rewrite <- (Qfloor_Z 0). by apply Qfloor_resp_le. }
    assert (0 <= inject_Z n * (1 # 9007199254740992))%Q
      by (apply Qmult_le_0_compat; [done | discriminate]).
    lra. }
  destruct (Qfloor_spec (f * 100)) as [G1 G2].
  set (g := Qfloor (f * 100)) in *.
  assert (Hg0 : 0 <= g).
  { unfold g. rewrite <- (Qfloor_Z 0). apply Qfloor_resp_le. unfold inject_Z. lra. }
  assert (Hg99 : g <= 99).
  { assert (H : (inject_Z g < inject_Z 100)%Q) by (unfold inject_Z at 2; lra).
    rewrite <- Zlt_Qlt in H. lia. }
  assert (Hh : hundredths t = g).
  { unfold hundredths.
    assert (Hfl : Qfloor (t * 100) = 100 * n + g).
    { apply Qfloor_eq.
      - rewrite inject_Z_plus, inject_Z_mult. change (inject_Z 100) with 100%Q. lra.
      - rewrite !inject_Z_plus, inject_Z_mult. change (inject_Z 100) with 100%Q.
        change (inject_Z 1) with 1%Q. lra. }
    rewrite Hfl. rewrite Z.add_comm, Z.mul_comm, Z.mod_add by lia.
    apply Z.mod_small. lia. }
  set (H := Qfloor (binary64 (f * 100))).
  assert (HgH : g <= H).
  { unfold H. rewrite <- (Qfloor_Z g). apply Qfloor_resp_le.
    rewrite <- (binary64_int g) by lia. by apply binary64_mono. }
  assert (Hlt : (binary64 (f * 100) < inject_Z 100)%Q).
  { apply binary64_below_int; [lia | lra |].
    change (inject_Z 100) with 100%Q. lra. }
  assert (HH99 : H <= 99).
  { pose proof (Qfloor_le (binary64 (f * 100))) as Hle. fold H in Hle.
    assert (Hq : (inject_Z H < inject_Z 100)%Q) by lra.
    rewrite <- Zlt_Qlt in Hq. lia. }
  split; [lia|]. split.
  - destruct (Qlt_le_dec (f * 100) (1 # 2)) as [Hs|Hb].
    + assert (HH0 : H <= 0).
      { unfold H. change 0 with (Qfloor (binary64 (1 # 2))).
        apply Qfloor_resp_le, binary64_mono. lra. }
      replace H with 0 by lia. 
      apply Qmult_le_0_compat; lra.
    + apply Qle_trans with (binary64 (f * 100)); [apply Qfloor_le|].
      eapply Qle_trans; [by apply binary64_above|].
      apply Qmult_le_compat_r; lra.
  - intros [z Hz]. rewrite Hh.
    assert (Ew : (f * 100 == inject_Z (z - 100 * n))%Q).
    { unfold Z.sub. rewrite inject_Z_plus, inject_Z_opp, inject_Z_mult.
      change (inject_Z 100) with 100%Q. lra. }
    assert (Eg : g = z - 100 * n).
    { unfold g. rewrite (Qfloor_comp _ _ Ew). apply Qfloor_Z. }
    unfold H. rewrite (Qfloor_comp _ _ (binary64_eq _ _ Ew)).
    rewrite <- Eg. rewrite (Qfloor_comp _ _ (binary64_int g ltac:(lia))).
    apply Qfloor_Z.
Qed.

(** [formatTime] on a binary64 time below 2^53 seconds. *)
Lemma formatTime_rendered (t : Q) :
  (binary64 t == t)%Q -> (0 <= t)%Q -> (t < 2 ^ 53)%Q ->
  formatTime binary64 t = rendered t (msOf binary64 t).
Proof.
  intros Hd H0 H53. unfold formatTime, rendered. cbn zeta.
  change (toString (minsOf binary64 t)) with (pretty (minsOf binary64 t)).
  rewrite minsOf_minutes, secsOf_seconds by done.
  pose proof (Z.mod_pos_bound (Qfloor t) 60 ltac:(lia)) as Hsec.
  fold (seconds t) in Hsec.
  destruct (msOf_hundredths t Hd H0 H53) as [Hms _].
  assert (Hh0 : 0 <= hundredths t).
  { unfold hundredths. apply Z.mod_pos_bound. lia. }
  destruct (padStart_small (seconds t) ltac:(lia)) as [E1 E2].
  destruct (padStart_small (msOf binary64 t) ltac:(lia)) as [E3 E4].
  rewrite E1, E2, E3, E4 by lia. reflexivity.
Qed.

(** C9, amended.  For a selection range that is extracted, with binary64
    times from 0 to below 2^53 seconds, the download is named
    [clip_<start>-<end>.wav], each time rendered as
    [minutes:seconds.hundredths]: the whole minutes in decimal, the
    seconds left in the minute on two digits, and on two digits the
    hundredths of the time rounded down, or one more when the fraction of
    the time is within one part in 2^53 below that next hundredth. *)
Theorem download_name (audioBuffer : AudioBuffer) (start end_ : Q)
    (blob : Blob) :
  (binary64 start == start)%Q -> (binary64 end_ == end_)%Q ->
  (0 <= start)%Q -> (start < 2 ^ 53)%Q ->
  (0 <= end_)%Q -> (end_ < 2 ^ 53)%Q ->
  Extended.extractClip binary64 audioBuffer
    (Extended.Finite start) (Extended.Finite end_) = Ok blob ->
  exists hs he : Z,
    handleExtract binary64 (Some audioBuffer) (Some (start, end_))
    = Download blob
        ("clip_" +:+ rendered start hs +:+ "-" +:+ rendered end_ he +:+ ".wav") /\
    hundredths_of start hs /\ hundredths_of end_ he.
Proof.
  intros Hds Hde Hs0 Hs53 He0 He53 Hb.
  exists (msOf binary64 start), (msOf binary64 end_).
  split; [|split; by apply msOf_hundredths].
  unfold handleExtract. rewrite Hb.
  by rewrite !formatTime_rendered by done.
Qed.

Lemma download_name_witness :
  exists blob : Blob,
    handleExtract binary64 (Some two_seconds) (Some (1 # 2, 5 # 4)%Q)
    = Download blob "clip_0:00.50-0:01.25.wav".
Proof.
  destruct (Extended_extractClip_cases binary64 two_seconds
              (Extended.Finite (1 # 2)) (Extended.Finite (5 # 4)))
    as [[H _]|[(_ & H & _)|(_ & _ & blob & Hb)]].
  - vm_compute in H. discriminate.
  - vm_compute in H. exfalso. exact (H _ eq_refl).
  - exists blob.
    destruct (download_name two_seconds (1 # 2) (5 # 4) blob)
      as (hs & he & Hd & (_ & _ & Hhs) & (_ & _ & Hhe)).
    + vm_compute. reflexivity.
    + vm_compute. reflexivity.
    + discriminate.
    + reflexivity.
    + discriminate.
    + reflexivity.
    + exact Hb.
    + rewrite Hd. rewrite Hhs by (exists 50; reflexivity).
      rewrite Hhe by (exists 125; reflexivity). reflexivity.
Defined.

(** The binary64 value of the literal 5.3 is the multiple of 2^-50 nearest
    to 5.3, and lies below it. *)
Lemma five_point_three_nearest :
  binary64 (53 # 10) = five_point_three /\
  (five_point_three < 53 # 10)%Q /\
  forall m : Z,
    (Qabs (five_point_three - (53 # 10))
     <= Qabs ((m # 1125899906842624) - (53 # 10)))%Q.
Proof.
  split; [vm_compute; reflexivity|]. split; [reflexivity|].
  intros m. unfold five_point_three, Qminus, Qplus, Qopp, Qabs, Qle.
  cbn [Qnum Qden]. lia.
Qed.

(** C9 as stated fails on its example: the number 5.3 renders as
    0:05.29, the binary64 product of its fraction by 100 being
    29.99...98; a time that is a whole number of hundredths in binary64,
    5.25, renders as written. *)
Lemma download_name_counterexample :
  formatTime binary64 (binary64 (53 # 10)) = "0:05.29" /\
  formatTime binary64 (binary64 (53 # 10)) <> "0:05.30" /\
  formatTime binary64 (21 # 4) = "0:05.25" /\
  formatTime binary64 12 = "0:12.00".
Proof.
  split; [vm_compute; reflexivity|]. split; [vm_compute; discriminate|].
  split; vm_compute; reflexivity.
Qed.

(** The hundredths are not always those of the binary64 time rounded
    down: the number 0.3 lies below 3/10, its hundredths rounded down are
    29, and the product of line 109 rounds to 30. *)
Lemma format_three_tenths :
  (binary64 (3 # 10) < 3 # 10)%Q /\
  hundredths (binary64 (3 # 10)) = 29 /\
  msOf binary64 (binary64 (3 # 10)) = 30 /\
  formatTime binary64 (binary64 (3 # 10)) = "0:00.30".
Proof.
  split; [reflexivity|]. repeat split; vm_compute; reflexivity.
Qed.

(** * Further properties *)

(** ** The encoder as a whole *)

Lemma le_bytes_range (n : nat) (v : Z) :
  Forall (fun b : Z => 0 <= b < 256) (le_bytes n v).
Proof.
  unfold le_bytes. apply Forall_fmap, Forall_forall. intros k _.
  cbn. apply Z.mod_pos_bound. lia.
Qed.

Lemma Forall_flat_map {A B : Type} (P : B -> Prop) (f : A -> list B) (l : list A) :
  (forall x : A, Forall P (f x)) -> Forall P (flat_map f l).
Proof.
  intros Hf. induction l as [|x l IH]; cbn [flat_map]; [constructor|].
  apply Forall_app. by split.
Qed.

Lemma header_range (abuffer : AudioBuffer) :
  Forall (fun b : Z => 0 <= b < 256) (header abuffer).
Proof.
  unfold header. cbn zeta.
  repeat (apply Forall_app; split); apply le_bytes_range.
Qed.


(** X1.  The encoder has no failure path: whatever the buffer holds
    (numbers outside [-1, 1], [NaN], channels shorter than the announced
    length), every write of the header and of the samples falls inside the
    [ArrayBuffer] allocated at line 53.  The result is a blob of type
    audio/wav with 44 bytes plus two per sample, each of them a byte. *)
Theorem encoder_never_fails (abuffer : AudioBuffer) :
  exists blob : Blob,
    bufferToWav abuffer = Ok blob /\
    type blob = "audio/wav" /\
    length (blobParts blob)
    = (44 + 2 * (bufferLength abuffer * numberOfChannels abuffer))%nat /\
    Forall (fun b : Z => 0 <= b < 256) (blobParts blob).
Proof.
  eexists. split; [apply bufferToWav_spec|]. cbn [type blobParts].
  split; [done|]. split.
  - rewrite !length_app, length_header, length_replicate.
    rewrite (flat_map_constant_length (c := (2 * numberOfChannels abuffer)%nat))
      by (intros; apply length_frameBytes).
    rewrite length_seq. nia.
  - apply Forall_app. split; [apply header_range|].
    apply Forall_app. split.
    + apply Forall_flat_map. intros p. unfold frameBytes.
      apply Forall_flat_map. intros i. apply le_bytes_range.
    + apply Forall_replicate. lia.
Qed.

(** X2.  The header read back.  For a buffer with at least one channel
    and an integer rate, each value fitting its field, a reader of the
    canonical header finds in the result the channel count, the rate and
    the frame count of the buffer, and 16 bits per sample; the size field
    of the container is the length of the result less 8. *)
Theorem header_round_trip (abuffer : AudioBuffer) (rate : Z) :
  let n := Z.of_nat (numberOfChannels abuffer) in
  let size := 44 + Z.of_nat (bufferLength abuffer) * n * 2 in
  sampleRate abuffer = inject_Z rate ->
  0 < n -> 0 <= rate < 2 ^ 32 -> rate * 2 * n < 2 ^ 32 -> n * 2 < 2 ^ 16 ->
  size < 2 ^ 32 ->
  exists blob : Blob,
    bufferToWav abuffer = Ok blob /\
    readHeader (blobParts blob)
    = Some {| wav_channels := n; wav_sampleRate := rate;
              wav_bitsPerSample := 16;
              wav_frames := Z.of_nat (bufferLength abuffer) |} /\
    getUint 4 (blobParts blob) 4 + 8 = Z.of_nat (length (blobParts blob)).
Proof.
  intros n size Hrate Hn H0 Hbr Hba Hlen.
  destruct (header_fields abuffer rate Hrate H0 Hbr Hba Hlen)
    as (blob & Hb & Hl & H1 & H2 & H3 & H4 & H5 & H6 & H7 & H8 & H9 & H10
        & H11 & H12).
  fold n in H6, H8, H9. fold size in Hl, H2, H12.
  exists blob. split; [done|]. split; [|lia].
  unfold readHeader. rewrite H1, H3, H5, H11, H6, H7, H10, H12, H9.
  rewrite !bool_decide_eq_true_2 by done. cbn [andb]. do 2 f_equal.
  match goal with |- ?a / ?b = ?c =>
    replace a with (c * b) by (unfold n; lia)
  end.
  apply Z.div_mul. lia.
Qed.

Lemma header_round_trip_witness :
  exists blob : Blob,
    bufferToWav stereo46 = Ok blob /\
    readHeader (blobParts blob)
    = Some {| wav_channels := 2; wav_sampleRate := 8000;
              wav_bitsPerSample := 16; wav_frames := 46 |}.
Proof.
  destruct (header_round_trip stereo46 8000) as (blob & Hb & Hr & _).
  - reflexivity.
  - cbn; lia.
  - cbn; lia.
  - cbn; lia.
  - cbn; lia.
  - cbn; lia.
  - exists blob. split; [exact Hb | exact Hr].
Defined.


(** X3.  Where the samples end up.  The loop of line 81 starts at frame
    44, the value the header left in [pos]: the sample of channel [i] at
    frame [p >= 44] is converted and stored as the sample of channel [i]
    of output frame [p - 44], and the last [min 44 length] frames of the
    output keep the zeros of the fresh buffer. *)
Theorem encoder_placement (abuffer : AudioBuffer) :
  exists blob : Blob,
    bufferToWav abuffer = Ok blob /\
    (forall (p i : nat) (s : Q),
       (44 <= p < bufferLength abuffer)%nat ->
       (i < numberOfChannels abuffer)%nat ->
       getChannelData abuffer i !! p = Some (Num s) ->
       getInt16 (blobParts blob)
         (44 + 2 * ((p - 44) * numberOfChannels abuffer + i))
       = truncated16 s) /\
    drop (44 + 2 * ((bufferLength abuffer - 44) * numberOfChannels abuffer))
      (blobParts blob)
    = replicate
        (2 * (Nat.min 44 (bufferLength abuffer) * numberOfChannels abuffer)) 0.
Proof.
  eexists. split; [apply bufferToWav_spec|]. split.
  - intros p i s Hp Hi Hs.
    destruct (bufferToWav_sample abuffer p i s Hp Hi Hs) as (blob & Hb & Hv).
    rewrite bufferToWav_spec in Hb. injection Hb as <-. exact Hv.
  - cbn [blobParts].
    rewrite <- drop_drop, drop_app_length' by (symmetry; apply length_header).
    rewrite drop_app_length'.
    + f_equal. lia.
    + rewrite (flat_map_constant_length (c := (2 * numberOfChannels abuffer)%nat))
        by (intros; apply length_frameBytes).
      rewrite length_seq. lia.
Qed.

Lemma encoder_placement_witness :
  exists blob : Blob,
    bufferToWav stereo46 = Ok blob /\
    getInt16 (blobParts blob) 48 = 32767 /\
    getInt16 (blobParts blob) 46 = -32768 /\
    drop 52 (blobParts blob) = replicate 176 0.
Proof.
  destruct (encoder_placement stereo46) as (blob & Hb & Hs & Hz).
  exists blob. split; [exact Hb|]. split; [|split].
  - apply (Hs 45%nat 0%nat 1%Q); [cbn; lia | cbn; lia | reflexivity].
  - apply (Hs 44%nat 1%nat (-1)%Q); [cbn; lia | cbn; lia | reflexivity].
  - exact Hz.
Defined.

(** ** The transfer curve of the sample conversion *)

Lemma toward_zero_mono (x y : Q) : (x <= y)%Q -> toward_zero x <= toward_zero y.
Proof.
  intros Hxy. unfold toward_zero.
  destruct (Qlt_le_dec x 0) as [Hx|Hx], (Qlt_le_dec y 0) as [Hy|Hy].
  - by apply Qceiling_resp_le.
  - apply Z.le_trans with 0.
    + change 0 with (Qceiling 0). apply Qceiling_resp_le. by apply Qlt_le_weak.
    + change 0 with (Qfloor 0). by apply Qfloor_resp_le.
  - lra.
  - by apply Qfloor_resp_le.
Qed.

Lemma clamped_mono (s t : Q) : (s <= t)%Q -> (clamped s <= clamped t)%Q.
Proof.
  intros H. unfold clamped.
  apply Q.max_le_compat_l, Q.min_le_compat_l, H.
Qed.

Lemma clamped_inside (s : Q) : (-1 <= s <= 1)%Q -> (clamped s == s)%Q.
Proof.
  intros [Hlo Hhi]. unfold clamped.
  rewrite (Q.min_r 1 s) by done. by apply Q.max_r.
Qed.

Lemma truncated16_mono (s t : Q) : (s <= t)%Q -> truncated16 s <= truncated16 t.
Proof.
  intros H. apply clamped_mono in H. unfold truncated16. cbn zeta.
  apply toward_zero_mono.
  destruct (Qlt_le_dec (clamped s) (- (1 # 2))) as [H1|H1],
           (Qlt_le_dec (clamped t) (- (1 # 2))) as [H2|H2]; lra.
Qed.

(** The integer part to which [toward_zero] sends [x] lies less than one
    away from it, on the side of zero. *)
Lemma toward_zero_near (x : Q) :
  ((0 <= x)%Q -> (x - 1 < inject_Z (toward_zero x) <= x)%Q) /\
  ((x <= 0)%Q -> (x <= inject_Z (toward_zero x) < x + 1)%Q).
Proof.
  unfold toward_zero.
  destruct (Qlt_le_dec x 0) as [Hx|Hx]; split; intros H0.
  - lra.
  - pose proof (Qle_ceiling x) as H1. pose proof (Qceiling_lt x) as H2.
    rewrite <- Z.add_opp_r, inject_Z_plus in H2.
    change (inject_Z (- (1))) with (- (1))%Q in H2.
    generalize dependent (inject_Z (Qceiling x)). intros c H1 H2. lra.
  - pose proof (Qfloor_le x) as H1. pose proof (Qlt_floor x) as H2.
    rewrite inject_Z_plus in H2. change (inject_Z 1) with 1%Q in H2.
    generalize dependent (inject_Z (Qfloor x)). intros c H1 H2. lra.
  - assert (Hz : (x == 0)%Q) by lra.
    assert (E : Qfloor x = 0).
    { rewrite (Qfloor_comp x 0 Hz). reflexivity. }
    rewrite E. change (inject_Z 0) with 0%Q. lra.
Qed.

(** X4.  The conversion of lines 84 to 86 preserves the order of the
    samples and saturates: a sample of 1 or more becomes 32767, a sample
    of -1 or less becomes -32768, and silence stays 0.  The change of
    scale at -1/2 does not break the order. *)
Theorem conversion_monotone (s t : Q) :
  ((s <= t)%Q ->
   -32768 <= scale16 (clamp (Num s)) <= scale16 (clamp (Num t)) /\
   scale16 (clamp (Num t)) <= 32767) /\
  ((1 <= s)%Q -> scale16 (clamp (Num s)) = 32767) /\
  ((s <= -1)%Q -> scale16 (clamp (Num s)) = -32768) /\
  scale16 (clamp (Num 0)) = 0.
Proof.
  destruct (scale16_clamp s) as [Es Hs], (scale16_clamp t) as [Et Ht].
  rewrite Es, Et. repeat split.
  - lia.
  - by apply truncated16_mono.
  - lia.
  - intros H1. unfold truncated16. cbn zeta.
    assert (Hc : (clamped s == 1)%Q).
    { unfold clamped. rewrite (Q.min_l 1 s) by done. by apply Q.max_r. }
    destruct (Qlt_le_dec (clamped s) (- (1 # 2))) as [H2|H2]; [lra|].
    destruct (toward_zero_bounds (clamped s * 32767) 32767 32767) as [A B];
      [unfold inject_Z; lra | lia].
  - intros H1. unfold truncated16. cbn zeta.
    assert (Hc : (clamped s == -1)%Q).
    { unfold clamped. apply Q.max_l.
      apply Qle_trans with s; [apply Q.le_min_r | done]. }
    destruct (Qlt_le_dec (clamped s) (- (1 # 2))) as [H2|H2]; [|lra].
    destruct (toward_zero_bounds (clamped s * 32768) (-32768) (-32768)) as [A B];
      [unfold inject_Z; lra | lia].
Qed.

Lemma conversion_monotone_witness :
  scale16 (clamp (Num (- (3 # 4)))) <= scale16 (clamp (Num (- (1 # 4)))) /\
  scale16 (clamp (Num (3 # 2))) = 32767 /\
  scale16 (clamp (Num (- (3 # 2)))) = -32768.
Proof.
  split; [|split].
  - apply (conversion_monotone (- (3 # 4)) (- (1 # 4))). vm_compute. discriminate.
  - apply (conversion_monotone (3 # 2) 0). vm_compute. discriminate.
  - apply (conversion_monotone (- (3 # 2)) 0). vm_compute. discriminate.
Defined.

(** X5.  Read back on the scale of 32768, as decoders of 16-bit PCM do,
    the stored value of a sample of [-1, 1] is less than 2/32768 away
    from the sample, and the distance can exceed 1/32768: the samples
    from -1/2 on are scaled by 32767, not by 32768. *)
Theorem conversion_error :
  (forall s : Q, (-1 <= s <= 1)%Q ->
     (Qabs (inject_Z (scale16 (clamp (Num s))) / 32768 - s) < 2 / 32768)%Q) /\
  (exists s : Q, (-1 <= s <= 1)%Q /\
     (1 / 32768 < Qabs (inject_Z (scale16 (clamp (Num s))) / 32768 - s))%Q).
Proof.
  split.
  - intros s Hs. destruct (scale16_clamp s) as [-> _].
    pose proof (clamped_inside s Hs) as Hc.
    unfold truncated16. cbn zeta.
    apply Qabs_Qlt_condition.
    unfold Qdiv. change (/ 32768)%Q with (1 # 32768)%Q.
    destruct (Qlt_le_dec (clamped s) (- (1 # 2))) as [H1|H1].
    + destruct (toward_zero_near (clamped s * 32768)) as [_ Hn].
      destruct Hn as [Ha Hb]; [lra|].
      generalize dependent (inject_Z (toward_zero (clamped s * 32768))).
      intros v Ha Hb. split; lra.
    + destruct (toward_zero_near (clamped s * 32767)) as [Hp Hn].
      generalize dependent (inject_Z (toward_zero (clamped s * 32767))).
      intros v Hp Hn.
      destruct (Qlt_le_dec (clamped s) 0) as [H0|H0].
      * destruct Hn as [Ha Hb]; [lra|]. split; lra.
      * destruct Hp as [Ha Hb]; [lra|]. split; lra.
  - exists (65535 # 65536). split; [split; discriminate|]. reflexivity.
Qed.

Lemma conversion_error_witness :
  (Qabs (inject_Z (scale16 (clamp (Num (1 # 3)))) / 32768 - (1 # 3)) < 2 / 32768)%Q.
Proof.
  apply (proj1 conversion_error (1 # 3)). split; discriminate.
Defined.

(** ** The extractor and the clip *)

(** A copy that starts inside the source: the frames from [s] on, then the
    zeros of the fresh channel. *)
Lemma copySegment_slice (cd : Float32Array) (s : Z) (n : nat) :
  0 <= s ->
  copySegment cd s n (replicate n zero)
  = take n (drop (Z.to_nat s) cd)
    ++ replicate (n - length (drop (Z.to_nat s) cd)) zero.
Proof.
  intros Hs. apply list_eq. intros j.
  destruct (decide (j < n)%nat) as [Hj|Hj].
  - rewrite copySegment_lookup by (by rewrite length_replicate).
    destruct (decide (Z.to_nat s + j < length cd)%nat) as [Hin|Hout].
    + rewrite decide_True by lia.
      rewrite lookup_app_l by (rewrite length_take, length_drop; lia).
      rewrite lookup_take_lt, lookup_drop by done.
      rewrite getIndex_inside by lia. f_equal. lia.
    + rewrite decide_False by lia.
      rewrite lookup_app_r by (rewrite length_take, length_drop; lia).
      rewrite lookup_replicate_2 by done. symmetry.
      apply lookup_replicate_2. rewrite length_take, length_drop. lia.
  - rewrite !(proj2 (lookup_ge_None _ _)); [done | |].
    + rewrite length_app, length_take, length_drop, length_replicate. lia.
    + rewrite copySegment_length, length_replicate. lia.
Qed.

Lemma AudioBuffer_eq (a b : AudioBuffer) :
  sampleRate a = sampleRate b -> bufferLength a = bufferLength b ->
  channelData a = channelData b -> a = b.
Proof. destruct a, b. cbn. by intros -> -> ->. Qed.

(** X6.  A range that evaluates to the frames from 0 to the length of the
    buffer gives the buffer back: same rate, same length, and every
    channel sample for sample, [NaN]s included. *)
Theorem extract_whole (fl : Q -> Q) (buffer : AudioBuffer)
    (startTime endTime : Q) :
  Forall (fun c => length c = bufferLength buffer) (channelData buffer) ->
  (0 < bufferLength buffer)%nat ->
  startSampleOf fl buffer startTime = 0 ->
  endSampleOf fl buffer endTime = Z.of_nat (bufferLength buffer) ->
  extractBuffer fl buffer startTime endTime = Ok buffer.
Proof.
  intros Hwf Hlen Hs He.
  assert (Hc : frameCountOf fl buffer startTime endTime
               = Z.of_nat (bufferLength buffer))
    by (unfold frameCountOf; lia).
  destruct (extractBuffer_Ok fl buffer startTime endTime)
    as (nb & Hnb & Hr & Hl & Hn & Hch); [lia|].
  rewrite Hnb. f_equal.
  rewrite Hc, Nat2Z.id in Hl, Hch. rewrite Hs in Hch.
  apply AudioBuffer_eq; [done | done |].
  apply list_eq. intros i.
  destruct (channelData buffer !! i) as [c|] eqn:Ei.
  - rewrite Hch by (by eapply lookup_lt_Some). f_equal.
    unfold getChannelData. rewrite Ei.
    rewrite copySegment_slice by done.
    change (Z.to_nat 0) with 0%nat. rewrite drop_0.
    pose proof (proj1 (Forall_lookup _ _) Hwf i c Ei) as Hci. cbn beta in Hci.
    rewrite take_ge by lia. rewrite Hci, Nat.sub_diag. apply app_nil_r.
  - apply lookup_ge_None. apply lookup_ge_None in Ei. lia.
Qed.

Lemma extract_whole_witness :
  extractBuffer binary64 four 0 (9 # 16384) = Ok four.
Proof.
  apply (extract_whole binary64 four 0 (9 # 16384)).
  - repeat constructor.
  - cbn. lia.
  - vm_compute. reflexivity.
  - vm_compute. reflexivity.
Defined.









(** ** The canvas *)

Section Canvas.
Context (fl : Q -> Q) `{!Rounding fl}.

Lemma fl_proper (x y : Q) : (x == y)%Q -> (fl x == fl y)%Q.
Proof.
  intros H. apply Qle_antisym; apply fl_mono; rewrite H; apply Qle_refl.
Qed.

Lemma fl_unit (x : Q) : (0 <= x <= 1)%Q -> (0 <= fl x <= 1)%Q.
Proof.
  intros H. apply (fl_between fl x 0 1); [vm_compute; discriminate.. | done].
Qed.

Lemma fl_zero (x : Q) : (x == 0)%Q -> (fl x == 0)%Q.
Proof.
  intros H. rewrite (fl_proper x 0 H).
  apply (fl_int 0). vm_compute. discriminate.
Qed.

Lemma ampOf_nonneg (height : Q) : (0 <= height)%Q -> (0 <= ampOf fl height)%Q.
Proof.
  intros H. unfold ampOf. rewrite <- (fl_zero 0) by reflexivity.
  apply fl_mono. apply Qle_shift_div_l; [reflexivity | lra].
Qed.

(** The ordinate of a value of [-1, 1] lies between 0 and [2 * amp], and
    grows with the value. *)
Lemma yOf_range (amp v : Q) :
  (0 <= amp)%Q -> (-1 <= v <= 1)%Q ->
  (0 <= fl (fl (1 + v) * amp) <= fl (2 * amp))%Q.
Proof.
  intros Ha Hv.
  destruct (fl_between fl (1 + v) 0 2) as [H0 H2];
    [vm_compute; discriminate.. | unfold inject_Z; lra |].
  unfold inject_Z in H0, H2. split.
  - rewrite <- (fl_zero 0) by reflexivity. apply fl_mono.
    by apply Qmult_le_0_compat.
  - apply fl_mono. by apply Qmult_le_compat_r.
Qed.

Lemma yOf_mono (amp u v : Q) :
  (0 <= amp)%Q -> (u <= v)%Q ->
  (fl (fl (1 + u) * amp) <= fl (fl (1 + v) * amp))%Q.
Proof.
  intros Ha Huv. apply fl_mono. apply Qmult_le_compat_r; [|done].
  apply fl_mono. lra.
Qed.

Lemma strokes_lookup (audioBuffer : AudioBuffer) (width : nat) (height : Q)
    (i : nat) :
  (i < width)%nat ->
  let data := getChannelData audioBuffer 0 in
  let mm := foldl scanValue (Num 1, Num (-1))
              (group data (stepOf (length data) width) i) in
  strokes fl audioBuffer width height !! i
  = Some (yOf fl (ampOf fl height) mm.1, yOf fl (ampOf fl height) mm.2).
Proof.
  intros Hi. cbn zeta. unfold strokes, downsample. cbn zeta.
  rewrite !list_lookup_fmap, lookup_seq_lt by done.
  cbn [fmap option_fmap option_map Nat.add]. by rewrite column_group.
Qed.
End Canvas.

(** X11.  The strokes of the waveform stay on the canvas.  With [amp]
    half the height, a column whose samples lie in [-1, 1] is drawn
    between the ordinates 0 and [2 * amp], its minimum above its maximum
    on the screen; a column past the end of the data, whose pair is the
    sentinel (1, -1), is a stroke over the full height. *)
Theorem strokes_in_canvas (fl : Q -> Q) `{!Rounding fl}
    (audioBuffer : AudioBuffer) (width : nat) (height : Q) :
  (0 <= height)%Q ->
  let data := getChannelData audioBuffer 0 in
  let step := stepOf (length data) width in
  let full := fl (2 * ampOf fl height)%Q in
  length (strokes fl audioBuffer width height) = width /\
  forall i : nat, (i < width)%nat ->
    exists y1 y2 : Q,
      strokes fl audioBuffer width height !! i = Some (Num y1, Num y2) /\
      (in_range (group data step i) ->
       (0 <= y1 <= full)%Q /\ (0 <= y2 <= full)%Q) /\
      (group data step i <> [] -> in_range (group data step i) ->
       (y1 <= y2)%Q) /\
      (group data step i = [] -> (y1 == full)%Q /\ (y2 == 0)%Q).
Proof.
  intros Hh data step full. split.
  { unfold strokes, downsample. cbn zeta.
    by rewrite !length_fmap, length_seq. }
  intros i Hi.
  pose proof (ampOf_nonneg fl height Hh) as Ha.
  rewrite (strokes_lookup fl audioBuffer width height i Hi). cbn zeta.
  fold data. fold step.
  destruct (scan_extrema (group data step i) 1 (-1))
    as (lo & hi & -> & Hlo1 & Hlo2 & Hlo3 & Hhi1 & Hhi2 & Hhi3).
  cbn [fst snd yOf plus times rounded].
  eexists _, _. split; [reflexivity|].
  assert (Hin : in_range (group data step i) ->
                (-1 <= lo <= 1)%Q /\ (-1 <= hi <= 1)%Q).
  { intros Hr. split.
    - destruct Hlo2 as [E|E].
      + injection E as ->. lra.
      + by apply (in_range_elem _ _ Hr).
    - destruct Hhi2 as [E|E].
      + injection E as ->. lra.
      + by apply (in_range_elem _ _ Hr). }
  split; [|split].
  - intros Hr. destruct (Hin Hr) as [Hl Hu].
    split; by apply yOf_range.
  - intros Hne Hr.
    destruct (group data step i) as [|x g] eqn:Eg; [done|].
    assert (Hx : x ∈ x :: g) by apply list_elem_of_here.
    destruct (proj1 (Forall_forall _ _) Hr x Hx) as (q & -> & _).
    apply (yOf_mono fl _ lo hi Ha).
    apply Qle_trans with q; [by apply Hlo3 | by apply Hhi3].
  - intros He. rewrite He in Hlo2, Hhi2.
    destruct Hlo2 as [E|E]; [|by apply elem_of_nil in E].
    destruct Hhi2 as [E'|E']; [|by apply elem_of_nil in E'].
    injection E as ->. injection E' as ->. split.
    + assert (E : (fl (1 + 1) == 2)%Q).
      { destruct (fl_between fl (1 + 1) 2 2) as [H1 H2];
          [vm_compute; discriminate.. | unfold inject_Z; lra |].
        unfold inject_Z in H1, H2. lra. }
      unfold full. apply (fl_proper fl). by rewrite E.
    + assert (E : (fl (1 + -1) == 0)%Q) by (by apply (fl_zero fl)).
      apply (fl_zero fl). rewrite E. ring.
Qed.

Lemma strokes_in_canvas_witness :
  exists y1 y2 : Q,
    strokes binary64 four 3 100 !! 2%nat = Some (Num y1, Num y2) /\
    (y1 == 100)%Q /\ (y2 == 0)%Q.
Proof.
  destruct (strokes_in_canvas binary64 four 3 100) as [_ H]; [discriminate|].
  destruct (H 2%nat) as (y1 & y2 & Hs & _ & _ & He); [lia|].
  exists y1, y2. split; [exact Hs|].
  destruct He as [E1 E2]; [vm_compute; reflexivity|].
  split; [|exact E2]. rewrite E1. vm_compute. reflexivity.
Defined.

Section Pixels.
Context (fl : Q -> Q) `{!Rounding fl}.

Lemma timeToPixel_Some (duration width t : Q) :
  (0 < duration)%Q ->
  timeToPixel fl duration width t = Some (fl (fl (t / duration) * width)).
Proof. intros Hd. unfold timeToPixel. by rewrite quotient_Some. Qed.

Lemma ratio_unit (a b : Q) : (0 < b)%Q -> (0 <= a <= b)%Q -> (0 <= fl (a / b) <= 1)%Q.
Proof.
  intros Hb [H0 H1]. apply (fl_unit fl). split.
  - apply (Qle_shift_div_l 0 a b Hb). lra.
  - apply (Qle_shift_div_r a b 1 Hb). lra.
Qed.

Lemma pixel_range (duration : Q) (width : Z) (t : Q) :
  (0 < duration)%Q -> 0 <= width <= 2 ^ 53 -> (0 <= t <= duration)%Q ->
  (0 <= fl (fl (t / duration) * inject_Z width) <= inject_Z width)%Q.
Proof.
  intros Hd Hw Ht.
  destruct (ratio_unit t duration Hd Ht) as [H0 H1].
  assert (Hw0 : (0 <= inject_Z width)%Q).
  { change 0%Q with (inject_Z 0). rewrite <- Zle_Qle. lia. }
  assert (Hb : (inject_Z 0 <= fl (t / duration) * inject_Z width
                <= inject_Z width)%Q).
  { split.
    - change (inject_Z 0) with 0%Q. by apply Qmult_le_0_compat.
    - rewrite <- (Qmult_1_l (inject_Z width)) at 2.
      by apply Qmult_le_compat_r. }
  apply (fl_between fl _ 0 width) in Hb; [done | lia | lia].
Qed.

Lemma pixel_mono (duration width t1 t2 : Q) :
  (0 < duration)%Q -> (0 <= width)%Q -> (t1 <= t2)%Q ->
  (fl (fl (t1 / duration) * width) <= fl (fl (t2 / duration) * width))%Q.
Proof.
  intros Hd Hw Ht. apply fl_mono. apply Qmult_le_compat_r; [|done].
  apply fl_mono. unfold Qdiv. apply Qmult_le_compat_r; [done|].
  apply Qlt_le_weak. by apply Qinv_lt_0_compat.
Qed.
End Pixels.

(** X12.  The overlay of the selection and the playhead stay on the
    canvas.  For a positive duration, an integer width and a selection
    within [0, duration], the left edge is not right of the right edge,
    both lie between 0 and the width, and so does the width of the
    rectangle.  The playhead of time 0 is at 0 and the playhead of the
    duration at the width, exactly. *)
Theorem overlay_in_canvas (fl : Q -> Q) `{!Rounding fl} (duration : Q)
    (width : Z) (selectionStart selectionEnd : Q) :
  (0 < duration)%Q -> 0 <= width <= 2 ^ 53 ->
  (0 <= selectionStart)%Q -> (selectionStart <= selectionEnd)%Q ->
  (selectionEnd <= duration)%Q ->
  (exists startX endX selWidth : Q,
     selectionOverlay fl duration (inject_Z width)
       (Some selectionStart) (Some selectionEnd)
     = Some (startX, endX, selWidth) /\
     (0 <= startX)%Q /\ (startX <= endX)%Q /\ (endX <= inject_Z width)%Q /\
     (0 <= selWidth <= inject_Z width)%Q) /\
  (exists x0 x1 : Q,
     playheadX fl duration (inject_Z width) 0 = Some x0 /\ (x0 == 0)%Q /\
     playheadX fl duration (inject_Z width) duration = Some x1 /\
     (x1 == inject_Z width)%Q).
Proof.
  intros Hd Hw H0 Hse He.
  assert (Hw0 : (0 <= inject_Z width)%Q).
  { change 0%Q with (inject_Z 0). rewrite <- Zle_Qle. lia. }
  split.
  - unfold selectionOverlay. cbn [mbind option_bind].
    rewrite !(timeToPixel_Some fl) by done. cbn [mbind option_bind].
    eexists _, _, _. split; [reflexivity|].
    destruct (pixel_range fl duration width selectionStart Hd Hw) as [Hs0 Hs1];
      [lra|].
    destruct (pixel_range fl duration width selectionEnd Hd Hw) as [He0 He1];
      [lra|].
    pose proof (pixel_mono fl duration (inject_Z width) _ _ Hd Hw0 Hse) as Hm.
    repeat split; try done.
    + apply (fl_between fl _ 0 width); [lia | lia |].
      change (inject_Z 0) with 0%Q. split; lra.
    + apply (fl_between fl _ 0 width); [lia | lia |].
      change (inject_Z 0) with 0%Q. split; lra.
  - unfold playheadX. rewrite !(timeToPixel_Some fl) by done.
    eexists _, _. split; [reflexivity|]. split; [|split; [reflexivity|]].
    + apply (fl_zero fl).
      assert (E : (fl (0 / duration) == 0)%Q).
      { apply (fl_zero fl). unfold Qdiv. ring. }
      rewrite E. ring.
    + assert (E : (fl (duration / duration) == 1)%Q).
      { rewrite (fl_proper fl (duration / duration) (inject_Z 1)).
        - apply (fl_int 1). vm_compute. discriminate.
        - change (inject_Z 1) with 1%Q. field. lra. }
      rewrite (fl_proper fl _ (inject_Z width)).
      * apply fl_int. lia.
      * rewrite E. ring.
Qed.

Lemma overlay_in_canvas_witness :
  exists startX endX selWidth : Q,
    selectionOverlay binary64 10 (inject_Z 800) (Some (5 # 2)%Q) (Some 5%Q)
    = Some (startX, endX, selWidth) /\
    (0 <= startX)%Q /\ (startX <= endX)%Q /\ (endX <= 800)%Q.
Proof.
  destruct (overlay_in_canvas binary64 10 800 (5 # 2) 5)
    as [(startX & endX & selWidth & Ho & H0 & H1 & H2 & _) _].
  - reflexivity.
  - lia.
  - discriminate.
  - discriminate.
  - discriminate.
  - exists startX, endX, selWidth. repeat split; assumption.
Defined.

(** X13.  A click on the canvas seeks inside the recording.  For a
    rectangle of positive width and a duration that is not negative, both
    binary64 values, a click between the left and the right edge of the
    rectangle hands [onSeek] a time of [0, duration]; a click further to
    the right never seeks earlier. *)
Theorem click_seeks_inside (fl : Q -> Q) `{!Rounding fl}
    (duration clientX rect_left rect_width : Q) :
  (0 <= duration)%Q -> (0 < rect_width)%Q ->
  (fl duration == duration)%Q -> (fl rect_width == rect_width)%Q ->
  (rect_left <= clientX <= rect_left + rect_width)%Q ->
  exists time : Q,
    handleClick fl duration clientX rect_left rect_width = Some time /\
    (0 <= time <= duration)%Q /\
    forall clientX' : Q, (clientX <= clientX')%Q ->
      exists time' : Q,
        handleClick fl duration clientX' rect_left rect_width = Some time' /\
        (time <= time')%Q.
Proof.
  intros Hd Hw Ed Ew Hx. unfold handleClick, pixelToTime.
  rewrite quotient_Some by done. cbn [mbind option_bind].
  eexists. split; [reflexivity|]. split.
  - assert (Hx0 : (0 <= fl (clientX - rect_left) <= rect_width)%Q).
    { split.
      - rewrite <- (fl_zero fl 0) by reflexivity. apply fl_mono. lra.
      - rewrite <- Ew. apply fl_mono. lra. }
    destruct (ratio_unit fl _ rect_width Hw Hx0) as [H0 H1]. split.
    + rewrite <- (fl_zero fl 0) by reflexivity. apply fl_mono.
      by apply Qmult_le_0_compat.
    + rewrite <- Ed at 2. apply fl_mono.
      rewrite <- (Qmult_1_l duration) at 2. by apply Qmult_le_compat_r.
  - intros clientX' Hle. rewrite quotient_Some by done. cbn [mbind option_bind].
    eexists. split; [reflexivity|].
    apply fl_mono. apply Qmult_le_compat_r; [|done].
    apply fl_mono. unfold Qdiv. apply Qmult_le_compat_r.
    + apply fl_mono. lra.
    + apply Qlt_le_weak. by apply Qinv_lt_0_compat.
Qed.

Lemma click_seeks_inside_witness :
  exists time : Q,
    handleClick binary64 10 300 100 800 = Some time /\ (0 <= time <= 10)%Q.
Proof.
  destruct (click_seeks_inside binary64 10 300 100 800)
    as (time & Ht & Hr & _).
  - discriminate.
  - reflexivity.
  - vm_compute. reflexivity.
  - vm_compute. reflexivity.
  - split; discriminate.
  - exists time. split; assumption.
Defined.

(** ** Clicks on segments *)

Lemma set_add_NoDup (x : Z) (s : list Z) : NoDup s -> NoDup (set_add x s).
Proof.
  intros Hs. unfold set_add. destruct (decide (x ∈ s)) as [Hx|Hx]; [done|].
  apply NoDup_app. split; [done|]. split.
  - intros y Hy Hy'. apply list_elem_of_singleton in Hy' as ->. done.
  - apply NoDup_singleton.
Qed.

Lemma set_add_elem (x : Z) (s : list Z) (i : Z) :
  i ∈ set_add x s <-> i ∈ s \/ i = x.
Proof.
  unfold set_add. destruct (decide (x ∈ s)) as [Hx|Hx].
  - split; [by left | by intros [?| ->]].
  - rewrite elem_of_app, list_elem_of_singleton. done.
Qed.

Lemma set_delete_keep (x : Z) (s : list Z) : x ∉ s -> set_delete x s = s.
Proof.
  intros Hx. unfold set_delete. induction s as [|y s IH]; [done|].
  apply not_elem_of_cons in Hx as [Hne Hx].
  rewrite filter_cons_True by done. by rewrite IH.
Qed.

Lemma set_delete_add (x : Z) (s : list Z) :
  NoDup s -> x ∈ s -> set_delete x s ++ [x] ≡ₚ s.
Proof.
  unfold set_delete. induction s as [|y s IH]; intros Hs Hx.
  - by apply elem_of_nil in Hx.
  - apply NoDup_cons in Hs as [Hy Hs].
    destruct (decide (y = x)) as [->|Hne].
    + rewrite filter_cons_False by (intros H; by apply H).
      fold (set_delete x s). rewrite set_delete_keep by done.
      symmetry. apply Permutation_cons_append.
    + rewrite filter_cons_True by done. cbn [app].
      apply Permutation_skip, IH; [done|].
      apply elem_of_cons in Hx as [->|Hx]; done.
Qed.

(** The loop of lines 166 to 168, from any set. *)
Lemma range_fold (lo hi : Z) (l : list TranscriptSegment) (acc : list Z) :
  let r := foldl (fun range t =>
                    if (lo <=? id t) && (id t <=? hi)
                    then set_add (id t) range else range) acc l in
  (NoDup acc -> NoDup r) /\
  forall i : Z,
    i ∈ r <-> i ∈ acc \/ (lo <= i <= hi /\ exists t, t ∈ l /\ id t = i).
Proof.
  revert acc. induction l as [|t l IH]; intros acc; cbn [foldl].
  - split; [done|]. intros i. split; [by left|].
    intros [H|(_ & t & Ht & _)]; [done | by apply elem_of_nil in Ht].
  - destruct (IH (if (lo <=? id t) && (id t <=? hi)
                  then set_add (id t) acc else acc)) as [Hnd Hin].
    split.
    + intros Hacc. apply Hnd. case_match; [by apply set_add_NoDup | done].
    + intros i. rewrite Hin. clear Hnd Hin IH.
      destruct ((lo <=? id t) && (id t <=? hi)) eqn:Hb.
      * apply andb_true_iff in Hb as [H1 H2].
        apply Z.leb_le in H1, H2. rewrite set_add_elem. split.
        -- intros [[H| ->]|(Hr & u & Hu & Hid)].
           ++ by left.
           ++ right. split; [lia|]. exists t. split; [apply list_elem_of_here | done].
           ++ right. split; [done|]. exists u.
              split; [by apply list_elem_of_further | done].
        -- intros [H|(Hr & u & Hu & Hid)]; [by left; left|].
           apply elem_of_cons in Hu as [->|Hu].
           ++ left. by right.
           ++ right. split; [done|]. by exists u.
      * split.
        -- intros [H|(Hr & u & Hu & Hid)]; [by left|].
           right. split; [done|]. exists u.
           split; [by apply list_elem_of_further | done].
        -- intros [H|(Hr & u & Hu & Hid)]; [by left|].
           apply elem_of_cons in Hu as [->|Hu].
           ++ apply andb_false_iff in Hb as [Hb|Hb]; apply Z.leb_gt in Hb; lia.
           ++ right. split; [done|]. by exists u.
Qed.

(** X14.  A click with the shift key replaces the selection by a range.
    On an empty selection it selects the clicked segment.  Otherwise the
    new selection holds, once each, the identifiers of the transcript
    between the clicked one and the one that was added to the set last,
    and nothing of the selection outside this range is kept. *)
Theorem shift_click_range (transcript : list TranscriptSegment)
    (selectedSegmentIds : list Z) (id_ : Z) (e : MouseEvent) :
  shiftKey e = true ->
  (selectedSegmentIds = [] ->
   handleSegmentClick transcript selectedSegmentIds id_ e = [id_]) /\
  (forall lastId : Z, last selectedSegmentIds = Some lastId ->
     NoDup (handleSegmentClick transcript selectedSegmentIds id_ e) /\
     forall i : Z,
       i ∈ handleSegmentClick transcript selectedSegmentIds id_ e <->
       Z.min lastId id_ <= i <= Z.max lastId id_ /\
       exists t : TranscriptSegment, t ∈ transcript /\ id t = i).
Proof.
  intros Hs. unfold handleSegmentClick. rewrite Hs. split.
  - by intros ->.
  - intros lastId ->.
    destruct (range_fold (Z.min lastId id_) (Z.max lastId id_) transcript [])
      as [Hnd Hin].
    split; [apply Hnd, NoDup_nil_2|].
    intros i. rewrite Hin. split; [|by right].
    intros [H|H]; [by apply elem_of_nil in H | done].
Qed.

Lemma shift_click_range_witness :
  handleSegmentClick transcript3 [3] 1
    {| shiftKey := true; metaKey := false; ctrlKey := false |} = [1; 2; 3] /\
  forall i : Z,
    i ∈ handleSegmentClick transcript3 [3] 1
          {| shiftKey := true; metaKey := false; ctrlKey := false |} ->
    1 <= i <= 3.
Proof.
  split; [reflexivity|]. intros i Hi.
  destruct (shift_click_range transcript3 [3] 1
              {| shiftKey := true; metaKey := false; ctrlKey := false |})
    as [_ H]; [reflexivity|].
  destruct (H 3) as [_ Hin]; [reflexivity|].
  apply Hin in Hi as [Hr _]. exact Hr.
Defined.

Lemma updateSelectionRange_perm (s1 s2 : list Z)
    (transcript : list TranscriptSegment) (range : option TimeRange) :
  s1 ≡ₚ s2 ->
  updateSelectionRange s1 transcript range
  = updateSelectionRange s2 transcript range.
Proof.
  intros Hp. unfold updateSelectionRange.
  rewrite (Permutation_length Hp).
  assert (E : merge_sort Z.le s1 = merge_sort Z.le s2); [|by rewrite E].
  apply (StronglySorted_unique Z.le).
  - apply StronglySorted_merge_sort; apply _.
  - apply StronglySorted_merge_sort; apply _.
  - by rewrite !merge_sort_Permutation.
Qed.

(** X15.  A click with the control or the command key toggles one
    segment: the clicked identifier leaves the set when it is in it and
    enters it when it is not, the others stay.  A second click on the
    same segment gives back the same set, in another order of insertion
    when the identifier was in it, and with it the same range. *)
Theorem toggle_click (transcript : list TranscriptSegment)
    (selectedSegmentIds : list Z) (id_ : Z) (e : MouseEvent)
    (range : option TimeRange) :
  shiftKey e = false -> metaKey e || ctrlKey e = true ->
  NoDup selectedSegmentIds ->
  let once := handleSegmentClick transcript selectedSegmentIds id_ e in
  let twice := handleSegmentClick transcript once id_ e in
  NoDup once /\
  (forall i : Z,
     i ∈ once <->
     (i ∈ selectedSegmentIds /\ i <> id_) \/ (i = id_ /\ id_ ∉ selectedSegmentIds)) /\
  twice ≡ₚ selectedSegmentIds /\
  updateSelectionRange twice transcript range
  = updateSelectionRange selectedSegmentIds transcript range.
Proof.
  intros Hs Hc Hnd. cbn zeta. unfold handleSegmentClick. rewrite Hs, Hc.
  assert (Hp : (if decide (id_ ∈ (if decide (id_ ∈ selectedSegmentIds)
                                    then set_delete id_ selectedSegmentIds
                                    else set_add id_ selectedSegmentIds))
                then set_delete id_
                       (if decide (id_ ∈ selectedSegmentIds)
                        then set_delete id_ selectedSegmentIds
                        else set_add id_ selectedSegmentIds)
                else set_add id_
                       (if decide (id_ ∈ selectedSegmentIds)
                        then set_delete id_ selectedSegmentIds
                        else set_add id_ selectedSegmentIds))
               ≡ₚ selectedSegmentIds).
  { destruct (decide (id_ ∈ selectedSegmentIds)) as [Hin|Hout].
    - rewrite decide_False.
      + unfold set_add at 1. rewrite decide_False.
        * by apply set_delete_add.
        * unfold set_delete. rewrite list_elem_of_filter. by intros [? _].
      + unfold set_delete. rewrite list_elem_of_filter. by intros [? _].
    - rewrite decide_True by (apply set_add_elem; by right).
      unfold set_add. rewrite decide_False by done.
      unfold set_delete. rewrite filter_app.
      fold (set_delete id_ selectedSegmentIds).
      rewrite set_delete_keep by done.
      rewrite filter_cons_False by (intros H; by apply H).
      by rewrite filter_nil, app_nil_r. }
  split; [|split; [|split]].
  - destruct (decide (id_ ∈ selectedSegmentIds)).
    + by apply NoDup_filter.
    + by apply set_add_NoDup.
  - intros i. destruct (decide (id_ ∈ selectedSegmentIds)) as [Hin|Hout].
    + unfold set_delete. rewrite list_elem_of_filter. split.
      * intros [? ?]. by left.
      * intros [[? ?]|[_ ?]]; done.
    + rewrite set_add_elem. split.
      * intros [H| ->]; [left | by right].
        split; [done|]. by intros ->.
      * intros [[? _]|[-> _]]; [by left | by right].
  - exact Hp.
  - by apply updateSelectionRange_perm.
Qed.

Lemma toggle_click_witness :
  handleSegmentClick transcript3
    (handleSegmentClick transcript3 [1; 2] 1
       {| shiftKey := false; metaKey := false; ctrlKey := true |}) 1
    {| shiftKey := false; metaKey := false; ctrlKey := true |}
  ≡ₚ [1; 2].
Proof.
  apply (toggle_click transcript3 [1; 2] 1
           {| shiftKey := false; metaKey := false; ctrlKey := true |} None).
  - reflexivity.
  - reflexivity.
  - repeat constructor; rewrite ?elem_of_cons, ?elem_of_nil; intuition discriminate.
Defined.

Lemma findSegment_None (transcript : list TranscriptSegment) (v : Z) :
  (forall t : TranscriptSegment, t ∈ transcript -> id t <> v) ->
  findSegment transcript (Some v) = None.
Proof.
  intros H. unfold findSegment.
  destruct (List.find _ transcript) as [t|] eqn:Hf; [|done].
  apply find_some in Hf as [Hin Hb]. apply bool_decide_eq_true in Hb.
  apply list_elem_of_In in Hin. apply H in Hin. congruence.
Qed.

(** X16.  A selection that has left the transcript.  When the least or
    the greatest selected identifier is the identifier of no segment of
    the transcript, the effect finds no segment for it and leaves the
    range as it was: the range shown is then the one of an earlier
    selection. *)
Theorem selection_range_stale (selectedSegmentIds : list Z)
    (transcript : list TranscriptSegment) (selectionRange : option TimeRange)
    (i : Z) :
  i ∈ selectedSegmentIds ->
  (forall j : Z, j ∈ selectedSegmentIds -> i <= j) \/
  (forall j : Z, j ∈ selectedSegmentIds -> j <= i) ->
  (forall t : TranscriptSegment, t ∈ transcript -> id t <> i) ->
  updateSelectionRange selectedSegmentIds transcript selectionRange
  = selectionRange.
Proof.
  intros Hi Hext Hmiss. unfold updateSelectionRange.
  destruct (decide (length selectedSegmentIds = 0%nat)) as [H0|_].
  { destruct selectedSegmentIds; [by apply elem_of_nil in Hi | discriminate]. }
  set (ids := merge_sort Z.le selectedSegmentIds).
  assert (Hperm : ids ≡ₚ selectedSegmentIds) by apply merge_sort_Permutation.
  assert (Hsorted : StronglySorted Z.le ids).
  { apply StronglySorted_merge_sort; apply _. }
  assert (Hlen : (0 < length ids)%nat).
  { rewrite Hperm. destruct selectedSegmentIds; [by apply elem_of_nil in Hi | cbn; lia]. }
  destruct (lookup_lt_is_Some_2 ids 0%nat Hlen) as [a Ha].
  destruct (lookup_lt_is_Some_2 ids (length ids - 1)%nat) as [b Hb]; [lia|].
  assert (Hain : a ∈ selectedSegmentIds).
  { rewrite <- Hperm. by eapply list_elem_of_lookup_2. }
  assert (Hbin : b ∈ selectedSegmentIds).
  { rewrite <- Hperm. by eapply list_elem_of_lookup_2. }
  assert (Hiin : i ∈ ids) by (by rewrite Hperm).
  rewrite Ha, Hb. destruct Hext as [Hleast|Hgreatest].
  - assert (a = i) as ->.
    { pose proof (sorted_first ids a Hsorted Ha i Hiin). pose proof (Hleast a Hain). lia. }
    by rewrite findSegment_None.
  - assert (b = i) as ->.
    { pose proof (sorted_last ids b Hsorted Hb i Hiin). pose proof (Hgreatest b Hbin). lia. }
    rewrite (findSegment_None transcript i) by done.
    by destruct (findSegment transcript (Some a)).
Qed.

Lemma selection_range_stale_witness :
  updateSelectionRange [2; 7] transcript3
    (Some {| range_start := 0; range_end := 1 # 2 |})
  = Some {| range_start := 0; range_end := 1 # 2 |}.
Proof.
  apply (selection_range_stale [2; 7] transcript3 _ 7).
  - apply list_elem_of_further, list_elem_of_here.
  - right. intros j Hj. rewrite !elem_of_cons, elem_of_nil in Hj. lia.
  - intros t Ht. unfold transcript3 in Ht.
    rewrite !elem_of_cons, elem_of_nil in Ht.
    destruct Ht as [->|[->|[->|[]]]]; discriminate.
Defined.

(** ** The transcription service *)

Lemma find_toSegment (l : list RawSegment) (k i : nat) :
  List.find (fun s => bool_decide (Some (id s) = Some (Z.of_nat (k + i))))
    (imap (fun j => toSegment (k + j)) l)
  = imap (fun j => toSegment (k + j)) l !! i.
Proof.
  revert k i. induction l as [|x l IH]; intros k i; [done|].
  cbn [imap List.find].
  assert (E : imap ((fun j => toSegment (k + j)) ∘ S) l
              = imap (fun j => toSegment (S k + j)) l).
  { apply imap_ext. intros j y _. cbn. f_equal. lia. }
  rewrite E. destruct i as [|i].
  - rewrite bool_decide_eq_true_2 by done. done.
  - rewrite bool_decide_eq_false_2.
    + cbn [lookup list_lookup]. rewrite <- IH.
      replace (k + S i)%nat with (S k + i)%nat by lia. done.
    + cbn [toSegment id]. intros H. injection H as H. lia.
Qed.

(** X17.  The identifiers of a transcript are the positions of its
    segments.  A transcription that succeeds had a response that is not
    empty and parses; the transcript has one segment per element, in the
    order of the response, the segment at position [i] has the identifier
    [i], and a search by identifier finds the segment at that position and
    nothing for any other number. *)
Theorem transcript_ids (JSON_parse : string -> result (list RawSegment))
    (response_text : option string) (transcript : list TranscriptSegment) :
  transcribeAudio JSON_parse response_text = Ok transcript ->
  exists (body : string) (rawSegments : list RawSegment),
    response_text = Some body /\ body <> "" /\
    JSON_parse body = Ok rawSegments /\
    length transcript = length rawSegments /\
    (forall (i : nat) (seg : RawSegment),
       rawSegments !! i = Some seg ->
       transcript !! i
       = Some {| id := Z.of_nat i; text := raw_text seg;
                 start := raw_start seg; end_ := raw_end seg |}) /\
    (forall i : nat,
       findSegment transcript (Some (Z.of_nat i)) = transcript !! i) /\
    (forall v : Z,
       v < 0 \/ Z.of_nat (length transcript) <= v ->
       findSegment transcript (Some v) = None).
Proof.
  intros H. unfold transcribeAudio in H.
  destruct response_text as [body|]; [|discriminate].
  destruct (decide (body = "")) as [->|Hne]; [discriminate|].
  assert (H' : (rawSegments ← JSON_parse body; mret (imap toSegment rawSegments))
               = Ok transcript).
  { destruct body; [done | exact H]. }
  clear H. destruct (JSON_parse body) as [raw|] eqn:Hp; [|discriminate].
  cbn in H'. injection H' as <-.
  exists body, raw. repeat split; try done.
  - apply length_imap.
  - intros i seg Hi. by rewrite list_lookup_imap, Hi.
  - intros i. unfold findSegment. apply (find_toSegment raw 0 i).
  - intros v Hv. apply findSegment_None. intros t Ht.
    apply elem_of_lookup_imap_1 in Ht as (i & y & -> & Hy).
    apply lookup_lt_Some in Hy. rewrite length_imap in Hv.
    cbn [toSegment id]. lia.
Qed.

Lemma transcript_ids_witness :
  exists transcript : list TranscriptSegment,
    transcribeAudio
      (fun _ => Ok [ {| raw_text := "one"; raw_start := 0; raw_end := 1 |};
                     {| raw_text := "two"; raw_start := 1; raw_end := 2 |} ])
      (Some "[two segments]") = Ok transcript /\
    findSegment transcript (Some 1) = transcript !! 1%nat.
Proof.
  eexists. split; [reflexivity|].
  match goal with |- findSegment ?t _ = _ =>
    destruct (transcript_ids
                (fun _ => Ok [ {| raw_text := "one"; raw_start := 0; raw_end := 1 |};
                               {| raw_text := "two"; raw_start := 1; raw_end := 2 |} ])
                (Some "[two segments]") t)
      as (_ & _ & _ & _ & _ & _ & _ & Hf & _)
  end.
  - reflexivity.
  - exact (Hf 1%nat).
Defined.

(** *** The payload of a data URL *)

Lemma split_none (sep : ascii) (s : string) :
  sep ∉ list_ascii_of_string s -> split sep s = [s].
Proof.
  induction s as [|c s IH]; intros H; [done|].
  cbn [list_ascii_of_string] in H. apply not_elem_of_cons in H as [Hne H].
  cbn [split]. rewrite (proj2 (Ascii.eqb_neq c sep)) by congruence.
  by rewrite IH.
Qed.

Lemma split_first (sep : ascii) (h p : string) :
  sep ∉ list_ascii_of_string h ->
  split sep (h +:+ String sep p) = h :: split sep p.
Proof.
  induction h as [|c h IH]; intros H.
  - change ("" +:+ String sep p) with (String sep p).
    cbn [split]. by rewrite Ascii.eqb_refl.
  - cbn [list_ascii_of_string] in H. apply not_elem_of_cons in H as [Hne H].
    change (String c h +:+ String sep p) with (String c (h +:+ String sep p)).
    cbn [split].
    rewrite (proj2 (Ascii.eqb_neq c sep)) by congruence.
    by rewrite IH.
Qed.

(** X18.  What [fileToBase64] resolves with is the text between the
    first comma and the second: the whole payload of a data URL whose
    header and payload hold no comma, as those of a base64 data URL of
    a plain media type; only the beginning of the payload when a comma
    follows; and [undefined] for a text without comma. *)
Theorem fileToBase64_payload (header payload rest : string) :
  ","%char ∉ list_ascii_of_string header ->
  ","%char ∉ list_ascii_of_string payload ->
  fileToBase64 (header +:+ "," +:+ payload) = Some payload /\
  fileToBase64 (header +:+ "," +:+ payload +:+ "," +:+ rest) = Some payload /\
  fileToBase64 header = None.
Proof.
  intros Hh Hp. unfold fileToBase64. repeat split.
  - change ("," +:+ payload) with (String "," payload).
    rewrite split_first by done. by rewrite split_none.
  - change ("," +:+ payload +:+ "," +:+ rest)
      with (String "," (payload +:+ String "," rest)).
    rewrite split_first by done. by rewrite split_first.
  - by rewrite split_none.
Qed.

Lemma fileToBase64_payload_witness :
  fileToBase64 "data:audio/wav;base64,UklGRg==" = Some "UklGRg==".
Proof.
  apply (fileToBase64_payload "data:audio/wav;base64" "UklGRg==" "").
  - apply (bool_decide_unpack _). vm_compute. exact I.
  - apply (bool_decide_unpack _). vm_compute. exact I.
Defined.

(** ** The component *)

Lemma filter_none {A : Type} (P : A -> Prop) `{!forall x, Decision (P x)}
    (l : list A) :
  (forall x : A, x ∈ l -> ~ P x) -> filter P l = [].
Proof.
  induction l as [|x l IH]; intros Hl; [done|].
  rewrite filter_cons_False by (apply Hl, list_elem_of_here).
  apply IH. intros y Hy. apply Hl. by apply list_elem_of_further.
Qed.

Lemma nil_of_no_elem {A : Type} (l : list A) :
  (forall x : A, x ∈ l -> False) -> l = [].
Proof.
  destruct l as [|x l]; [done|]. intros Hl. destruct (Hl x). apply list_elem_of_here.
Qed.

Section Transport.
Context (fl : Q -> Q) (clock : nat -> Q).

Lemma same_document_refl (s : App.state) : App.same_document s s.
Proof. by repeat split. Qed.

Lemma same_document_trans (s1 s2 s3 : App.state) :
  App.same_document s1 s2 -> App.same_document s2 s3 -> App.same_document s1 s3.
Proof.
  unfold App.same_document. intros (?&?&?&?&?&?) (?&?&?&?&?&?).
  repeat split; congruence.
Qed.

(** A run of [loop] when no frame is requested: it ends playback or
    requests the one frame. *)
Lemma loop_consistent (d : Q) (s : App.state) (p : App.platform) :
  App.requested p = [] -> NoDup (App.started p) ->
  (forall node, node ∈ App.started p -> App.sourceNodeRef s = Some node) ->
  App.isPlaying s = true -> d = App.duration s ->
  App.playback_consistent (App.loop fl clock d (s, p)) /\
  App.same_document s (App.loop fl clock d (s, p)).1 /\
  App.started (App.loop fl clock d (s, p)).2 = App.started p /\
  App.sourceNodeRef (App.loop fl clock d (s, p)).1 = App.sourceNodeRef s.
Proof.
  intros Hr Hnd Hst Hpl ->. unfold App.loop, App.read_currentTime.
  destruct (Qle_bool _ _).
  - unfold App.playback_consistent, App.same_document.
    destruct (App.rafRef s) as [h|]; cbn; rewrite Hr; cbn;
      (repeat split; try done;
       first [ apply NoDup_nil_2
             | match goal with Hin : _ ∈ [] |- _ => by apply elem_of_nil in Hin end ]).
  - unfold App.playback_consistent, App.same_document. cbn. rewrite Hr.
    repeat split; try done.
    + apply NoDup_singleton.
    + apply list_elem_of_singleton in H. by injection H as -> ->.
    + apply list_elem_of_singleton in H. by injection H as -> ->.
Qed.

Lemma stopAudio_spec (w : App.world) :
  App.playback_consistent w ->
  App.started (App.stopAudio w).2 = [] /\
  App.requested (App.stopAudio w).2 = [] /\
  App.isPlaying (App.stopAudio w).1 = false /\
  App.same_document w.1 (App.stopAudio w).1 /\
  App.currentTime (App.stopAudio w).1 = App.currentTime w.1.
Proof.
  destruct w as [s p]. intros (Hnd & Hst & Hnr & Hrq). cbn [fst snd] in *.
  assert (Hs0 : forall node, App.sourceNodeRef s = Some node ->
            filter (fun n : nat => n <> node) (App.started p) = []).
  { intros node E. apply filter_none. intros n Hn Hne.
    apply Hst in Hn. congruence. }
  assert (Hs1 : App.sourceNodeRef s = None -> App.started p = []).
  { intros E. apply nil_of_no_elem. intros n Hn. apply Hst in Hn. congruence. }
  assert (Hr0 : forall h, App.rafRef s = Some h ->
            filter (fun f : nat * Q => f.1 <> h) (App.requested p) = []).
  { intros h E. apply filter_none. intros [h' d] Hn Hne.
    apply Hrq in Hn as [Hn _]. cbn in Hne. congruence. }
  assert (Hr1 : App.rafRef s = None -> App.requested p = []).
  { intros E. apply nil_of_no_elem. intros [h d] Hn.
    apply Hrq in Hn as [Hn _]. congruence. }
  unfold App.stopAudio, App.same_document.
  destruct (App.sourceNodeRef s) as [node|] eqn:Eref;
    destruct (App.rafRef s) as [h|] eqn:Eraf; cbn;
    rewrite ?Eraf; cbn;
    rewrite ?(Hs0 _ eq_refl), ?(Hs1 eq_refl), ?(Hr0 _ eq_refl), ?(Hr1 eq_refl);
    by repeat split.
Qed.

Lemma stopped_consistent (s : App.state) (p : App.platform) :
  App.started p = [] -> App.requested p = [] ->
  App.playback_consistent (s, p).
Proof.
  intros Hs Hr. unfold App.playback_consistent. cbn. rewrite Hs, Hr.
  repeat split; try done;
    first [ apply NoDup_nil_2
          | intros n Hin; by apply elem_of_nil in Hin
          | match goal with Hin : _ ∈ [] |- _ => by apply elem_of_nil in Hin end ].
Qed.

Lemma playAudio_consistent (startOffset : Q) (w : App.world) :
  App.playback_consistent w -> App.requested w.2 = [] ->
  App.playback_consistent (App.playAudio fl clock startOffset w) /\
  App.same_document w.1 (App.playAudio fl clock startOffset w).1.
Proof.
  destruct w as [s p]. intros Hc Hr. cbn [fst snd] in *.
  unfold App.playAudio.
  destruct (App.audioBuffer s) as [buffer|];
    [|split; [done | apply same_document_refl]].
  destruct Hc as (Hnd & Hst & Hnr & Hrq). cbn [fst snd] in *.
  set (p1 := match App.sourceNodeRef s with
             | Some node => App.source_stop node p
             | None => p
             end).
  assert (Hp1 : App.started p1 = [] /\ App.requested p1 = []).
  { unfold p1. destruct (App.sourceNodeRef s) as [node|] eqn:Eref.
    - cbn. split; [|done]. apply filter_none. intros n Hn Hne.
      apply Hst in Hn. congruence.
    - split; [|done]. apply nil_of_no_elem. intros n Hn.
      apply Hst in Hn. congruence. }
  destruct Hp1 as [Hs1 Hr1]. unfold App.createBufferSource.
  destruct (Qle_bool 0 startOffset).
  - unfold App.read_currentTime, App.source_start. cbn beta iota zeta.
    lazymatch goal with |- context [App.loop fl clock ?d (?s', ?p')] =>
      pose proof (loop_consistent d s' p') as HH
    end.
    destruct HH as (Hl & Hd & _).
    + cbn. by rewrite Hr1.
    + cbn. rewrite Hs1. apply NoDup_singleton.
    + cbn. rewrite Hs1. intros n Hn.
      apply list_elem_of_singleton in Hn as ->. done.
    + done.
    + done.
    + split; [exact Hl|].
      eapply same_document_trans; [|exact Hd]. by repeat split.
  - split; [|by repeat split]. by apply stopped_consistent.
Qed.

Lemma requested_nil_stopped (w : App.world) :
  App.playback_consistent w -> App.isPlaying w.1 = false ->
  App.requested w.2 = [].
Proof.
  intros (_ & _ & _ & Hrq) Hp. apply nil_of_no_elem. intros [h d] Hin.
  apply Hrq in Hin as (_ & Hin & _). congruence.
Qed.

Lemma togglePlayback_consistent (w : App.world) :
  App.playback_consistent w ->
  App.playback_consistent (App.togglePlayback fl clock w) /\
  App.same_document w.1 (App.togglePlayback fl clock w).1.
Proof.
  intros Hc. unfold App.togglePlayback.
  destruct (App.isPlaying w.1) eqn:Hp.
  - destruct (stopAudio_spec w Hc) as (Hs & Hr & _ & Hd & _).
    split; [|done]. destruct (App.stopAudio w) as [s' p'].
    by apply stopped_consistent.
  - apply playAudio_consistent; [done|]. by apply requested_nil_stopped.
Qed.

Lemma handleSeek_consistent (time : Q) (w : App.world) :
  App.playback_consistent w ->
  App.playback_consistent (App.handleSeek fl clock time w) /\
  App.same_document w.1 (App.handleSeek fl clock time w).1.
Proof.
  intros Hc. unfold App.handleSeek.
  destruct (stopAudio_spec w Hc) as (Hs & Hr & _ & Hd & _).
  destruct (App.stopAudio w) as [s' p']. cbn [fst snd] in *.
  assert (Hc' : App.playback_consistent (App.setCurrentTime time s', p'))
    by (by apply stopped_consistent).
  destruct (App.isPlaying w.1).
  - destruct (playAudio_consistent time (App.setCurrentTime time s', p') Hc' Hr)
      as [H1 H2].
    split; [done|]. eapply same_document_trans; [exact Hd|].
    eapply same_document_trans; [|exact H2]. by repeat split.
  - split; [done|]. eapply same_document_trans; [exact Hd|]. by repeat split.
Qed.

Lemma handlePlaySelection_consistent (w : App.world) :
  App.playback_consistent w ->
  App.playback_consistent (App.handlePlaySelection fl clock w) /\
  App.same_document w.1 (App.handlePlaySelection fl clock w).1.
Proof.
  intros Hc. unfold App.handlePlaySelection.
  destruct (App.selectionRange w.1) as [r|];
    [|split; [done | apply same_document_refl]].
  destruct (stopAudio_spec w Hc) as (Hs & Hr & _ & Hd & _).
  destruct (App.stopAudio w) as [s' p']. cbn [fst snd] in *.
  destruct (playAudio_consistent (range_start r) (s', p')) as [H1 H2];
    [by apply stopped_consistent | done |].
  split; [done|]. by eapply same_document_trans.
Qed.

Lemma frame_consistent (handle : nat) (w : App.world) :
  App.playback_consistent w ->
  App.playback_consistent (App.handle fl clock (App.Frame handle) w) /\
  App.same_document w.1 (App.handle fl clock (App.Frame handle) w).1.
Proof.
  destruct w as [s p]. intros Hc. cbn [App.handle fst snd].
  destruct (List.find _ (App.requested p)) as [[h d]|] eqn:Hf;
    [|split; [done | apply same_document_refl]].
  apply find_some in Hf as [Hin Hh]. apply list_elem_of_In in Hin.
  cbn in Hh. apply Nat.eqb_eq in Hh as ->.
  destruct Hc as (Hnd & Hst & Hnr & Hrq). cbn [fst snd] in *.
  destruct (Hrq handle d Hin) as (Hraf & Hpl & Hd).
  lazymatch goal with |- context [App.loop fl clock d (s, ?p')] =>
    pose proof (loop_consistent d s p') as HH
  end.
  destruct HH as (Hl & Hdoc & _); try done.
  cbn. apply filter_none. intros [h' d'] Hin' Hne.
  apply Hrq in Hin' as [Hin' _]. cbn in Hne. congruence.
Qed.

Lemma handleSegmentClick_NoDup (transcript : list TranscriptSegment)
    (selectedSegmentIds : list Z) (id_ : Z) (e : MouseEvent) :
  NoDup selectedSegmentIds ->
  NoDup (handleSegmentClick transcript selectedSegmentIds id_ e).
Proof.
  intros Hnd. unfold handleSegmentClick. destruct (shiftKey e).
  - destruct (last selectedSegmentIds) as [lastId|]; [|apply NoDup_singleton].
    apply (range_fold (Z.min lastId id_) (Z.max lastId id_) transcript []).
    apply NoDup_nil_2.
  - destruct (metaKey e || ctrlKey e); [|apply NoDup_singleton].
    destruct (decide (id_ ∈ selectedSegmentIds)).
    + by apply NoDup_filter.
    + by apply set_add_NoDup.
Qed.

(** Once every selected identifier is in the transcript, the range the
    effect computes does not depend on the range before. *)
Lemma updateSelectionRange_fresh (ids : list Z)
    (transcript : list TranscriptSegment) (range : option TimeRange) :
  (forall i : Z, i ∈ ids ->
     exists seg : TranscriptSegment, seg ∈ transcript /\ id seg = i) ->
  updateSelectionRange ids transcript range
  = updateSelectionRange ids transcript None.
Proof.
  intros Hids. unfold updateSelectionRange.
  destruct (decide (length ids = 0%nat)) as [H0|Hne]; [done|].
  set (sorted := merge_sort Z.le ids).
  assert (Hperm : sorted ≡ₚ ids) by apply merge_sort_Permutation.
  assert (Hlen : (0 < length sorted)%nat) by (rewrite Hperm; lia).
  destruct (lookup_lt_is_Some_2 sorted 0%nat Hlen) as [a Ha].
  destruct (lookup_lt_is_Some_2 sorted (length sorted - 1)%nat) as [b Hb]; [lia|].
  assert (Hain : a ∈ ids).
  { rewrite <- Hperm. by eapply list_elem_of_lookup_2. }
  assert (Hbin : b ∈ ids).
  { rewrite <- Hperm. by eapply list_elem_of_lookup_2. }
  destruct (findSegment_Some transcript a (Hids a Hain)) as (f & Hf & _).
  destruct (findSegment_Some transcript b (Hids b Hbin)) as (l & Hl & _).
  by rewrite Ha, Hb, Hf, Hl.
Qed.

Lemma segmentClick_spec (id_ : Z) (e : MouseEvent) (w : App.world) :
  App.playback_consistent w ->
  App.playback_consistent (App.handleSegmentClick fl clock id_ e w) /\
  App.appState (App.handleSegmentClick fl clock id_ e w).1 = App.appState w.1 /\
  App.audioBuffer (App.handleSegmentClick fl clock id_ e w).1
  = App.audioBuffer w.1 /\
  App.transcript (App.handleSegmentClick fl clock id_ e w).1
  = App.transcript w.1 /\
  App.duration (App.handleSegmentClick fl clock id_ e w).1 = App.duration w.1 /\
  App.selectedSegmentIds (App.handleSegmentClick fl clock id_ e w).1
  = handleSegmentClick (App.transcript w.1) (App.selectedSegmentIds w.1) id_ e /\
  App.selectionRange (App.handleSegmentClick fl clock id_ e w).1
  = App.selectionRange w.1.
Proof.
  destruct w as [s p]. intros Hc. cbn [fst snd].
  unfold App.handleSegmentClick.
  set (ids := handleSegmentClick (App.transcript s) (App.selectedSegmentIds s) id_ e).
  assert (Hc' : App.playback_consistent (App.setSelectedSegmentIds ids s, p))
    by exact Hc.
  assert (Hw' : let w' := (App.setSelectedSegmentIds ids s, p) in
            App.playback_consistent w' /\
            App.appState w'.1 = App.appState s /\
            App.audioBuffer w'.1 = App.audioBuffer s /\
            App.transcript w'.1 = App.transcript s /\
            App.duration w'.1 = App.duration s /\
            App.selectedSegmentIds w'.1 = ids /\
            App.selectionRange w'.1 = App.selectionRange s)
    by (cbn zeta; split; [exact Hc' | by repeat split]).
  destruct (shiftKey e); [exact Hw'|].
  destruct (metaKey e || ctrlKey e); [exact Hw'|].
  destruct (findSegment (App.transcript s) (Some id_)) as [segment|]; [|exact Hw'].
  destruct (handleSeek_consistent (start segment)
              (App.setSelectedSegmentIds ids s, p) Hc')
    as (H1 & H2 & H3 & H4 & H5 & H6 & H7).
  cbn [fst snd] in *. split; [exact H1|].
  rewrite H2, H3, H4, H5, H6, H7. by repeat split.
Qed.

Lemma consistent_playback_step (w w' : App.world) :
  App.consistent fl w -> App.appState w.1 = App.READY ->
  App.same_document w.1 w'.1 -> App.playback_consistent w' ->
  App.consistent fl w'.
Proof.
  intros (Ha & Hb & Hnd & Hids & Hrange & _) Hready
    (E1 & E2 & E3 & E4 & E5 & E6) Hpb.
  unfold App.consistent. rewrite E1, E2, E3, E4, E5, E6.
  split; [intros Hne; congruence|]. by do 4 (split; [done|]).
Qed.

Lemma consistent_before_ready (s s' : App.state) (p : App.platform) :
  App.consistent fl (s, p) -> App.appState s <> App.READY ->
  App.selectedSegmentIds s' = App.selectedSegmentIds s ->
  App.isPlaying s' = App.isPlaying s ->
  App.selectionRange s' = None ->
  (App.appState s' = App.TRANSCRIBING \/ App.appState s' = App.READY ->
   exists buffer : AudioBuffer,
     App.audioBuffer s' = Some buffer /\
     App.duration s' = AudioBuffer_duration fl buffer) ->
  App.consistent fl (s', p).
Proof.
  intros (Ha & Hb & Hnd & Hids & Hrange & _) Hne E1 E2 E3 Hbuf.
  destruct (Ha Hne) as (Hsel & Hpl & Hst & Hrq). cbn [fst snd] in *.
  unfold App.consistent. cbn [fst snd]. rewrite E1, E2, E3, Hsel.
  split; [done|]. split; [done|]. split; [apply NoDup_nil_2|].
  split; [intros i Hi; by apply elem_of_nil in Hi|].
  split; [done|]. by apply stopped_consistent.
Qed.

Lemma range_before_ready (s : App.state) (p : App.platform) :
  App.consistent fl (s, p) -> App.appState s <> App.READY ->
  App.selectionRange s = None /\ App.selectedSegmentIds s = [].
Proof.
  intros (Ha & _ & _ & _ & Hrange & _) Hne.
  destruct (Ha Hne) as (Hsel & _). cbn [fst snd] in *.
  by rewrite Hrange, Hsel.
Qed.

(** Every state the component reaches is consistent. *)
Lemma reachable_consistent (w : App.world) :
  App.reachable fl clock w -> App.consistent fl w.
Proof.
  induction 1 as [|w ev Hw IH Hen].
  - unfold App.consistent, App.initial. cbn [fst snd].
    split; [done|]. split; [intros [?|?]; discriminate|].
    split; [apply NoDup_nil_2|].
    split; [intros i Hi; by apply elem_of_nil in Hi|].
    split; [done|]. by apply stopped_consistent.
  - destruct w as [s p].
    destruct ev as [file|r|r| | |time|id_ e| | |handle]; cbn [App.enabled fst snd] in Hen.
    + (* the file input *)
      destruct (range_before_ready s p IH) as [Hr Hs]; [congruence|].
      destruct file as [file|]; [|exact IH]. cbn [App.handle App.handleFileUpload fst snd].
      apply (consistent_before_ready s); try done; [congruence|].
      cbn. intros [?|?]; discriminate.
    + (* the decoder settles *)
      destruct (range_before_ready s p IH) as [Hr Hs]; [congruence|].
      cbn [App.handle fst snd]. apply (consistent_before_ready s); try done.
      * congruence.
      * by destruct r.
      * by destruct r.
      * by destruct r.
      * destruct r as [buffer|err]; cbn.
        -- intros _. by exists buffer.
        -- intros [?|?]; discriminate.
    + (* the transcription settles *)
      destruct (range_before_ready s p IH) as [Hr Hs]; [congruence|].
      pose proof IH as (_ & Hb & _).
      cbn [App.handle fst snd]. destruct r as [segments|err].
      * apply (consistent_before_ready s); try done.
        -- congruence.
        -- cbn. by rewrite Hs.
        -- cbn. intros _. apply Hb. by left.
      * apply (consistent_before_ready s); try done; [congruence|].
        cbn. intros [?|?]; discriminate.
    + (* Try Again *)
      destruct (range_before_ready s p IH) as [Hr Hs]; [congruence|].
      cbn [App.handle fst snd]. apply (consistent_before_ready s); try done.
      * congruence.
      * cbn. intros [?|?]; discriminate.
    + (* play and pause *)
      pose proof IH as (_ & _ & _ & _ & _ & Hpb).
      destruct (togglePlayback_consistent (s, p) Hpb) as [H1 H2].
      by apply (consistent_playback_step (s, p)).
    + (* a click on the waveform *)
      pose proof IH as (_ & _ & _ & _ & _ & Hpb).
      destruct (handleSeek_consistent time (s, p) Hpb) as [H1 H2].
      by apply (consistent_playback_step (s, p)).
    + (* a click on a segment *)
      destruct Hen as [Hready Hseg].
      pose proof IH as (Ha & Hb & Hnd & Hids & Hrange & Hpb).
      destruct (segmentClick_spec id_ e (s, p) Hpb)
        as (H1 & H2 & H3 & H4 & H5 & H6 & H7).
      cbn [App.handle].
      destruct (App.handleSegmentClick fl clock id_ e (s, p)) as [s' p'].
      cbn [fst snd] in *.
      assert (Hids' : forall i : Z, i ∈ App.selectedSegmentIds s' ->
                exists seg, seg ∈ App.transcript s /\ id seg = i).
      { rewrite H6. by apply handleSegmentClick_ids. }
      unfold App.consistent, App.selectionEffect. cbn [fst snd].
      assert (Hpb' : App.playback_consistent
                (App.setSelectionRange
                   (updateSelectionRange (App.selectedSegmentIds s')
                      (App.transcript s') (App.selectionRange s')) s', p'))
        by exact H1.
      cbn. rewrite H2, H3, H4, H5.
      split; [intros Hne; congruence|]. split; [done|].
      split; [rewrite H6; by apply handleSegmentClick_NoDup|].
      split; [done|].
      split; [by apply updateSelectionRange_fresh | exact Hpb'].
    + (* Play Selection *)
      destruct Hen as [Hready _].
      pose proof IH as (_ & _ & _ & _ & _ & Hpb).
      destruct (handlePlaySelection_consistent (s, p) Hpb) as [H1 H2].
      by apply (consistent_playback_step (s, p)).
    + (* Extract Clip *)
      exact IH.
    + (* a frame runs *)
      destruct Hen as [d Hin].
      pose proof IH as (Ha & _ & _ & _ & _ & Hpb).
      destruct (frame_consistent handle (s, p) Hpb) as [H1 H2].
      apply (consistent_playback_step (s, p)); try done.
      cbn [fst snd] in *.
      destruct (App.appState s) eqn:E; try done;
        (destruct Ha as (_ & _ & _ & Hrq); [done|];
         rewrite Hrq in Hin; by apply elem_of_nil in Hin).
Qed.
End Transport.

Lemma length_le_1 {A : Type} (l : list A) :
  NoDup l -> (forall x y : A, x ∈ l -> y ∈ l -> x = y) -> (length l <= 1)%nat.
Proof.
  intros Hnd Heq. destruct l as [|x [|y l]]; cbn; try lia.
  apply NoDup_cons in Hnd as [Hx _]. exfalso. apply Hx.
  rewrite (Heq x y); [apply list_elem_of_here | apply list_elem_of_here |].
  apply list_elem_of_further, list_elem_of_here.
Qed.

Lemma updateSelectionRange_Some (ids : list Z)
    (transcript : list TranscriptSegment) :
  ids <> [] ->
  (forall i : Z, i ∈ ids ->
     exists seg : TranscriptSegment, seg ∈ transcript /\ id seg = i) ->
  exists range : TimeRange, updateSelectionRange ids transcript None = Some range.
Proof.
  intros Hne Hids. unfold updateSelectionRange.
  destruct (decide (length ids = 0%nat)) as [H0|Hlen0].
  { destruct ids; [done | discriminate]. }
  set (sorted := merge_sort Z.le ids).
  assert (Hperm : sorted ≡ₚ ids) by apply merge_sort_Permutation.
  assert (Hlen : (0 < length sorted)%nat) by (rewrite Hperm; lia).
  destruct (lookup_lt_is_Some_2 sorted 0%nat Hlen) as [a Ha].
  destruct (lookup_lt_is_Some_2 sorted (length sorted - 1)%nat) as [b Hb]; [lia|].
  assert (Hain : a ∈ ids).
  { rewrite <- Hperm. by eapply list_elem_of_lookup_2. }
  assert (Hbin : b ∈ ids).
  { rewrite <- Hperm. by eapply list_elem_of_lookup_2. }
  destruct (findSegment_Some transcript a (Hids a Hain)) as (f & Hf & _).
  destruct (findSegment_Some transcript b (Hids b Hbin)) as (l & Hl & _).
  rewrite Ha, Hb, Hf, Hl. by eexists.
Qed.

(** In the editor, what an event leaves of the document. *)
Lemma ready_step (fl : Q -> Q) (clock : nat -> Q) (w : App.world) (ev : App.event) :
  App.consistent fl w -> App.appState w.1 = App.READY -> App.enabled w ev ->
  App.appState (App.handle fl clock ev w).1 = App.READY /\
  App.audioBuffer (App.handle fl clock ev w).1 = App.audioBuffer w.1 /\
  App.transcript (App.handle fl clock ev w).1 = App.transcript w.1 /\
  App.duration (App.handle fl clock ev w).1 = App.duration w.1.
Proof.
  intros Hc Hready Hen. pose proof Hc as (_ & _ & _ & _ & _ & Hpb).
  destruct w as [s p]. cbn [fst snd] in *.
  destruct ev as [file|r|r| | |time|id_ e| | |handle];
    cbn [App.enabled fst snd] in Hen; try congruence.
  - destruct (togglePlayback_consistent fl clock (s, p) Hpb)
      as (_ & E1 & E2 & E3 & E4 & _).
    cbn [App.handle fst snd] in *. rewrite E1, E2, E3, E4. done.
  - destruct (handleSeek_consistent fl clock time (s, p) Hpb)
      as (_ & E1 & E2 & E3 & E4 & _).
    cbn [App.handle fst snd] in *. rewrite E1, E2, E3, E4. done.
  - destruct (segmentClick_spec fl clock id_ e (s, p) Hpb)
      as (_ & E1 & E2 & E3 & E4 & _).
    cbn [App.handle].
    destruct (App.handleSegmentClick fl clock id_ e (s, p)) as [s' p'].
    cbn [fst snd] in *. unfold App.selectionEffect. cbn.
    rewrite E1, E2, E3, E4. done.
  - destruct (handlePlaySelection_consistent fl clock (s, p) Hpb)
      as (_ & E1 & E2 & E3 & E4 & _).
    cbn [App.handle fst snd] in *. rewrite E1, E2, E3, E4. done.
  - done.
  - destruct (frame_consistent fl clock handle (s, p) Hpb)
      as (_ & E1 & E2 & E3 & E4 & _).
    cbn [fst snd] in *. rewrite E1, E2, E3, E4. done.
Qed.

(** The session is one the component can go through. *)
Lemma playing_reachable : App.reachable binary64 App.second App.playing.
Proof.
  unfold App.playing, App.run, App.session. cbn [foldl].
  repeat apply App.reachable_handle; try apply App.reachable_initial.
  - reflexivity.
  - reflexivity.
  - reflexivity.
  - split; [reflexivity|].
    exists {| id := 2; text := "two"; start := 1 # 2; end_ := 2 |}.
    split; [|reflexivity]. apply list_elem_of_further, list_elem_of_here.
  - reflexivity.
Qed.

Lemma paused_reachable : App.reachable binary64 App.second App.paused.
Proof.
  unfold App.paused. apply App.reachable_handle; [exact playing_reachable|].
  exists 2%Q. vm_compute. apply list_elem_of_here.
Qed.

(** X19.  The editor has its buffer and keeps it.  Whenever the editor is
    on the screen, the component holds a decoded buffer, the duration it
    shows is the duration of that buffer, and Extract Clip, offered when
    there is a range, either downloads or alerts.  No event of the
    editor changes the buffer, the transcript or the duration, or leaves
    the editor: another file cannot be loaded. *)
Theorem editor_has_buffer (fl : Q -> Q) (clock : nat -> Q) (w : App.world) :
  App.reachable fl clock w -> App.appState w.1 = App.READY ->
  exists buffer : AudioBuffer,
    App.audioBuffer w.1 = Some buffer /\
    App.duration w.1 = AudioBuffer_duration fl buffer /\
    (App.selectionRange w.1 <> None -> App.handleExtract fl w.1 <> Nothing) /\
    forall ev : App.event, App.enabled w ev ->
      App.appState (App.handle fl clock ev w).1 = App.READY /\
      App.audioBuffer (App.handle fl clock ev w).1 = Some buffer /\
      App.transcript (App.handle fl clock ev w).1 = App.transcript w.1 /\
      App.duration (App.handle fl clock ev w).1 = App.duration w.1.
Proof.
  intros Hw Hready. pose proof (reachable_consistent fl clock w Hw) as Hc.
  pose proof Hc as (_ & Hb & _).
  destruct Hb as (buffer & Hbuf & Hd); [by right|].
  exists buffer. split; [done|]. split; [done|]. split.
  - intros Hr. unfold App.handleExtract, handleExtract. rewrite Hbuf.
    destruct (App.selectionRange w.1) as [r|]; [|done]. cbn.
    by destruct (Extended.extractClip fl buffer
                   (Extended.Finite (range_start r))
                   (Extended.Finite (range_end r))).
  - intros ev Hen. rewrite <- Hbuf. by apply ready_step.
Qed.

Lemma editor_has_buffer_witness :
  exists buffer : AudioBuffer,
    App.audioBuffer App.playing.1 = Some buffer /\
    App.duration App.playing.1 = AudioBuffer_duration binary64 buffer.
Proof.
  destruct (editor_has_buffer binary64 App.second App.playing)
    as (buffer & Hb & Hd & _).
  - exact playing_reachable.
  - vm_compute. reflexivity.
  - exists buffer. split; [exact Hb | exact Hd].
Defined.

(** X20.  One source, one frame.  In every state the component reaches,
    at most one source node is started and not stopped, and it is the one
    the component refers to; at most one animation frame is requested, and
    it is the one the component refers to, requested by a [loop] of the
    current duration; no frame is requested while playback is off, and
    nothing plays before the editor is shown. *)
Theorem one_source_one_frame (fl : Q -> Q) (clock : nat -> Q) (w : App.world) :
  App.reachable fl clock w ->
  (length (App.started w.2) <= 1)%nat /\
  (forall node : nat, node ∈ App.started w.2 -> App.sourceNodeRef w.1 = Some node) /\
  (length (App.requested w.2) <= 1)%nat /\
  (forall (handle : nat) (d : Q), (handle, d) ∈ App.requested w.2 ->
     App.rafRef w.1 = Some handle /\ d = App.duration w.1) /\
  (App.isPlaying w.1 = false -> App.requested w.2 = []) /\
  (App.appState w.1 <> App.READY ->
   App.started w.2 = [] /\ App.isPlaying w.1 = false).
Proof.
  intros Hw. pose proof (reachable_consistent fl clock w Hw) as Hc.
  pose proof Hc as (Ha & _ & _ & _ & _ & Hpb).
  pose proof Hpb as (Hnd & Hst & Hnr & Hrq).
  split; [|split; [done|]; split; [|split; [|split]]].
  - apply length_le_1; [done|]. intros x y Hx Hy.
    apply Hst in Hx, Hy. congruence.
  - apply length_le_1; [done|]. intros [h d] [h' d'] Hx Hy.
    destruct (Hrq h d Hx) as (E1 & _ & E2).
    destruct (Hrq h' d' Hy) as (E1' & _ & E2'). congruence.
  - intros h d Hin. destruct (Hrq h d Hin) as (? & _ & ?). done.
  - intros Hp. by apply (requested_nil_stopped w).
  - intros Hne. destruct (Ha Hne) as (_ & ? & ? & _). done.
Qed.

Lemma one_source_one_frame_witness :
  (length (App.started App.paused.2) <= 1)%nat /\
  App.requested App.paused.2 = [].
Proof.
  destruct (one_source_one_frame binary64 App.second App.paused)
    as (H1 & _ & _ & _ & H2 & _).
  - exact paused_reachable.
  - split; [exact H1|]. apply H2. vm_compute. reflexivity.
Defined.

(** X21.  The range follows the selection.  In every state the component
    reaches, the selection is a set of identifiers of segments of the
    transcript, the range is the one the effect computes from the
    selection and the transcript alone, never one left from an earlier
    selection, and there is a range exactly when a segment is
    selected. *)
Theorem selection_in_sync (fl : Q -> Q) (clock : nat -> Q) (w : App.world) :
  App.reachable fl clock w ->
  NoDup (App.selectedSegmentIds w.1) /\
  (forall i : Z, i ∈ App.selectedSegmentIds w.1 ->
     exists seg : TranscriptSegment, seg ∈ App.transcript w.1 /\ id seg = i) /\
  App.selectionRange w.1
  = updateSelectionRange (App.selectedSegmentIds w.1) (App.transcript w.1) None /\
  (App.selectionRange w.1 = None <-> App.selectedSegmentIds w.1 = []) /\
  (App.appState w.1 <> App.READY -> App.selectedSegmentIds w.1 = []).
Proof.
  intros Hw. pose proof (reachable_consistent fl clock w Hw) as Hc.
  pose proof Hc as (Ha & _ & Hnd & Hids & Hrange & _).
  split; [done|]. split; [done|]. split; [done|]. split.
  - split.
    + intros Hn. destruct (App.selectedSegmentIds w.1) as [|i ids] eqn:E; [done|].
      destruct (updateSelectionRange_Some (i :: ids) (App.transcript w.1))
        as [r Hr]; [done | done |]. congruence.
    + intros E. by rewrite Hrange, E.
  - intros Hne. by destruct (Ha Hne).
Qed.

Lemma selection_in_sync_witness :
  App.selectionRange App.playing.1
  = updateSelectionRange (App.selectedSegmentIds App.playing.1)
      (App.transcript App.playing.1) None /\
  (App.selectionRange App.playing.1 = None <->
   App.selectedSegmentIds App.playing.1 = []).
Proof.
  destruct (selection_in_sync binary64 App.second App.playing)
    as (_ & _ & H1 & H2 & _).
  - exact playing_reachable.
  - split; [exact H1 | exact H2].
Defined.

(** X22.  A plain click selects the clicked segment alone and seeks to
    its start.  In every state the component reaches, after a click
    without modifier on a segment the selection is the clicked identifier,
    the range is the start and the end of the first segment of the
    transcript with that identifier, and, playback being off, the current
    time is that start and playback stays off. *)
Theorem plain_click_selects (fl : Q -> Q) (clock : nat -> Q) (w : App.world)
    (id_ : Z) (e : MouseEvent) (segment : TranscriptSegment) :
  App.reachable fl clock w ->
  shiftKey e = false -> metaKey e = false -> ctrlKey e = false ->
  findSegment (App.transcript w.1) (Some id_) = Some segment ->
  App.selectedSegmentIds (App.handle fl clock (App.SegmentClick id_ e) w).1
  = [id_] /\
  App.selectionRange (App.handle fl clock (App.SegmentClick id_ e) w).1
  = Some {| range_start := start segment; range_end := end_ segment |} /\
  (App.isPlaying w.1 = false ->
   App.currentTime (App.handle fl clock (App.SegmentClick id_ e) w).1
   = start segment /\
   App.isPlaying (App.handle fl clock (App.SegmentClick id_ e) w).1 = false).
Proof.
  intros Hw Hs Hm Hc Hf.
  pose proof (reachable_consistent fl clock w Hw) as (_ & _ & _ & _ & _ & Hpb).
  destruct (segmentClick_spec fl clock id_ e w Hpb)
    as (_ & _ & _ & E3 & _ & E5 & _).
  assert (Hids : handleSegmentClick (App.transcript w.1)
                   (App.selectedSegmentIds w.1) id_ e = [id_]).
  { unfold handleSegmentClick. by rewrite Hs, Hm, Hc. }
  rewrite Hids in E5.
  destruct w as [s p]. cbn [App.handle fst snd] in *.
  destruct (App.handleSegmentClick fl clock id_ e (s, p)) as [s' p'] eqn:Eh.
  cbn [fst snd] in *. unfold App.selectionEffect. cbn.
  split; [done|]. split.
  - rewrite E5, E3. unfold updateSelectionRange. cbn. by rewrite Hf.
  - intros Hp. unfold App.handleSegmentClick in Eh.
    rewrite Hs, Hm, Hc, Hf in Eh. cbn [orb] in Eh.
    unfold App.handleSeek in Eh. cbn [fst snd] in Eh.
    change (App.isPlaying (App.setSelectedSegmentIds
              (handleSegmentClick (App.transcript s) (App.selectedSegmentIds s) id_ e) s))
      with (App.isPlaying s) in Eh.
    rewrite Hp in Eh.
    destruct (stopAudio_spec
                (App.setSelectedSegmentIds
                   (handleSegmentClick (App.transcript s)
                      (App.selectedSegmentIds s) id_ e) s, p) Hpb)
      as (_ & _ & Hoff & _).
    destruct (App.stopAudio _) as [s2 p2]. injection Eh as <- <-.
    cbn in *. done.
Qed.

Lemma plain_click_selects_witness :
  App.selectedSegmentIds
    (App.handle binary64 App.second (App.SegmentClick 3 App.plain) App.paused).1
  = [3] /\
  App.selectionRange
    (App.handle binary64 App.second (App.SegmentClick 3 App.plain) App.paused).1
  = Some {| range_start := 2; range_end := 7 # 2 |}.
Proof.
  destruct (plain_click_selects binary64 App.second App.paused 3 App.plain
              {| id := 3; text := "three"; start := 2; end_ := 7 # 2 |})
    as (H1 & H2 & _).
  - exact paused_reachable.
  - reflexivity.
  - reflexivity.
  - reflexivity.
  - vm_compute. reflexivity.
  - split; [exact H1 | exact H2].
Defined.

Section Playhead.
Context (fl : Q -> Q) (clock : nat -> Q).

(** What [loop] never touches. *)
Lemma loop_refs (d : Q) (w : App.world) :
  App.started (App.loop fl clock d w).2 = App.started w.2 /\
  App.sourceNodeRef (App.loop fl clock d w).1 = App.sourceNodeRef w.1 /\
  App.startTimeRef (App.loop fl clock d w).1 = App.startTimeRef w.1.
Proof.
  destruct w as [s p]. unfold App.loop, App.read_currentTime.
  destruct (Qle_bool _ _); [|done].
  by destruct (App.rafRef s).
Qed.

(** What [stopAudio] leaves of the platform and of the references. *)
Lemma stopAudio_refs (w : App.world) :
  App.nodes (App.stopAudio w).2 = App.nodes w.2 /\
  App.readings (App.stopAudio w).2 = App.readings w.2 /\
  App.sourceNodeRef (App.stopAudio w).1 = None.
Proof.
  destruct w as [s p]. unfold App.stopAudio.
  by destruct (App.sourceNodeRef s) eqn:E1, (App.rafRef s) eqn:E2; cbn;
    rewrite ?E2.
Qed.

(** A call of [playAudio] that gets to start its source: the new node
    is the only one started. *)
Lemma playAudio_starts (startOffset : Q) (w : App.world) :
  App.playback_consistent w -> App.audioBuffer w.1 <> None ->
  (0 <= startOffset)%Q ->
  App.started (App.playAudio fl clock startOffset w).2 = [App.nodes w.2] /\
  App.sourceNodeRef (App.playAudio fl clock startOffset w).1
  = Some (App.nodes w.2) /\
  App.startTimeRef (App.playAudio fl clock startOffset w).1
  = fl (clock (App.readings w.2) - startOffset).
Proof.
  destruct w as [s p]. intros (_ & Hst & _) Hbuf Ht. cbn [fst snd] in *.
  unfold App.playAudio.
  destruct (App.audioBuffer s) as [buffer|]; [|done].
  set (p1 := match App.sourceNodeRef s with
             | Some node => App.source_stop node p
             | None => p
             end).
  assert (Hp1 : App.started p1 = [] /\ App.nodes p1 = App.nodes p /\
                App.readings p1 = App.readings p).
  { unfold p1. destruct (App.sourceNodeRef s) as [node|] eqn:Eref.
    - cbn. split; [|done]. apply filter_none. intros n Hn Hne.
      apply Hst in Hn. congruence.
    - split; [|done]. apply nil_of_no_elem. intros n Hn.
      apply Hst in Hn. congruence. }
  destruct Hp1 as (Hs1 & Hn1 & Hr1). unfold App.createBufferSource.
  apply Qle_bool_iff in Ht. rewrite Ht.
  unfold App.read_currentTime, App.source_start. cbn beta iota zeta.
  lazymatch goal with |- context [App.loop fl clock ?d ?w'] =>
    destruct (loop_refs d w') as (E1 & E2 & E3)
  end.
  rewrite E1, E2, E3. cbn. by rewrite Hs1, Hn1, Hr1.
Qed.
End Playhead.

(** X23.  A frame moves the playhead and stops playback at the end of
    the recording only.  When a requested frame runs in a state the
    component has reached, with [now] the time since the start of
    playback: below the duration, the current time becomes [now], playback
    goes on and one new frame is requested; from the duration on, the
    current time becomes the duration, playback is off and no frame is
    requested.  The range of the selection plays no part: a selection
    that is played runs on past its end. *)
Theorem frame_advances (fl : Q -> Q) (clock : nat -> Q) (w : App.world)
    (handle : nat) (d : Q) :
  App.reachable fl clock w -> (handle, d) ∈ App.requested w.2 ->
  let now := fl (clock (App.readings w.2) - App.startTimeRef w.1)%Q in
  ((now < App.duration w.1)%Q ->
   App.isPlaying (App.handle fl clock (App.Frame handle) w).1 = true /\
   App.currentTime (App.handle fl clock (App.Frame handle) w).1 = now /\
   exists handle' : nat,
     App.requested (App.handle fl clock (App.Frame handle) w).2
     = [(handle', App.duration w.1)] /\
     App.rafRef (App.handle fl clock (App.Frame handle) w).1 = Some handle') /\
  ((App.duration w.1 <= now)%Q ->
   App.isPlaying (App.handle fl clock (App.Frame handle) w).1 = false /\
   App.currentTime (App.handle fl clock (App.Frame handle) w).1
   = App.duration w.1 /\
   App.requested (App.handle fl clock (App.Frame handle) w).2 = []) /\
  App.started (App.handle fl clock (App.Frame handle) w).2 = App.started w.2.
Proof.
  intros Hw Hin now.
  pose proof (reachable_consistent fl clock w Hw) as (_ & _ & _ & _ & _ & Hpb).
  destruct Hpb as (_ & _ & _ & Hrq).
  destruct w as [s p]. cbn [fst snd] in *. cbn [App.handle fst snd].
  destruct (List.find _ (App.requested p)) as [[h d']|] eqn:Hf.
  2:{ apply list_elem_of_In in Hin.
      pose proof (find_none _ _ Hf _ Hin) as Hb. cbn in Hb.
      by rewrite Nat.eqb_refl in Hb. }
  apply find_some in Hf as [Hin' Hh]. apply list_elem_of_In in Hin'.
  cbn in Hh. apply Nat.eqb_eq in Hh as ->.
  destruct (Hrq handle d' Hin') as (Hraf & Hpl & ->).
  assert (Hnil : filter (fun f : nat * Q => f.1 <> handle) (App.requested p) = []).
  { apply filter_none. intros [h1 d1] Hin1 Hne.
    apply Hrq in Hin1 as [Hin1 _]. cbn in Hne. congruence. }
  rewrite Hnil. unfold App.loop, App.read_currentTime. cbn [App.readings App.set_requested].
  fold now. split; [|split].
  - intros Hlt. destruct (Qle_bool (App.duration s) now) eqn:Hb.
    { apply Qle_bool_iff in Hb. by apply Qlt_not_le in Hlt. }
    cbn. split; [done|]. split; [done|]. by eexists.
  - intros Hle. apply Qle_bool_iff in Hle. rewrite Hle.
    cbn. rewrite Hraf. cbn. done.
  - destruct (Qle_bool (App.duration s) now); [|done].
    cbn. by rewrite Hraf.
Qed.

Lemma frame_advances_witness :
  App.isPlaying (App.handle binary64 App.second (App.Frame 1) App.playing).1
  = false /\
  App.currentTime (App.handle binary64 App.second (App.Frame 1) App.playing).1
  = App.duration App.playing.1.
Proof.
  destruct (frame_advances binary64 App.second App.playing 1 2)
    as (_ & Hend & _).
  - exact playing_reachable.
  - vm_compute. apply list_elem_of_here.
  - destruct Hend as (H1 & H2 & _); [vm_compute; discriminate|].
    split; [exact H1 | exact H2].
Defined.

(** X24.  A seek keeps playback as it was.  In the editor, a seek while
    playback is off sets the current time and starts nothing.  A seek to
    a time that is not negative while playback is on stops the source that
    plays and starts a new one at that time: the new node is the only one
    started, the component refers to it, and the origin of the playhead is
    the reading of the clock less the time sought. *)
Theorem seek_restarts (fl : Q -> Q) (clock : nat -> Q) (w : App.world)
    (time : Q) :
  App.reachable fl clock w -> App.appState w.1 = App.READY ->
  (App.isPlaying w.1 = false ->
   App.isPlaying (App.handle fl clock (App.Seek time) w).1 = false /\
   App.currentTime (App.handle fl clock (App.Seek time) w).1 = time /\
   App.started (App.handle fl clock (App.Seek time) w).2 = [] /\
   App.requested (App.handle fl clock (App.Seek time) w).2 = []) /\
  (App.isPlaying w.1 = true -> (0 <= time)%Q ->
   App.started (App.handle fl clock (App.Seek time) w).2 = [App.nodes w.2] /\
   App.sourceNodeRef (App.handle fl clock (App.Seek time) w).1
   = Some (App.nodes w.2) /\
   App.startTimeRef (App.handle fl clock (App.Seek time) w).1
   = fl (clock (App.readings w.2) - time)%Q).
Proof.
  intros Hw Hready.
  pose proof (reachable_consistent fl clock w Hw) as (_ & Hb & _ & _ & _ & Hpb).
  destruct Hb as (buffer & Hbuf & _); [by right|].
  destruct (stopAudio_spec w Hpb) as (Hst & Hrq & Hoff & Hdoc & _).
  destruct (stopAudio_refs w) as (Hn & Hr & Href).
  destruct Hdoc as (_ & Hbuf' & _).
  cbn [App.handle]. unfold App.handleSeek.
  destruct (App.stopAudio w) as [s2 p2]. cbn [fst snd] in *. split.
  - intros ->. cbn. done.
  - intros -> Ht.
    destruct (playAudio_starts fl clock time (App.setCurrentTime time s2, p2))
      as (E1 & E2 & E3); [by apply stopped_consistent | | done |].
    + cbn. congruence.
    + cbn [fst snd] in *. by rewrite E1, E2, E3, Hn, Hr.
Qed.

Lemma seek_restarts_witness :
  App.isPlaying (App.handle binary64 App.second (App.Seek (3 # 2)) App.paused).1
  = false /\
  App.currentTime (App.handle binary64 App.second (App.Seek (3 # 2)) App.paused).1
  = (3 # 2)%Q.
Proof.
  destruct (seek_restarts binary64 App.second App.paused (3 # 2))
    as [Hoff _].
  - exact paused_reachable.
  - vm_compute. reflexivity.
  - destruct Hoff as (H1 & H2 & _); [vm_compute; reflexivity|].
    split; [exact H1 | exact H2].
Defined.

(** X25.  Play, pause and Play Selection.  In the editor, the play button
    while playback is off starts one new source at the current time, when
    it is not negative, and takes the reading of the clock less that time
    as the origin of the playhead, so that playback resumes where it was
    paused; while playback is on it stops the source and the frames and
    leaves the current time as it is.  Play Selection starts one new
    source at the start of the range. *)
Theorem play_starts_at (fl : Q -> Q) (clock : nat -> Q) (w : App.world) :
  App.reachable fl clock w -> App.appState w.1 = App.READY ->
  (App.isPlaying w.1 = false -> (0 <= App.currentTime w.1)%Q ->
   App.started (App.handle fl clock App.TogglePlayback w).2 = [App.nodes w.2] /\
   App.sourceNodeRef (App.handle fl clock App.TogglePlayback w).1
   = Some (App.nodes w.2) /\
   App.startTimeRef (App.handle fl clock App.TogglePlayback w).1
   = fl (clock (App.readings w.2) - App.currentTime w.1)%Q) /\
  (App.isPlaying w.1 = true ->
   App.isPlaying (App.handle fl clock App.TogglePlayback w).1 = false /\
   App.started (App.handle fl clock App.TogglePlayback w).2 = [] /\
   App.requested (App.handle fl clock App.TogglePlayback w).2 = [] /\
   App.currentTime (App.handle fl clock App.TogglePlayback w).1
   = App.currentTime w.1) /\
  (forall range : TimeRange,
     App.selectionRange w.1 = Some range -> (0 <= range_start range)%Q ->
     App.started (App.handle fl clock App.PlaySelection w).2 = [App.nodes w.2] /\
     App.sourceNodeRef (App.handle fl clock App.PlaySelection w).1
     = Some (App.nodes w.2) /\
     App.startTimeRef (App.handle fl clock App.PlaySelection w).1
     = fl (clock (App.readings w.2) - range_start range)%Q).
Proof.
  intros Hw Hready.
  pose proof (reachable_consistent fl clock w Hw) as (_ & Hb & _ & _ & _ & Hpb).
  destruct Hb as (buffer & Hbuf & _); [by right|].
  destruct (stopAudio_spec w Hpb) as (Hst & Hrq & Hoff & Hdoc & Hct).
  destruct (stopAudio_refs w) as (Hn & Hr & Href).
  destruct Hdoc as (_ & Hbuf' & _).
  cbn [App.handle]. unfold App.togglePlayback, App.handlePlaySelection.
  split; [|split].
  - intros -> Ht. apply playAudio_starts; [done | congruence | done].
  - intros ->. by repeat split.
  - intros range -> Ht.
    destruct (App.stopAudio w) as [s2 p2]. cbn [fst snd] in *.
    destruct (playAudio_starts fl clock (range_start range) (s2, p2))
      as (E1 & E2 & E3); [by apply stopped_consistent | | done |].
    + cbn. congruence.
    + cbn [fst snd] in *. by rewrite E1, E2, E3, Hn, Hr.
Qed.

Lemma play_starts_at_witness :
  App.started (App.handle binary64 App.second App.TogglePlayback App.paused).2
  = [App.nodes App.paused.2] /\
  App.startTimeRef (App.handle binary64 App.second App.TogglePlayback App.paused).1
  = binary64 (App.second (App.readings App.paused.2) - App.currentTime App.paused.1).
Proof.
  destruct (play_starts_at binary64 App.second App.paused) as [Hplay _].
  - exact paused_reachable.
  - vm_compute. reflexivity.
  - destruct Hplay as (H1 & _ & H3).
    + vm_compute. reflexivity.
    + vm_compute. discriminate.
    + split; [exact H1 | exact H3].
Defined.
